(** * Sequence-pair floorplanner: a shallow embedding of the annealing core

    The development embeds the block-placement engine (namespace
    [block_placement]: classes [Block] and [SimulatedAnnealingCore]) and
    checks the properties its specification states about packing,
    perturbation, resizing, the annealing schedule, macro alignment and
    cost normalisation.

    Modelling conventions.
    - A C++ [float] is an exact rational ([Q]); rounding is not modelled,
      and comparisons of floats are comparisons of rationals.
    - [std::vector] is a [list]; sequences hold block indices ([nat]).
    - The pseudo-random generator is a tape of the values that successive
      calls [distribution_(generator_)] return.  A computation that needs
      more values than the tape holds stops with [TapeEnd]; a loop that
      never leaves its resampling phase therefore yields [TapeEnd] on
      every tape.
    - A division whose divisor is zero stops with [DivByZero]; an index
      computed from a random draw or reached through an iterator that
      falls outside its vector stops with [OutOfRange]. *)

From Stdlib Require Import QArith Qround Qabs Lqa Lia ZArith String.
From stdpp Require Import base list gmap strings.

Local Open Scope Q_scope.

(** ** Outcomes of a run *)

Inductive Fault : Set := TapeEnd | OutOfRange | DivByZero.

Inductive Result (A : Type) : Type :=
| Ok (a : A)
| Err (f : Fault).
Arguments Ok {A} a.
Arguments Err {A} f.

Definition bind {A B : Type} (r : Result A) (k : A -> Result B) : Result B :=
  match r with
  | Ok a => k a
  | Err f => Err f
  end.

Notation "'do' x <- e ; k" := (bind e (fun x => k))
  (at level 10, x binder, e at level 100, k at level 200).

(** ** Floats *)

Definition fltb (a b : Q) : bool := negb (Qle_bool b a).
Definition fleb (a b : Q) : bool := Qle_bool a b.
Definition feqb (a b : Q) : bool := Qeq_bool a b.

(** [std::max(a, b)] is [(a < b) ? b : a]; [std::min(a, b)] is
    [(b < a) ? b : a]. *)
Definition fmax (a b : Q) : Q := if fltb a b then b else a.
Definition fmin (a b : Q) : Q := if fltb b a then b else a.

Definition fdiv (a b : Q) : Result Q :=
  if feqb b 0 then Err DivByZero else Ok (a / b).

(** The functions of [<cmath>] the engine calls. *)
Class MathLib : Type := {
  sqrtf : Q -> Q;
  expf : Q -> Q;
  logf : Q -> Q
}.

(** ** The random tape *)

Definition Tape : Type := list Q.

Definition uniform (g : Tape) : Result (Q * Tape) :=
  match g with
  | [] => Err TapeEnd
  | r :: g' => Ok (r, g')
  end.

(** [floor(distribution(generator) * size)] converted to an integer. *)
Definition index_of (r : Q) (size : nat) : Z :=
  Qfloor (r * inject_Z (Z.of_nat size)).

Definition random_index (size : nat) (g : Tape) : Result (Z * Tape) :=
  do '(r, g') <- uniform g;
  Ok (index_of r size, g').

(** A draw of [std::uniform_real_distribution<float>(0.0, 1.0)]. *)
Definition unit_draw (r : Q) : Prop := 0 <= r /\ r < 1.

(** ** Checked vector access *)

Definition at_ {A : Type} (v : list A) (i : Z) : Result A :=
  if (i <? 0)%Z then Err OutOfRange
  else match v !! Z.to_nat i with
       | Some a => Ok a
       | None => Err OutOfRange
       end.

Definition put_ {A : Type} (v : list A) (i : Z) (a : A) : Result (list A) :=
  if (i <? 0)%Z then Err OutOfRange
  else if (Z.to_nat i <? length v)%nat then Ok (<[Z.to_nat i := a]> v)
       else Err OutOfRange.

(** ** Class [Block] *)

Module Block.

Record t : Type := Build {
  name_ : string;
  area_ : Q;
  num_macro_ : Z;
  is_soft_ : bool;
  aspect_ratio_ : list (Q * Q);
  width_limit_ : list (Q * Q);
  height_limit_ : list (Q * Q);
  width_ : Q;
  height_ : Q;
  x_ : Q;
  y_ : Q;
  align_flag_ : bool
}.

Definition GetX (b : t) : Q := x_ b.
Definition GetY (b : t) : Q := y_ b.
Definition GetWidth (b : t) : Q := width_ b.
Definition GetHeight (b : t) : Q := height_ b.
Definition GetNumMacro (b : t) : Z := num_macro_ b.
Definition GetAlignFlag (b : t) : bool := align_flag_ b.

Definition SetX (v : Q) (b : t) : t :=
  Build (name_ b) (area_ b) (num_macro_ b) (is_soft_ b) (aspect_ratio_ b)
        (width_limit_ b) (height_limit_ b) (width_ b) (height_ b)
        v (y_ b) (align_flag_ b).

Definition SetY (v : Q) (b : t) : t :=
  Build (name_ b) (area_ b) (num_macro_ b) (is_soft_ b) (aspect_ratio_ b)
        (width_limit_ b) (height_limit_ b) (width_ b) (height_ b)
        (x_ b) v (align_flag_ b).

Definition SetAlignFlag (f : bool) (b : t) : t :=
  Build (name_ b) (area_ b) (num_macro_ b) (is_soft_ b) (aspect_ratio_ b)
        (width_limit_ b) (height_limit_ b) (width_ b) (height_ b)
        (x_ b) (y_ b) f.

Definition set_shape (w h : Q) (b : t) : t :=
  Build (name_ b) (area_ b) (num_macro_ b) (is_soft_ b) (aspect_ratio_ b)
        (width_limit_ b) (height_limit_ b) w h
        (x_ b) (y_ b) (align_flag_ b).

Definition set_area (a : Q) (b : t) : t :=
  Build (name_ b) a (num_macro_ b) (is_soft_ b) (aspect_ratio_ b)
        (width_limit_ b) (height_limit_ b) (width_ b) (height_ b)
        (x_ b) (y_ b) (align_flag_ b).

(** [width_ = w; height_ = area_ / width_;] *)
Definition width_then_height (w : Q) (b : t) : Result t :=
  do h <- fdiv (area_ b) w;
  Ok (set_shape w h b).

(** [height_ = h; width_ = area_ / height_;] *)
Definition height_then_width (h : Q) (b : t) : Result t :=
  do w <- fdiv (area_ b) h;
  Ok (set_shape w h b).

(** The iterator loop [while (...) vec_it++;] started at [begin() + i],
    where [stop] is the negated loop condition on the pair under the
    iterator: the position the iterator stops at.  Running off the end
    dereferences [end()]. *)
Fixpoint advance (stop : Q * Q -> bool) (v : list (Q * Q)) (i : nat)
  : Result nat :=
  match v with
  | [] => Err OutOfRange
  | p :: v' => if stop p then Ok i else advance stop v' (S i)
  end.

(** [vec_it--] *)
Definition retreat (i : nat) : Result nat :=
  match i with
  | O => Err OutOfRange
  | S j => Ok j
  end.

Definition last_index {A : Type} (v : list A) : Z :=
  (Z.of_nat (length v) - 1)%Z.

Definition ChangeWidth (width : Q) (b : t) : Result t :=
  if negb (is_soft_ b) then Ok b
  else
    do lim0 <- at_ (width_limit_ b) 0;
    if fleb lim0.1 width then width_then_height lim0.1 b
    else
      do limn <- at_ (width_limit_ b) (last_index (width_limit_ b));
      if fleb width limn.2 then width_then_height limn.2 b
      else
        do i <- advance (fun p => negb (fltb width p.2)) (width_limit_ b) 0;
        do cur <- at_ (width_limit_ b) (Z.of_nat i);
        if fleb width cur.1 then width_then_height width b
        else
          let width_low := cur.1 in
          do j <- retreat i;
          do prev <- at_ (width_limit_ b) (Z.of_nat j);
          let width_high := prev.2 in
          if fltb (width_high - width) (width - width_low)
          then width_then_height width_high b
          else width_then_height width_low b.

Definition ChangeHeight (height : Q) (b : t) : Result t :=
  if negb (is_soft_ b) then Ok b
  else
    do lim0 <- at_ (height_limit_ b) 0;
    if fleb height lim0.1 then height_then_width lim0.1 b
    else
      do limn <- at_ (height_limit_ b) (last_index (height_limit_ b));
      if fleb limn.2 height then height_then_width limn.2 b
      else
        do i <- advance (fun p => negb (fltb p.2 height)) (height_limit_ b) 0;
        do cur <- at_ (height_limit_ b) (Z.of_nat i);
        if fleb cur.1 height then height_then_width height b
        else
          let height_high := cur.1 in
          do j <- retreat i;
          do prev <- at_ (height_limit_ b) (Z.of_nat j);
          let height_low := prev.2 in
          if fltb (height_high - height) (height - height_low)
          then height_then_width height_high b
          else height_then_width height_low b.

(** The block draws from the generator of the annealing core that owns it
    ([SetRandom] stores a pointer to it), so the tape is threaded through. *)
Definition ResizeHardBlock (b : t) (g : Tape) : Result (t * Tape) :=
  if (num_macro_ b =? 0)%Z then Ok (b, g)
  else
    do '(index1, g1) <- random_index (length (aspect_ratio_ b)) g;
    do opt <- at_ (aspect_ratio_ b) index1;
    Ok (set_shape opt.1 opt.2 b, g1).


Definition ChooseAspectRatioRandom `{MathLib} (b : t) (g : Tape)
  : Result (t * Tape) :=
  do '(index1, g1) <- random_index (length (aspect_ratio_ b)) g;
  do range <- at_ (aspect_ratio_ b) index1;
  let ar_low := range.1 in
  let ar_high := range.2 in
  do '(ar, g2) <-
     (if feqb ar_low ar_high then Ok (ar_low, g1)
      else do '(num, g2) <- uniform g1;
           Ok (ar_low + (ar_high - ar_low) * num, g2));
  do b' <- height_then_width (sqrtf (area_ b * ar)) b;
  Ok (b', g2).

Definition SetRandom `{MathLib} (b : t) (g : Tape) : Result (t * Tape) :=
  if (num_macro_ b =? 0)%Z then ChooseAspectRatioRandom b g
  else ResizeHardBlock b g.

Definition IsResizeable (b : t) : bool :=
  (num_macro_ b =? 0)%Z || (1 <? length (aspect_ratio_ b))%nat.

Definition RemoveSoftBlock (b : t) : t :=
  if (num_macro_ b =? 0)%Z then set_shape 0 0 b else b.

Definition ShrinkSoftBlock (width_factor height_factor : Q) (b : t) : t :=
  let w := width_ b * width_factor in
  let h := height_ b * height_factor in
  set_area (w * h) (set_shape w h b).

End Block.

Global Instance Block_inhabited : Inhabited Block.t :=
  populate (Block.Build EmptyString 0 0%Z false [] [] [] 0 0 0 0 false).
Global Instance Q_inhabited : Inhabited Q := populate 0.

(** ** Nets, regions and locations *)

Record Net : Type := {
  net_blocks_ : list string;
  net_terminals_ : list string;
  net_weight_ : Z
}.

Record Region : Type := {
  region_lx_ : Q; region_ly_ : Q; region_ux_ : Q; region_uy_ : Q
}.

Record Location : Type := {
  location_name_ : string;
  location_lx_ : Q; location_ly_ : Q; location_ux_ : Q; location_uy_ : Q
}.

(** ** Class [SimulatedAnnealingCore] *)

Module SimulatedAnnealingCore.

(** The members set by the constructor and never written again. *)
Record Config : Type := {
  outline_width_ : Q;
  outline_height_ : Q;
  cooling_rate_ : Q;
  alpha_ : Q;
  beta_ : Q;
  gamma_ : Q;
  boundary_weight_ : Q;
  macro_blockage_weight_ : Q;
  location_weight_ : Q;
  notch_weight_ : Q;
  resize_prob_ : Q;
  pos_swap_prob_ : Q;
  neg_swap_prob_ : Q;
  double_swap_prob_ : Q;
  init_prob_ : Q;
  max_num_step_ : Z;
  perturb_per_step_ : Z;
  shrink_factor_ : Q;
  shrink_freq_ : Q;
  nets_ : list Net;
  regions_ : list Region;
  locations_ : list Location;
  terminal_position_ : gmap string (Q * Q);
  (** [block_map_]: block name to block index *)
  block_map_ : gmap string nat;
  (** [location_map_]: location index to block index *)
  location_map_ : list (nat * nat)
}.

(** The bounding box of the packed layout and the cost terms; the members
    [pre_width_], ..., [pre_notch_penalty_] are a second record of the
    same shape. *)
Record Metrics : Type := {
  width_ : Q;
  height_ : Q;
  area_ : Q;
  wirelength_ : Q;
  outline_penalty_ : Q;
  boundary_penalty_ : Q;
  macro_blockage_penalty_ : Q;
  location_penalty_ : Q;
  notch_penalty_ : Q
}.

Record Norms : Type := {
  norm_area_ : Q;
  norm_wirelength_ : Q;
  norm_outline_penalty_ : Q;
  norm_boundary_penalty_ : Q;
  norm_macro_blockage_penalty_ : Q;
  norm_location_penalty_ : Q;
  norm_notch_penalty_ : Q
}.

Record t : Type := Build {
  config : Config;
  blocks_ : list Block.t;
  pre_blocks_ : list Block.t;
  pos_seq_ : list nat;
  neg_seq_ : list nat;
  pre_pos_seq_ : list nat;
  pre_neg_seq_ : list nat;
  cur : Metrics;
  pre : Metrics;
  norm : Norms;
  init_T_ : Q;
  action_id_ : Z;
  block_id_ : Z;
  generator_ : Tape
}.

Definition set_blocks (bs : list Block.t) (s : t) : t :=
  Build (config s) bs (pre_blocks_ s) (pos_seq_ s) (neg_seq_ s)
        (pre_pos_seq_ s) (pre_neg_seq_ s) (cur s) (pre s) (norm s)
        (init_T_ s) (action_id_ s) (block_id_ s) (generator_ s).

Definition set_pre_blocks (bs : list Block.t) (s : t) : t :=
  Build (config s) (blocks_ s) bs (pos_seq_ s) (neg_seq_ s)
        (pre_pos_seq_ s) (pre_neg_seq_ s) (cur s) (pre s) (norm s)
        (init_T_ s) (action_id_ s) (block_id_ s) (generator_ s).

Definition set_pos_seq (l : list nat) (s : t) : t :=
  Build (config s) (blocks_ s) (pre_blocks_ s) l (neg_seq_ s)
        (pre_pos_seq_ s) (pre_neg_seq_ s) (cur s) (pre s) (norm s)
        (init_T_ s) (action_id_ s) (block_id_ s) (generator_ s).

Definition set_neg_seq (l : list nat) (s : t) : t :=
  Build (config s) (blocks_ s) (pre_blocks_ s) (pos_seq_ s) l
        (pre_pos_seq_ s) (pre_neg_seq_ s) (cur s) (pre s) (norm s)
        (init_T_ s) (action_id_ s) (block_id_ s) (generator_ s).

Definition set_pre_seqs (p n : list nat) (s : t) : t :=
  Build (config s) (blocks_ s) (pre_blocks_ s) (pos_seq_ s) (neg_seq_ s)
        p n (cur s) (pre s) (norm s)
        (init_T_ s) (action_id_ s) (block_id_ s) (generator_ s).

Definition set_cur (m : Metrics) (s : t) : t :=
  Build (config s) (blocks_ s) (pre_blocks_ s) (pos_seq_ s) (neg_seq_ s)
        (pre_pos_seq_ s) (pre_neg_seq_ s) m (pre s) (norm s)
        (init_T_ s) (action_id_ s) (block_id_ s) (generator_ s).

Definition set_pre (m : Metrics) (s : t) : t :=
  Build (config s) (blocks_ s) (pre_blocks_ s) (pos_seq_ s) (neg_seq_ s)
        (pre_pos_seq_ s) (pre_neg_seq_ s) (cur s) m (norm s)
        (init_T_ s) (action_id_ s) (block_id_ s) (generator_ s).

Definition set_norm (n : Norms) (s : t) : t :=
  Build (config s) (blocks_ s) (pre_blocks_ s) (pos_seq_ s) (neg_seq_ s)
        (pre_pos_seq_ s) (pre_neg_seq_ s) (cur s) (pre s) n
        (init_T_ s) (action_id_ s) (block_id_ s) (generator_ s).

Definition set_init_T (v : Q) (s : t) : t :=
  Build (config s) (blocks_ s) (pre_blocks_ s) (pos_seq_ s) (neg_seq_ s)
        (pre_pos_seq_ s) (pre_neg_seq_ s) (cur s) (pre s) (norm s)
        v (action_id_ s) (block_id_ s) (generator_ s).

Definition set_action_id (a : Z) (s : t) : t :=
  Build (config s) (blocks_ s) (pre_blocks_ s) (pos_seq_ s) (neg_seq_ s)
        (pre_pos_seq_ s) (pre_neg_seq_ s) (cur s) (pre s) (norm s)
        (init_T_ s) a (block_id_ s) (generator_ s).

Definition set_block_id (i : Z) (s : t) : t :=
  Build (config s) (blocks_ s) (pre_blocks_ s) (pos_seq_ s) (neg_seq_ s)
        (pre_pos_seq_ s) (pre_neg_seq_ s) (cur s) (pre s) (norm s)
        (init_T_ s) (action_id_ s) i (generator_ s).

Definition set_generator (g : Tape) (s : t) : t :=
  Build (config s) (blocks_ s) (pre_blocks_ s) (pos_seq_ s) (neg_seq_ s)
        (pre_pos_seq_ s) (pre_neg_seq_ s) (cur s) (pre s) (norm s)
        (init_T_ s) (action_id_ s) (block_id_ s) g.

Definition set_box (w h a : Q) (m : Metrics) : Metrics :=
  {| width_ := w; height_ := h; area_ := a;
     wirelength_ := wirelength_ m;
     outline_penalty_ := outline_penalty_ m;
     boundary_penalty_ := boundary_penalty_ m;
     macro_blockage_penalty_ := macro_blockage_penalty_ m;
     location_penalty_ := location_penalty_ m;
     notch_penalty_ := notch_penalty_ m |}.

(** *** PackFloorplan

    The vectors [match] and [length] have one entry per block and are
    indexed by entries of the two sequences.  The source does not check
    these indices; the model reads the default value and writes nothing at
    an index outside the vector, and the loops over both sequences stop at
    the end of the shorter one.  Neither happens when both sequences are
    permutations of the block indices. *)

Definition match_first (i : nat) (p : nat * nat) : nat * nat := (i, p.2).
Definition match_second (i : nat) (p : nat * nat) : nat * nat := (p.1, i).

(** [for i: match[pos[i]].first = i; match[neg[i]].second = i;] *)
Fixpoint fill_match (i : nat) (pos neg : list nat) (m : list (nat * nat))
  : list (nat * nat) :=
  match pos, neg with
  | b :: pos', c :: neg' =>
      fill_match (S i) pos' neg'
        (alter (match_second i) c (alter (match_first i) b m))
  | _, _ => m
  end.

(** [for (j = p; j < n; j++) if (t > length[j]) length[j] = t; else break;]
    on the part of [length] that starts at [p]. *)
Fixpoint raise (t : Q) (len : list Q) : list Q :=
  match len with
  | [] => []
  | l :: rest => if fltb l t then t :: raise t rest else len
  end.

(** The two sweeps of [PackFloorplan] are the same loop, once on x and
    widths and once on y and heights. *)
Record Axis : Type := {
  coord : Block.t -> Q;
  extent : Block.t -> Q;
  place : Q -> Block.t -> Block.t
}.

Definition X_axis : Axis :=
  {| coord := Block.GetX; extent := Block.GetWidth; place := Block.SetX |}.
Definition Y_axis : Axis :=
  {| coord := Block.GetY; extent := Block.GetHeight; place := Block.SetY |}.

(** One iteration of a sweep, for block [b]:
    [p = match[b].second; blocks_[b].Set(length[p]);
     t = blocks_[b].Get() + blocks_[b].GetExtent(); raise length from p]. *)
Definition place_block (ax : Axis) (mt : list (nat * nat))
    (st : list Block.t * list Q) (b : nat) : list Block.t * list Q :=
  let p := (mt !!! b).2 in
  let bs := alter (place ax (st.2 !!! p)) b st.1 in
  let t := coord ax (bs !!! b) + extent ax (bs !!! b) in
  (bs, take p st.2 ++ raise t (drop p st.2)).

Definition sweep (ax : Axis) (mt : list (nat * nat)) (order : list nat)
    (bs : list Block.t) : list Block.t * list Q :=
  foldl (place_block ax mt) (bs, replicate (length bs) 0) order.

Definition PackFloorplan (s : t) : t :=
  let n := length (blocks_ s) in
  let bs0 := (fun b => Block.SetY 0 (Block.SetX 0 b)) <$> blocks_ s in
  let mtx := fill_match 0 (pos_seq_ s) (neg_seq_ s) (replicate n (0, 0)%nat) in
  let sx := sweep X_axis mtx (pos_seq_ s) bs0 in
  let width := sx.2 !!! (n - 1)%nat in
  let pos_seq := reverse (pos_seq_ s) in
  let mty := fill_match 0 pos_seq (neg_seq_ s) mtx in
  let sy := sweep Y_axis mty pos_seq sx.1 in
  let height := sy.2 !!! (n - 1)%nat in
  set_cur (set_box width height (width * height) (cur s)) (set_blocks sy.1 s).

(** *** Moves *)

(** [std::swap(v[i], v[j])] *)
Definition swap_ {A : Type} (v : list A) (i j : Z) : Result (list A) :=
  do a <- at_ v i;
  do b <- at_ v j;
  do v1 <- put_ v i b;
  put_ v1 j a.

(** [while (index1 == index2) index2 = floor(draw * size);] *)
Fixpoint redraw_distinct (size : nat) (index1 index2 : Z) (g : Tape)
  : Result (Z * Tape) :=
  if (index1 =? index2)%Z then
    match g with
    | [] => Err TapeEnd
    | r :: g' => redraw_distinct size index1 (index_of r size) g'
    end
  else Ok (index2, g).

Definition two_indices (size : nat) (g : Tape) : Result (Z * Z * Tape) :=
  do '(index1, g1) <- random_index size g;
  do '(index2, g2) <- random_index size g1;
  do '(index2', g3) <- redraw_distinct size index1 index2 g2;
  Ok (index1, index2', g3).

Definition SingleSwap (flag : bool) (s : t) : Result t :=
  do '(index1, index2, g) <- two_indices (length (blocks_ s)) (generator_ s);
  let s1 := set_generator g s in
  if flag then
    do l <- swap_ (pos_seq_ s1) index1 index2;
    Ok (set_pos_seq l s1)
  else
    do l <- swap_ (neg_seq_ s1) index1 index2;
    Ok (set_neg_seq l s1).

(** The loop of [DoubleSwap] over [i < blocks_.size()] that records in
    [ni] the last position of [neg_seq_] that holds [a] (first component)
    and the last one that holds [b] (second component). *)
Fixpoint locate (a b : nat) (neg : list nat) (n i : nat) (ni : nat * nat)
  : Result (nat * nat) :=
  match n with
  | O => Ok ni
  | S n' =>
      do c <- at_ neg (Z.of_nat i);
      let ni1 := if (a =? c)%nat then (i, ni.2) else ni in
      let ni2 := if (b =? c)%nat then (ni1.1, i) else ni1 in
      locate a b neg n' (S i) ni2
  end.

Definition DoubleSwap (s : t) : Result t :=
  do '(index1, index2, g) <- two_indices (length (blocks_ s)) (generator_ s);
  do pos <- swap_ (pos_seq_ s) index1 index2;
  do a <- at_ pos index1;
  do b <- at_ pos index2;
  do ni <- locate a b (neg_seq_ s) (length (blocks_ s)) 0 (0, 0)%nat;
  do neg <- swap_ (neg_seq_ s) (Z.of_nat ni.1) (Z.of_nat ni.2);
  Ok (set_generator g (set_neg_seq neg (set_pos_seq pos s))).

(** [while (blocks_[index1].IsResizeable() == false)
      index1 = floor(draw * size);] *)
Fixpoint pick_resizeable (bs : list Block.t) (index1 : Z) (g : Tape)
  : Result (Z * Tape) :=
  match at_ bs index1 with
  | Err f => Err f
  | Ok b =>
      if Block.IsResizeable b then Ok (index1, g)
      else match g with
           | [] => Err TapeEnd
           | r :: g' => pick_resizeable bs (index_of r (length bs)) g'
           end
  end.

Definition far_edge (ax : Axis) (b : Block.t) : Q := coord ax b + extent ax b.

(** [for i: cur = far edge of block i;
      if (cur > b2 && cur < e) e = cur;] *)
Definition nearest_edge_beyond (ax : Axis) (b2 e : Q) (bs : list Block.t) : Q :=
  foldl (fun e blk => let c := far_edge ax blk in
                      if fltb b2 c && fltb c e then c else e) e bs.

(** [for i: cur = far edge of block i;
      if (cur < b2 && cur > d) d = cur;] *)
Definition nearest_edge_inside (ax : Axis) (b2 d : Q) (bs : list Block.t) : Q :=
  foldl (fun d blk => let c := far_edge ax blk in
                      if fltb c b2 && fltb d c then c else d) d bs.

(** The four stretch moves of [Resize] on the soft block [blk]; [None]
    is the early [return] that leaves the block as it is. *)
Definition stretch_out (ax : Axis) (outline : Q) (bs : list Block.t)
    (blk : Block.t) : option Q :=
  let b1 := coord ax blk in
  let b2 := b1 + extent ax blk in
  if fleb outline b1 then None
  else Some (nearest_edge_beyond ax b2 outline bs - b1).

Definition stretch_in (ax : Axis) (bs : list Block.t) (blk : Block.t)
  : option Q :=
  let b1 := coord ax blk in
  let b2 := b1 + extent ax blk in
  let d := nearest_edge_inside ax b2 b1 bs in
  if fleb d b1 then None else Some (d - b1).

Definition Resize `{MathLib} (s : t) : Result t :=
  let bs := blocks_ s in
  do '(i0, g0) <- random_index (length bs) (generator_ s);
  do '(index1, g1) <- pick_resizeable bs i0 g0;
  let s1 := set_block_id index1 (set_generator g1 s) in
  do blk <- at_ bs index1;
  if (0 <? Block.GetNumMacro blk)%Z then
    do '(blk', g2) <- Block.ResizeHardBlock blk g1;
    do bs' <- put_ bs index1 blk';
    Ok (set_generator g2 (set_blocks bs' s1))
  else
    do '(option, g2) <- uniform g1;
    let s2 := set_generator g2 s1 in
    if fleb option (2 # 10) then
      do '(blk', g3) <- Block.ChooseAspectRatioRandom blk g2;
      do bs' <- put_ bs index1 blk';
      Ok (set_generator g3 (set_blocks bs' s2))
    else if fleb option (4 # 10) then
      match stretch_out X_axis (outline_width_ (config s)) bs blk with
      | None => Ok s2
      | Some width =>
          do blk' <- Block.ChangeWidth width blk;
          do bs' <- put_ bs index1 blk';
          Ok (set_blocks bs' s2)
      end
    else if fleb option (6 # 10) then
      match stretch_in X_axis bs blk with
      | None => Ok s2
      | Some width =>
          do blk' <- Block.ChangeWidth width blk;
          do bs' <- put_ bs index1 blk';
          Ok (set_blocks bs' s2)
      end
    else if fleb option (8 # 10) then
      match stretch_out Y_axis (outline_height_ (config s)) bs blk with
      | None => Ok s2
      | Some height =>
          do blk' <- Block.ChangeHeight height blk;
          do bs' <- put_ bs index1 blk';
          Ok (set_blocks bs' s2)
      end
    else
      match stretch_in Y_axis bs blk with
      | None => Ok s2
      | Some height =>
          do blk' <- Block.ChangeHeight height blk;
          do bs' <- put_ bs index1 blk';
          Ok (set_blocks bs' s2)
      end.

Definition Perturb `{MathLib} (s : t) : Result t :=
  if (length (blocks_ s) =? 1)%nat then Ok s
  else
    let s0 := set_pre (cur s) (set_pre_seqs (pos_seq_ s) (neg_seq_ s) s) in
    do '(op, g) <- uniform (generator_ s0);
    let s1 := set_generator g s0 in
    do s2 <-
       (if fleb op (resize_prob_ (config s)) then
          Resize (set_pre_blocks (blocks_ s1) (set_action_id 0 s1))
        else if fleb op (pos_swap_prob_ (config s)) then
          SingleSwap true (set_action_id 1 s1)
        else if fleb op (neg_swap_prob_ (config s)) then
          SingleSwap false (set_action_id 2 s1)
        else
          DoubleSwap (set_action_id 3 s1));
    Ok (PackFloorplan s2).

Definition Restore (s : t) : Result t :=
  do s1 <-
     (if (action_id_ s =? 0)%Z then
        do blk <- at_ (pre_blocks_ s) (block_id_ s);
        do bs <- put_ (blocks_ s) (block_id_ s) blk;
        Ok (set_blocks bs s)
      else if (action_id_ s =? 1)%Z then
        Ok (set_pos_seq (pre_pos_seq_ s) s)
      else if (action_id_ s =? 2)%Z then
        Ok (set_neg_seq (pre_neg_seq_ s) s)
      else
        Ok (set_neg_seq (pre_neg_seq_ s) (set_pos_seq (pre_pos_seq_ s) s)));
  Ok (set_cur (pre s) s1).

(** *** Overlap of hard macros *)

Definition overlap_area (a b : Block.t) : Q :=
  let x1 := fmax (Block.GetX a) (Block.GetX b) in
  let x2 := fmin (Block.GetX a + Block.GetWidth a)
                 (Block.GetX b + Block.GetWidth b) in
  let y1 := fmax (Block.GetY a) (Block.GetY b) in
  let y2 := fmin (Block.GetY a + Block.GetHeight a)
                 (Block.GetY b + Block.GetHeight b) in
  fmax (x2 - x1) 0 * fmax (y2 - y1) 0.

Definition is_macro (b : Block.t) : bool := (0 <? Block.GetNumMacro b)%Z.

(** [for i: for j > i: overlap += ...] over the list of macros, [acc]
    being the running value of [overlap]. *)
Fixpoint pairwise_overlap (ms : list Block.t) (acc : Q) : Q :=
  match ms with
  | [] => acc
  | a :: rest =>
      pairwise_overlap rest
        (foldl (fun acc b => acc + overlap_area a b) acc rest)
  end.

Definition macros (bs : list Block.t) : list Block.t :=
  List.filter is_macro bs.

Definition CalculateOverlap (bs : list Block.t) : bool :=
  fltb 0 (pairwise_overlap (macros bs) 0).

(** *** AlignMacro *)

(** [threshold_H = outline_width_ / 10; threshold_V = outline_height_ / 10;
     for each macro: threshold_H = min(threshold_H, width); ...] *)
Definition thresholds (ow oh : Q) (bs : list Block.t) : Q * Q :=
  foldl (fun th b =>
           if is_macro b
           then (fmin th.1 (Block.GetWidth b), fmin th.2 (Block.GetHeight b))
           else th)
        (ow / 10, oh / 10) bs.

(** The first loop: a macro close to an edge of the outline is moved onto
    it.  No overlap test is made here. *)
Definition snap_to_boundary (ow oh tH tV : Q) (b : Block.t) : Block.t :=
  if is_macro b then
    let lx := Block.GetX b in
    let ly := Block.GetY b in
    let ux := lx + Block.GetWidth b in
    let uy := ly + Block.GetHeight b in
    let b1 :=
      if fltb lx tH then Block.SetX 0 b
      else if fltb ux ow && fltb (ow - ux) tH
           then Block.SetX (ow - Block.GetWidth b) b
           else b in
    if fltb ly tV then Block.SetY 0 b1
    else if fltb uy oh && fltb (oh - uy) tV
         then Block.SetY (oh - Block.GetHeight b1) b1
         else b1
  else b.

(** [macro_id_list]: the indices of the macros, in increasing order. *)
Fixpoint macro_ids (i : nat) (bs : list Block.t) : list nat :=
  match bs with
  | [] => []
  | b :: rest =>
      if is_macro b then i :: macro_ids (S i) rest else macro_ids (S i) rest
  end.

(** The four passes (left, right, bottom, top) have the same shape; the
    direction selects the seeds, the proximity test, the target
    coordinate and the coordinate that is written. *)
Inductive Direction : Set := ToLeft | ToRight | ToBottom | ToTop.

Definition opposite (d : Direction) : Direction :=
  match d with
  | ToLeft => ToRight
  | ToRight => ToLeft
  | ToBottom => ToTop
  | ToTop => ToBottom
  end.

(** The macro lies on the edge the pass aligns to. *)
Definition on_edge (d : Direction) (ow oh : Q) (b : Block.t) : bool :=
  match d with
  | ToLeft => feqb (Block.GetX b) 0
  | ToRight => fleb ow (Block.GetX b + Block.GetWidth b)
  | ToBottom => feqb (Block.GetY b) 0
  | ToTop => fleb oh (Block.GetY b + Block.GetHeight b)
  end.

(** Seeding, for macro [id]: the right, bottom and top passes first clear
    the flag ([reset]); the left pass, which runs first, does not.  A macro
    on the edge of the pass is flagged and queued; a macro on the opposite
    edge is flagged only. *)
Definition mark_seed (d : Direction) (reset : bool) (ow oh : Q)
    (st : list Block.t * list nat) (id : nat) : list Block.t * list nat :=
  let b := st.1 !!! id in
  let b0 := if reset then Block.SetAlignFlag false b else b in
  if on_edge d ow oh b0
  then (<[id := Block.SetAlignFlag true b0]> st.1, st.2 ++ [id])
  else if on_edge (opposite d) ow oh b0
       then (<[id := Block.SetAlignFlag true b0]> st.1, st.2)
       else (<[id := b0]> st.1, st.2).

Record Rect : Type := { lx : Q; ly : Q; ux : Q; uy : Q }.

(** [lx = GetX(); ux = GetWidth() + lx; ...] of the macro taken from the
    queue *)
Definition src_rect (b : Block.t) : Rect :=
  {| lx := Block.GetX b; ly := Block.GetY b;
     ux := Block.GetWidth b + Block.GetX b;
     uy := Block.GetHeight b + Block.GetY b |}.

(** [lx_b = GetX(); ux_b = lx_b + GetWidth(); ...] of a candidate *)
Definition cand_rect (b : Block.t) : Rect :=
  {| lx := Block.GetX b; ly := Block.GetY b;
     ux := Block.GetX b + Block.GetWidth b;
     uy := Block.GetY b + Block.GetHeight b |}.

Definition near (th a b : Q) : bool := fleb (Qabs (a - b)) th.

(** The test on the other axis ([y_flag] in the left and right passes,
    [x_flag] in the bottom and top passes). *)
Definition proximity (d : Direction) (tH tV : Q) (s b : Rect) : bool :=
  match d with
  | ToLeft | ToRight =>
      near tV (ly s) (ly b) || near tV (uy s) (uy b)
      || near tV (ly s) (uy b) || near tV (uy s) (ly b)
  | ToBottom | ToTop =>
      near tH (lx s) (lx b) || near tH (ux s) (ux b)
      || near tH (lx s) (ux b) || near tH (ux s) (lx b)
  end.

(** The coordinate the candidate is moved to, if any. *)
Definition target (d : Direction) (tH tV : Q) (s b : Rect) : option Q :=
  match d with
  | ToLeft =>
      if fleb (lx s) (lx b) && fleb (lx b) (lx s + tH) then Some (lx s)
      else if fleb (ux s) (lx b) && fleb (lx b) (ux s + tH) then Some (ux s)
      else None
  | ToRight =>
      if fleb (ux b) (ux s) && fleb (ux s - tH) (ux b)
      then Some (ux s - (ux b - lx b))
      else if fleb (ux b) (lx s) && fleb (lx s - tH) (ux b)
      then Some (lx s - (ux b - lx b))
      else None
  | ToBottom =>
      if fleb (ly s) (ly b) && fleb (ly b) (ly s + tV) then Some (ly s)
      else if fleb (uy s) (ly b) && fleb (ly b) (uy s + tV) then Some (uy s)
      else None
  | ToTop =>
      if fleb (uy b) (uy s) && fleb (uy s - tV) (uy b)
      then Some (uy s - (uy b - ly b))
      else if fleb (uy b) (ly s) && fleb (ly s - tV) (uy b)
      then Some (ly s - (uy b - ly b))
      else None
  end.

Definition set_coord (d : Direction) (v : Q) (b : Block.t) : Block.t :=
  match d with
  | ToLeft | ToRight => Block.SetX v b
  | ToBottom | ToTop => Block.SetY v b
  end.

Definition get_coord (d : Direction) (b : Block.t) : Q :=
  match d with
  | ToLeft | ToRight => Block.GetX b
  | ToBottom | ToTop => Block.GetY b
  end.

(** The state of a pass: the blocks, the queue, and the number of moves
    taken back because [CalculateOverlap] reported an overlap.  The count
    is not in the source; it records the conflicts of a run. *)
Definition PassState : Type := list Block.t * list nat * nat.

(** The body of [for (auto macro_id : macro_id_list)] for one source. *)
Definition candidate (d : Direction) (tH tV : Q) (s : Rect)
    (st : PassState) (id : nat) : PassState :=
  let '(bs, queue, conflicts) := st in
  let b := bs !!! id in
  if Block.GetAlignFlag b then st
  else if negb (proximity d tH tV s (cand_rect b)) then st
  else match target d tH tV s (cand_rect b) with
       | None => st
       | Some v =>
           let moved := <[id := set_coord d v b]> bs in
           if CalculateOverlap moved
           then (<[id := set_coord d (get_coord d b) (set_coord d v b)]> moved,
                 queue, S conflicts)
           else (<[id := Block.SetAlignFlag true (set_coord d v b)]> moved,
                 queue ++ [id], conflicts)
       end.

(** [while (!macro_queue.empty())]: every macro enters the queue at most
    once in a pass, so the loop takes at most as many turns as there are
    queued and unflagged macros; [fuel] counts the turns. *)
Fixpoint propagate (fuel : nat) (d : Direction) (tH tV : Q) (ids : list nat)
    (st : PassState) : PassState :=
  match fuel with
  | O => st
  | S fuel' =>
      match st with
      | (bs, [], conflicts) => st
      | (bs, src :: queue, conflicts) =>
          propagate fuel' d tH tV ids
            (foldl (candidate d tH tV (src_rect (bs !!! src)))
                   (bs, queue, conflicts) ids)
      end
  end.

Definition pass (d : Direction) (reset : bool) (ow oh tH tV : Q)
    (ids : list nat) (st : PassState) : PassState :=
  let '(bs, queue, conflicts) := st in
  let seeded := foldl (mark_seed d reset ow oh) (bs, queue) ids in
  propagate (length seeded.2 + length ids) d tH tV ids
            (seeded.1, seeded.2, conflicts).

(** The first stage of [AlignMacro]: the thresholds, then the loop that
    snaps macros to the outline. *)
Definition snap_stage (ow oh : Q) (bs : list Block.t) : list Block.t :=
  let th := thresholds ow oh bs in
  snap_to_boundary ow oh th.1 th.2 <$> bs.

Definition align_blocks (ow oh : Q) (bs : list Block.t) : PassState :=
  let th := thresholds ow oh bs in
  let snapped := snap_stage ow oh bs in
  let ids := macro_ids 0 snapped in
  let st1 := pass ToLeft false ow oh th.1 th.2 ids (snapped, [], O) in
  let st2 := pass ToRight true ow oh th.1 th.2 ids st1 in
  let st3 := pass ToBottom true ow oh th.1 th.2 ids st2 in
  pass ToTop true ow oh th.1 th.2 ids st3.

Definition AlignMacro (s : t) : t :=
  set_blocks
    (align_blocks (outline_width_ (config s)) (outline_height_ (config s))
                  (blocks_ s)).1.1
    s.

(** *** Cost terms *)

Definition with_wirelength (v : Q) (m : Metrics) : Metrics :=
  {| width_ := width_ m; height_ := height_ m; area_ := area_ m;
     wirelength_ := v;
     outline_penalty_ := outline_penalty_ m;
     boundary_penalty_ := boundary_penalty_ m;
     macro_blockage_penalty_ := macro_blockage_penalty_ m;
     location_penalty_ := location_penalty_ m;
     notch_penalty_ := notch_penalty_ m |}.

Definition with_outline_penalty (v : Q) (m : Metrics) : Metrics :=
  {| width_ := width_ m; height_ := height_ m; area_ := area_ m;
     wirelength_ := wirelength_ m;
     outline_penalty_ := v;
     boundary_penalty_ := boundary_penalty_ m;
     macro_blockage_penalty_ := macro_blockage_penalty_ m;
     location_penalty_ := location_penalty_ m;
     notch_penalty_ := notch_penalty_ m |}.

Definition with_boundary_penalty (v : Q) (m : Metrics) : Metrics :=
  {| width_ := width_ m; height_ := height_ m; area_ := area_ m;
     wirelength_ := wirelength_ m;
     outline_penalty_ := outline_penalty_ m;
     boundary_penalty_ := v;
     macro_blockage_penalty_ := macro_blockage_penalty_ m;
     location_penalty_ := location_penalty_ m;
     notch_penalty_ := notch_penalty_ m |}.

Definition with_macro_blockage_penalty (v : Q) (m : Metrics) : Metrics :=
  {| width_ := width_ m; height_ := height_ m; area_ := area_ m;
     wirelength_ := wirelength_ m;
     outline_penalty_ := outline_penalty_ m;
     boundary_penalty_ := boundary_penalty_ m;
     macro_blockage_penalty_ := v;
     location_penalty_ := location_penalty_ m;
     notch_penalty_ := notch_penalty_ m |}.

Definition with_location_penalty (v : Q) (m : Metrics) : Metrics :=
  {| width_ := width_ m; height_ := height_ m; area_ := area_ m;
     wirelength_ := wirelength_ m;
     outline_penalty_ := outline_penalty_ m;
     boundary_penalty_ := boundary_penalty_ m;
     macro_blockage_penalty_ := macro_blockage_penalty_ m;
     location_penalty_ := v;
     notch_penalty_ := notch_penalty_ m |}.

Definition with_notch_penalty (v : Q) (m : Metrics) : Metrics :=
  {| width_ := width_ m; height_ := height_ m; area_ := area_ m;
     wirelength_ := wirelength_ m;
     outline_penalty_ := outline_penalty_ m;
     boundary_penalty_ := boundary_penalty_ m;
     macro_blockage_penalty_ := macro_blockage_penalty_ m;
     location_penalty_ := location_penalty_ m;
     notch_penalty_ := v |}.

Definition CalculateOutlinePenalty (s : t) : t :=
  let ow := outline_width_ (config s) in
  let oh := outline_height_ (config s) in
  let max_width := fmax ow (width_ (cur s)) in
  let max_height := fmax oh (height_ (cur s)) in
  set_cur (with_outline_penalty
             (fmax 0 (max_width * max_height - ow * oh)) (cur s)) s.

Definition region_overlap (r : Region) (b : Block.t) : Q :=
  let lx := Block.GetX b in
  let ly := Block.GetY b in
  let ux := lx + Block.GetWidth b in
  let uy := ly + Block.GetHeight b in
  if fleb ux (region_lx_ r) || fleb (region_ux_ r) lx
     || fleb uy (region_ly_ r) || fleb (region_uy_ r) ly
  then 0
  else (fmin ux (region_ux_ r) - fmax lx (region_lx_ r))
       * (fmin uy (region_uy_ r) - fmax ly (region_ly_ r)).

Definition CalculateMacroBlockagePenalty (s : t) : t :=
  let penalty :=
    foldl (fun acc r =>
             foldl (fun acc b =>
                      if is_macro b then acc + region_overlap r b else acc)
                   acc (blocks_ s))
          0 (regions_ (config s)) in
  set_cur (with_macro_blockage_penalty penalty (cur s)) s.

Global Instance Location_inhabited : Inhabited Location :=
  populate {| location_name_ := EmptyString; location_lx_ := 0;
              location_ly_ := 0; location_ux_ := 0; location_uy_ := 0 |}.

Definition location_distance (l : Location) (b : Block.t) : Q :=
  let location_x := (location_lx_ l + location_ux_ l) / 2 in
  let location_y := (location_ly_ l + location_uy_ l) / 2 in
  let location_width := location_ux_ l - location_lx_ l in
  let location_height := location_uy_ l - location_ly_ l in
  let block_width := Block.GetWidth b in
  let block_height := Block.GetHeight b in
  let block_x := Block.GetX b + block_width / 2 in
  let block_y := Block.GetY b + block_height / 2 in
  let x_dist := Qabs (block_x - location_x) in
  let y_dist := Qabs (block_y - location_y) in
  let width := (block_width + location_width) / 2 in
  let height := (block_height + location_height) / 2 in
  let x_dist := if fltb 0 (x_dist - width) then x_dist - width else 0 in
  let y_dist := if fltb 0 (y_dist - height) then y_dist - height else 0 in
  if fleb 0 x_dist && fleb 0 y_dist then fmin x_dist y_dist else 0.

Definition CalculateLocationPenalty (s : t) : t :=
  let penalty :=
    foldl (fun acc (e : nat * nat) =>
             acc + location_distance (locations_ (config s) !!! e.1)
                                     (blocks_ s !!! e.2))
          0 (location_map_ (config s)) in
  set_cur (with_location_penalty penalty (cur s)) s.

Definition CalculateBoundaryPenalty (s : t) : t :=
  let ow := outline_width_ (config s) in
  let oh := outline_height_ (config s) in
  let penalty :=
    foldl (fun acc b =>
             if is_macro b then
               let weight := inject_Z (Block.GetNumMacro b) in
               let lx := Block.GetX b in
               let ly := Block.GetY b in
               let ux := lx + Block.GetWidth b in
               let uy := ly + Block.GetHeight b in
               let lx := fmin lx (Qabs (ow - ux)) in
               let ly := fmin ly (Qabs (oh - uy)) in
               let lx := fmin lx ly in
               acc + lx * lx * weight * weight
             else acc)
          0 (blocks_ s) in
  set_cur (with_boundary_penalty penalty (cur s)) s.

Definition FLT_MAX : Q := inject_Z 340282346638528859811704183484516925440.

(** The bounding box of one net: the corners of its blocks, then its
    terminals.  [block_map_[name]] and [terminal_position_[name]] yield
    the default value (index 0, position (0, 0)) for an unknown name. *)
Definition net_box (s : t) (n : Net) : Rect :=
  let over_blocks :=
    foldl (fun (r : Rect) name =>
             let b := blocks_ s !!! default O (block_map_ (config s) !! name) in
             let temp_lx := Block.GetX b in
             let temp_ux := temp_lx + Block.GetWidth b in
             let temp_ly := Block.GetY b in
             let temp_uy := temp_ly + Block.GetHeight b in
             {| lx := fmin (lx r) temp_lx; ly := fmin (ly r) temp_ly;
                ux := fmax (ux r) temp_ux; uy := fmax (uy r) temp_uy |})
          {| lx := FLT_MAX; ly := FLT_MAX; ux := 0; uy := 0 |}
          (net_blocks_ n) in
  foldl (fun (r : Rect) name =>
           let p := default (0, 0) (terminal_position_ (config s) !! name) in
           {| lx := fmin (lx r) p.1; ly := fmin (ly r) p.2;
              ux := fmax (ux r) p.1; uy := fmax (uy r) p.2 |})
        over_blocks (net_terminals_ n).

Definition CalculateWirelength (s : t) : t :=
  let wirelength :=
    foldl (fun acc n =>
             let r := net_box s n in
             acc + (Qabs (ux r - lx r) + Qabs (uy r - ly r))
                   * inject_Z (net_weight_ n))
          0 (nets_ (config s)) in
  set_cur (with_wirelength wirelength (cur s)) s.

(** The second half of [CalculateNotchPenalty] rasterises the macros on
    the grid of their edges and adds up a term for every notch cell.  It
    only produces the value of [notch_penalty_]; the development is
    parametric in it. *)
Class NotchGrid : Type :=
  notch_scan : Q -> Q -> list Block.t -> Result Q.

Definition CalculateNotchPenalty `{MathLib} `{NotchGrid} (s : t) : Result t :=
  let ow := outline_width_ (config s) in
  let oh := outline_height_ (config s) in
  if fltb ow (width_ (cur s)) || fltb oh (height_ (cur s)) then
    let area := fmax (width_ (cur s)) ow * fmax (height_ (cur s)) oh in
    do q <- fdiv area (ow * oh);
    Ok (set_cur (with_notch_penalty (sqrtf q) (cur s)) s)
  else
    let s1 := AlignMacro s in
    do v <- notch_scan ow oh (blocks_ s1);
    Ok (set_cur (with_notch_penalty v (cur s1)) s1).

(** The six calls [CalculateWirelength(); CalculateOutlinePenalty();
    CalculateBoundaryPenalty(); CalculateMacroBlockagePenalty();
    CalculateLocationPenalty(); CalculateNotchPenalty();] that follow
    every packing. *)
Definition evaluate `{MathLib} `{NotchGrid} (s : t) : Result t :=
  CalculateNotchPenalty
    (CalculateLocationPenalty
       (CalculateMacroBlockagePenalty
          (CalculateBoundaryPenalty
             (CalculateOutlinePenalty (CalculateWirelength s))))).

(** [if (norm > 0.0) cost += weight * value / norm;] *)
Definition add_term (norm weight value cost : Q) : Result Q :=
  if fltb 0 norm then
    do q <- fdiv (weight * value) norm;
    Ok (cost + q)
  else Ok cost.

Definition NormCost (s : t)
    (area wirelength outline_penalty boundary_penalty
     macro_blockage_penalty location_penalty notch_penalty : Q) : Result Q :=
  let c := config s in
  let n := norm s in
  let cost := 0 in
  do q <- fdiv (alpha_ c * area) (norm_area_ n);
  let cost := cost + q in
  do cost <- add_term (norm_wirelength_ n) (beta_ c) wirelength cost;
  do cost <- add_term (norm_outline_penalty_ n) (gamma_ c) outline_penalty cost;
  do cost <- add_term (norm_boundary_penalty_ n) (boundary_weight_ c)
                      boundary_penalty cost;
  do cost <- add_term (norm_macro_blockage_penalty_ n)
                      (macro_blockage_weight_ c) macro_blockage_penalty cost;
  do cost <- add_term (norm_location_penalty_ n) (location_weight_ c)
                      (location_penalty_ (cur s)) cost;
  do cost <- add_term (norm_notch_penalty_ n) (notch_weight_ c)
                      (notch_penalty_ (cur s)) cost;
  Ok cost.

(** [NormCost(area_, wirelength_, ..., notch_penalty_)] *)
Definition current_cost (s : t) : Result Q :=
  let m := cur s in
  NormCost s (area_ m) (wirelength_ m) (outline_penalty_ m)
           (boundary_penalty_ m) (macro_blockage_penalty_ m)
           (location_penalty_ m) (notch_penalty_ m).

(** *** Initialize *)

Definition zero_norms : Norms :=
  {| norm_area_ := 0; norm_wirelength_ := 0; norm_outline_penalty_ := 0;
     norm_boundary_penalty_ := 0; norm_macro_blockage_penalty_ := 0;
     norm_location_penalty_ := 0; norm_notch_penalty_ := 0 |}.

(** [norm_area_ += area_; ...; norm_notch_penalty_ += notch_penalty_;] *)
Definition accumulate (n : Norms) (m : Metrics) : Norms :=
  {| norm_area_ := norm_area_ n + area_ m;
     norm_wirelength_ := norm_wirelength_ n + wirelength_ m;
     norm_outline_penalty_ := norm_outline_penalty_ n + outline_penalty_ m;
     norm_boundary_penalty_ := norm_boundary_penalty_ n + boundary_penalty_ m;
     norm_macro_blockage_penalty_ :=
       norm_macro_blockage_penalty_ n + macro_blockage_penalty_ m;
     norm_location_penalty_ := norm_location_penalty_ n + location_penalty_ m;
     norm_notch_penalty_ := norm_notch_penalty_ n + notch_penalty_ m |}.

(** The sampling loop.  The seven vectors [area_list], ...,
    [notch_penalty_list] grow together; they are kept as one list of
    records, one record per perturbation. *)
Fixpoint sampling `{MathLib} `{NotchGrid} (n : nat) (s : t)
    (samples : list Metrics) : Result (t * list Metrics) :=
  match n with
  | O => Ok (s, samples)
  | S n' =>
      do s1 <- Perturb s;
      do s2 <- evaluate s1;
      sampling n' (set_norm (accumulate (norm s2) (cur s2)) s2)
               (samples ++ [cur s2])
  end.

(** [norm_area_ = norm_area_ / perturb_per_step_; ...] *)
Definition average (n : Norms) (count : Q) : Result Norms :=
  do a <- fdiv (norm_area_ n) count;
  do w <- fdiv (norm_wirelength_ n) count;
  do o <- fdiv (norm_outline_penalty_ n) count;
  do b <- fdiv (norm_boundary_penalty_ n) count;
  do m <- fdiv (norm_macro_blockage_penalty_ n) count;
  do l <- fdiv (norm_location_penalty_ n) count;
  do t <- fdiv (norm_notch_penalty_ n) count;
  Ok {| norm_area_ := a; norm_wirelength_ := w; norm_outline_penalty_ := o;
        norm_boundary_penalty_ := b; norm_macro_blockage_penalty_ := m;
        norm_location_penalty_ := l; norm_notch_penalty_ := t |}.

Fixpoint costs_of (s : t) (samples : list Metrics) : Result (list Q) :=
  match samples with
  | [] => Ok []
  | m :: rest =>
      do c <- NormCost s (area_ m) (wirelength_ m) (outline_penalty_ m)
                       (boundary_penalty_ m) (macro_blockage_penalty_ m)
                       (location_penalty_ m) (notch_penalty_ m);
      do cs <- costs_of s rest;
      Ok (c :: cs)
  end.

(** [for (i = 1; i < cost_list.size(); i++)
      delta_cost += abs(cost_list[i] - cost_list[i - 1]);] *)
Fixpoint total_delta (cost_list : list Q) (delta_cost : Q) : Q :=
  match cost_list with
  | a :: (b :: _) as rest => total_delta rest (delta_cost + Qabs (b - a))
  | _ => delta_cost
  end.

(** [Initialize()], returning with the final object the two local
    vectors the properties below speak about: the samples and
    [cost_list]. *)
Definition Initialize_run `{MathLib} `{NotchGrid} (s : t)
  : Result (t * list Metrics * list Q) :=
  let count := perturb_per_step_ (config s) in
  do '(s1, samples) <- sampling (Z.to_nat count) (set_norm zero_norms s) [];
  do n <- average (norm s1) (inject_Z count);
  let s2 := set_norm n s1 in
  do cost_list <- costs_of s2 samples;
  let delta_cost := total_delta cost_list 0 in
  do mean_delta <- fdiv delta_cost (inject_Z (count - 1));
  do init_T <- fdiv (-1 * mean_delta) (logf (init_prob_ (config s)));
  Ok (set_init_T init_T s2, samples, cost_list).


(** *** FastSA *)

Definition IsFeasible (s : t) : bool :=
  let tolerance := 1 # 1000 in
  fleb (width_ (cur s)) (outline_width_ (config s) * (1 + tolerance))
  && fleb (height_ (cur s)) (outline_height_ (config s) * (1 + tolerance)).

Definition ShrinkBlocks (s : t) : t :=
  let f := shrink_factor_ (config s) in
  set_blocks
    ((fun b => if (Block.GetNumMacro b =? 0)%Z
               then Block.ShrinkSoftBlock f f b else b) <$> blocks_ s)
    s.

(** [int(x)]: truncation towards zero *)
Definition ftoi (q : Q) : Z := Z.quot (Qnum q) (Zpos (Qden q)).

(** [a % b] on [int] *)
Definition imod (a b : Z) : Result Z :=
  if (b =? 0)%Z then Err DivByZero else Ok (Z.rem a b).

(** The local variables of [FastSA] that live across iterations, with the
    object itself.  [outer_steps] and [inner_steps] are not in the source:
    they count the turns of the [while] loop and of the [for] loop. *)
Record Anneal : Type := {
  core : t;
  pre_cost : Q;
  best_cost : Q;
  step : Z;
  T : Q;
  num_restart : Z;
  num_shrink : Z;
  outer_steps : nat;
  inner_steps : nat
}.

Definition max_num_restart : Z := 2.

(** One turn of [for (int i = 0; i < perturb_per_step_; i++)]. *)
Definition inner_step `{MathLib} `{NotchGrid} (max_num_shrink modulo_base : Z)
    (a : Anneal) : Result Anneal :=
  do s1 <- Perturb (core a);
  do s2 <- evaluate s1;
  do cost <- current_cost s2;
  let delta_cost := cost - pre_cost a in
  do '(num, g) <- uniform (generator_ s2);
  let s3 := set_generator g s2 in
  do prob <- (if fltb 0 delta_cost
              then do q <- fdiv (-1 * delta_cost) (T a); Ok (expf q)
              else Ok 1);
  if fltb delta_cost 0 || fltb num prob then
    if fltb cost (best_cost a) then
      do shrink <-
         (if (num_shrink a <=? max_num_shrink)%Z then
            do r <- imod (step a) modulo_base;
            Ok ((r =? 0)%Z && negb (IsFeasible s3))
          else Ok false);
      if shrink then
        do s4 <- evaluate (PackFloorplan (ShrinkBlocks s3));
        do c <- current_cost s4;
        Ok {| core := s4; pre_cost := c; best_cost := c; step := step a;
              T := T a; num_restart := num_restart a;
              num_shrink := (num_shrink a + 1)%Z;
              outer_steps := outer_steps a;
              inner_steps := S (inner_steps a) |}
      else
        Ok {| core := s3; pre_cost := cost; best_cost := cost;
              step := step a; T := T a; num_restart := num_restart a;
              num_shrink := num_shrink a;
              outer_steps := outer_steps a;
              inner_steps := S (inner_steps a) |}
    else
      Ok {| core := s3; pre_cost := cost; best_cost := best_cost a;
            step := step a; T := T a; num_restart := num_restart a;
            num_shrink := num_shrink a;
            outer_steps := outer_steps a;
            inner_steps := S (inner_steps a) |}
  else
    do s4 <- Restore s3;
    Ok {| core := s4; pre_cost := pre_cost a; best_cost := best_cost a;
          step := step a; T := T a; num_restart := num_restart a;
          num_shrink := num_shrink a;
          outer_steps := outer_steps a;
          inner_steps := S (inner_steps a) |}.

Fixpoint repeat_inner `{MathLib} `{NotchGrid} (n : nat)
    (max_num_shrink modulo_base : Z) (a : Anneal) : Result Anneal :=
  match n with
  | O => Ok a
  | S n' =>
      do a1 <- inner_step max_num_shrink modulo_base a;
      repeat_inner n' max_num_shrink modulo_base a1
  end.

(** The end of a turn of the [while] loop:
    [step++; T = T * cooling_rate_; if (step == max_num_step_) ...]. *)
Definition end_of_step `{MathLib} `{NotchGrid} (a : Anneal) : Result Anneal :=
  let s := core a in
  let step1 := (step a + 1)%Z in
  let T1 := T a * cooling_rate_ (config s) in
  if (step1 =? max_num_step_ (config s))%Z then
    do s1 <- evaluate (PackFloorplan s);
    if negb (IsFeasible s1) && (num_restart a <? max_num_restart)%Z then
      Ok {| core := s1; pre_cost := pre_cost a; best_cost := best_cost a;
            step := 1; T := init_T_ s1;
            num_restart := (num_restart a + 1)%Z;
            num_shrink := num_shrink a;
            outer_steps := S (outer_steps a);
            inner_steps := inner_steps a |}
    else
      Ok {| core := s1; pre_cost := pre_cost a; best_cost := best_cost a;
            step := step1; T := T1; num_restart := num_restart a;
            num_shrink := num_shrink a;
            outer_steps := S (outer_steps a);
            inner_steps := inner_steps a |}
  else
    Ok {| core := s; pre_cost := pre_cost a; best_cost := best_cost a;
          step := step1; T := T1; num_restart := num_restart a;
          num_shrink := num_shrink a;
          outer_steps := S (outer_steps a);
          inner_steps := inner_steps a |}.

(** [while (step < max_num_step_)].  The loop ends after at most three
    schedules; [fuel] bounds its turns. *)
Fixpoint anneal `{MathLib} `{NotchGrid} (fuel : nat)
    (max_num_shrink modulo_base : Z) (a : Anneal) : Result Anneal :=
  match fuel with
  | O => Ok a
  | S fuel' =>
      if (step a <? max_num_step_ (config (core a)))%Z then
        do a1 <- repeat_inner
                   (Z.to_nat (perturb_per_step_ (config (core a))))
                   max_num_shrink modulo_base a;
        do a2 <- end_of_step a1;
        anneal fuel' max_num_shrink modulo_base a2
      else Ok a
  end.

(** [FastSA()], returning the loop variables with the final object. *)
Definition FastSA_run `{MathLib} `{NotchGrid} (s : t) : Result Anneal :=
  let c := config s in
  do cost0 <- current_cost s;
  do inv_freq <- fdiv 1 (shrink_freq_ c);
  let max_num_shrink := ftoi inv_freq in
  let modulo_base := ftoi (inject_Z (max_num_step_ c) * shrink_freq_ c) in
  do a <- anneal (3 * Z.to_nat (max_num_step_ c))
                 max_num_shrink modulo_base
                 {| core := s; pre_cost := cost0; best_cost := cost0;
                    step := 1; T := init_T_ s; num_restart := 0;
                    num_shrink := 0; outer_steps := O; inner_steps := O |};
  do s' <- evaluate (core a);
  Ok {| core := s'; pre_cost := pre_cost a; best_cost := best_cost a;
        step := step a; T := T a; num_restart := num_restart a;
        num_shrink := num_shrink a; outer_steps := outer_steps a;
        inner_steps := inner_steps a |}.

Definition FastSA `{MathLib} `{NotchGrid} (s : t) : Result t :=
  do a <- FastSA_run s;
  Ok (core a).

End SimulatedAnnealingCore.

(** * Specification *)

(** ** Shapes of blocks *)



(** ** Sequence pairs *)

Import SimulatedAnnealingCore.

Definition is_permutation (n : nat) (l : list nat) : Prop := l ≡ₚ seq 0 n.

(** Both sequences are permutations of the block indices. *)
Definition seqs_ok (s : SimulatedAnnealingCore.t) : Prop :=
  is_permutation (length (blocks_ s)) (pos_seq_ s)
  /\ is_permutation (length (blocks_ s)) (neg_seq_ s).

(** Exchanging the block identities [a] and [b]. *)
Definition transpose (a b v : nat) : nat :=
  if (v =? a)%nat then b else if (v =? b)%nat then a else v.


(** ** Cost normalisation *)

(** The seven terms of the cost. *)
Inductive Term : Set :=
| Area | Wirelength | OutlinePenalty | BoundaryPenalty
| MacroBlockagePenalty | LocationPenalty | NotchPenalty.

Definition value_of (t : Term) (m : Metrics) : Q :=
  match t with
  | Area => area_ m
  | Wirelength => wirelength_ m
  | OutlinePenalty => outline_penalty_ m
  | BoundaryPenalty => boundary_penalty_ m
  | MacroBlockagePenalty => macro_blockage_penalty_ m
  | LocationPenalty => location_penalty_ m
  | NotchPenalty => notch_penalty_ m
  end.

Definition norm_of (t : Term) (n : Norms) : Q :=
  match t with
  | Area => norm_area_ n
  | Wirelength => norm_wirelength_ n
  | OutlinePenalty => norm_outline_penalty_ n
  | BoundaryPenalty => norm_boundary_penalty_ n
  | MacroBlockagePenalty => norm_macro_blockage_penalty_ n
  | LocationPenalty => norm_location_penalty_ n
  | NotchPenalty => norm_notch_penalty_ n
  end.


Definition Qsum (l : list Q) : Q := foldr Qplus 0 l.






(** ** The annealing schedule *)



(** ** The snapshot of the last perturbation *)

(** The members [Perturb] saves for [Restore], and the move it records. *)
Definition same_snapshot (s s' : SimulatedAnnealingCore.t) : Prop :=
  pre s' = pre s /\ pre_pos_seq_ s' = pre_pos_seq_ s
  /\ pre_neg_seq_ s' = pre_neg_seq_ s /\ pre_blocks_ s' = pre_blocks_ s
  /\ action_id_ s' = action_id_ s.

(** ** Packing *)


Definition nondecreasing (l : list Q) : Prop :=
  forall i j x y, (i <= j)%nat -> l !! i = Some x -> l !! j = Some y -> x <= y.

(** [a] stands before [a'] in the list. *)
Definition before (l : list nat) (a a' : nat) : Prop :=
  exists i j, (i < j)%nat /\ l !! i = Some a /\ l !! j = Some a'.

(** The two laws of an axis the sweep relies on. *)
Definition axis_ok (ax : Axis) : Prop :=
  forall v b, coord ax (place ax v b) = v
              /\ extent ax (place ax v b) = extent ax b.

(** The invariant of a sweep after the blocks [done] have been placed;
    [q] gives the position of a block in the negative sequence and [ext]
    the extent of a block. *)
Definition sweep_inv (ax : Axis) (q : nat -> nat) (ext : nat -> Q) (n : nat)
    (done : list nat) (st : list Block.t * list Q) : Prop :=
  length st.1 = n /\ length st.2 = n
  /\ nondecreasing st.2
  /\ (forall i, extent ax (st.1 !!! i) = ext i)
  /\ (forall a j, a ∈ done -> (q a <= j < n)%nat ->
        coord ax (st.1 !!! a) + ext a <= st.2 !!! j)
  /\ (forall a a', before done a a' -> (q a < q a')%nat ->
        coord ax (st.1 !!! a) + ext a <= coord ax (st.1 !!! a')).

(** ** Alignment *)

(** The macro lies inside the outline. *)
Definition inside_outline (ow oh : Q) (b : Block.t) : Prop :=
  0 <= Block.GetX b /\ Block.GetX b + Block.GetWidth b <= ow
  /\ 0 <= Block.GetY b /\ Block.GetY b + Block.GetHeight b <= oh.

(** The coordinate a macro at [x] with extent [w] is snapped to, for the
    outline extent [o] and the threshold [t]. *)
Definition snapped_coord (o t x w : Q) : Q :=
  if fltb x t then 0
  else if fltb (x + w) o && fltb (o - (x + w)) t then o - w else x.

(** Two intervals given by start and extent do not meet in an interval of
    positive length. *)
Definition disjoint (x1 w1 x2 w2 : Q) : Prop :=
  fmin (x1 + w1) (x2 + w2) - fmax x1 x2 <= 0.

(** What [CalculateOverlap] reads of a block. *)
Definition geometry (b : Block.t) : bool * (Q * Q * Q * Q) :=
  (is_macro b,
   (Block.GetX b, Block.GetY b, Block.GetWidth b, Block.GetHeight b)).

(** The macros of the list that are in the list [ids] and not flagged. *)
Definition unflagged (ids : list nat) (bs : list Block.t) : nat :=
  length (List.filter (fun id => negb (Block.GetAlignFlag (bs !!! id))) ids).

(** ** Example data *)

(** A coarse rational stand-in for [sqrtf], [expf] and [logf], to run the
    engine on examples; no property below depends on its values. *)
Definition rational_math : MathLib :=
  {| sqrtf q := Z.sqrt (Qnum q * Zpos (Qden q)) # Qden q;
     expf q := if fltb q 0 then 1 / (1 - q) else 1 + q;
     logf q := q - 1 |}.

(** A grid scan that finds no notch. *)
Definition no_notch : NotchGrid := fun _ _ _ => Ok 0.

(** A hard macro with the given options, of size [w] by [h] at [(x, y)];
    the limits are those the constructor derives from the options. *)
Definition macro (options : list (Q * Q)) (w h x y : Q) : Block.t :=
  Block.Build EmptyString (w * h) 1 false options
              ((fun p => (p.1, p.1)) <$> options)
              ((fun p => (p.2, p.2)) <$> options)
              w h x y false.

(** A soft block of area 16 whose width and height both range from 2 to
    8; width limits are stored from the widest, height limits from the
    lowest. *)
Definition soft_block : Block.t :=
  Block.Build EmptyString 16 0 true [(1 # 4, 4)] [(8, 2)] [(2, 8)]
              4 4 0 0 false.

Definition zero_metrics : Metrics :=
  {| width_ := 0; height_ := 0; area_ := 0; wirelength_ := 0;
     outline_penalty_ := 0; boundary_penalty_ := 0;
     macro_blockage_penalty_ := 0; location_penalty_ := 0;
     notch_penalty_ := 0 |}.

(** Only the area term is normalised. *)
Definition area_only : Norms :=
  {| norm_area_ := 1; norm_wirelength_ := 0; norm_outline_penalty_ := 0;
     norm_boundary_penalty_ := 0; norm_macro_blockage_penalty_ := 0;
     norm_location_penalty_ := 0; norm_notch_penalty_ := 0 |}.

(** A configuration without nets, regions and locations; of ten moves two
    are resizes, two positive swaps, two negative swaps and four double
    swaps. *)
Definition example_config (ow oh : Q) (steps per_step : Z) : Config :=
  {| outline_width_ := ow; outline_height_ := oh; cooling_rate_ := 9 # 10;
     alpha_ := 1; beta_ := 1; gamma_ := 1; boundary_weight_ := 1;
     macro_blockage_weight_ := 1; location_weight_ := 1; notch_weight_ := 1;
     resize_prob_ := 2 # 10; pos_swap_prob_ := 4 # 10;
     neg_swap_prob_ := 6 # 10; double_swap_prob_ := 1;
     init_prob_ := 95 # 100; max_num_step_ := steps;
     perturb_per_step_ := per_step; shrink_factor_ := 8 # 10;
     shrink_freq_ := 1 # 2; nets_ := []; regions_ := []; locations_ := [];
     terminal_position_ := ∅; block_map_ := ∅; location_map_ := [] |}.

Definition example_core (c : Config) (bs : list Block.t)
    (pos neg : list nat) (n : Norms) (g : Tape) : SimulatedAnnealingCore.t :=
  Build c bs bs pos neg pos neg zero_metrics zero_metrics n 1 (-1) 0 g.

(** Three macros; the second has two options. *)
Definition three_macros : list Block.t :=
  [macro [(2, 1)] 2 1 0 0; macro [(3, 3); (2, 2)] 3 3 0 0;
   macro [(1, 2)] 1 2 0 0].

Definition three_core (steps per_step : Z) (g : Tape)
  : SimulatedAnnealingCore.t :=
  example_core (example_config 10 10 steps per_step) three_macros
               [1; 0; 2]%nat [0; 1; 2]%nat area_only g.

(** Two macros with one option each: no block is resizable. *)
Definition fixed_core (g : Tape) : SimulatedAnnealingCore.t :=
  example_core (example_config 10 10 3 1)
               [macro [(2, 1)] 2 1 0 0; macro [(3, 3)] 3 3 0 0]
               [0; 1]%nat [0; 1]%nat area_only g.

(** Two macros, the second with two options, packed side by side; the
    tape selects a positive swap of the two blocks and then a resize of
    the second block to its second option. *)
Definition two_core : SimulatedAnnealingCore.t :=
  PackFloorplan
    (example_core (example_config 10 10 3 1)
                  [macro [(2, 1)] 2 1 0 0; macro [(3, 3); (2, 2)] 3 3 0 0]
                  [0; 1]%nat [0; 1]%nat area_only
                  [3 # 10; 0; 1 # 2; 1 # 10; 1 # 2; 1 # 2]).


(** Three macros of width 4 in a row, in an outline of width 17/2: the
    third crosses the outline. *)
Definition row_core : SimulatedAnnealingCore.t :=
  PackFloorplan
    (example_core (example_config (17 # 2) 10 3 1)
                  [macro [(4, 4)] 4 4 0 0; macro [(4, 4)] 4 4 0 0;
                   macro [(4, 4)] 4 4 0 0]
                  [0; 1; 2]%nat [0; 1; 2]%nat area_only []).

(** Three macros inside an outline of 100 by 100, none overlapping. *)
Definition staggered_core : SimulatedAnnealingCore.t :=
  example_core (example_config 100 100 3 1)
               [macro [(20, 40)] 20 40 0 50; macro [(20, 20)] 20 20 25 0;
                macro [(20, 35)] 20 35 25 27]
               [0; 1; 2]%nat [0; 1; 2]%nat area_only [].



(** ** Further notions *)

(** Every entry of [length] is zero or the far edge of a placed block. *)
Definition reached (ax : Axis) (done : list nat)
    (st : list Block.t * list Q) : Prop :=
  forall v, v ∈ st.2 ->
    v = 0 \/ exists a, a ∈ done
                       /\ v = coord ax (st.1 !!! a) + extent ax (st.1 !!! a).

(** The block moved to the origin: what is left of a block when its
    position is forgotten. *)
Definition at_origin (b : Block.t) : Block.t :=
  Block.SetY 0 (Block.SetX 0 b).

(** [b'] is [b] with another width and height. *)
Definition reshaped (b b' : Block.t) : Prop :=
  b' = Block.set_shape (Block.width_ b') (Block.height_ b') b.

(** The intervals of [width_limit_] are stored from the widest to the
    narrowest, each as (high, low); those of [height_limit_] from the
    lowest to the highest, each as (low, high). *)
Definition descending (l : list (Q * Q)) : Prop :=
  (forall p, p ∈ l -> p.2 <= p.1)
  /\ forall i j p q, (i < j)%nat -> l !! i = Some p -> l !! j = Some q ->
                     q.1 <= p.2.

Definition ascending (l : list (Q * Q)) : Prop :=
  (forall p, p ∈ l -> p.1 <= p.2)
  /\ forall i j p q, (i < j)%nat -> l !! i = Some p -> l !! j = Some q ->
                     p.2 <= q.1.

(** A core without blocks. *)
Definition empty_core (g : Tape) : SimulatedAnnealingCore.t :=
  example_core (example_config 10 10 3 1) [] [] [] area_only g.

(** * Proofs *)

(** ** Floats and outcomes *)

Global Arguments Qplus : simpl never.
Global Arguments Qminus : simpl never.
Global Arguments Qmult : simpl never.
Global Arguments Qdiv : simpl never.
Global Arguments Qopp : simpl never.
Global Arguments Qinv : simpl never.
Global Arguments Qabs : simpl never.
Global Arguments Qle_bool : simpl never.
Global Arguments Qeq_bool : simpl never.
Global Arguments inject_Z : simpl never.
Global Arguments Qfloor : simpl never.

Lemma fltb_lt (a b : Q) : fltb a b = true <-> a < b.
Proof.
  unfold fltb. rewrite negb_true_iff, <- not_true_iff_false, Qle_bool_iff.
  split; [apply Qnot_le_lt | apply Qlt_not_le].
Qed.

Lemma fltb_ge (a b : Q) : fltb a b = false <-> b <= a.
Proof.
  unfold fltb. rewrite negb_false_iff. apply Qle_bool_iff.
Qed.

Lemma fleb_le (a b : Q) : fleb a b = true <-> a <= b.
Proof. apply Qle_bool_iff. Qed.

Lemma fleb_gt (a b : Q) : fleb a b = false <-> b < a.
Proof.
  unfold fleb. rewrite <- not_true_iff_false, Qle_bool_iff.
  split; [apply Qnot_le_lt | apply Qlt_not_le].
Qed.

Lemma feqb_eq (a b : Q) : feqb a b = true <-> a == b.
Proof. apply Qeq_bool_iff. Qed.

Lemma feqb_neq (a b : Q) : feqb a b = false <-> ~ a == b.
Proof.
  unfold feqb. rewrite <- not_true_iff_false, Qeq_bool_iff. tauto.
Qed.

(** Case analysis on a float comparison, leaving the order fact. *)
Ltac fcase_on c :=
  lazymatch c with
  | fltb ?a ?b =>
      let E := fresh "E" in
      destruct (fltb a b) eqn:E;
      [apply fltb_lt in E | apply fltb_ge in E]
  | fleb ?a ?b =>
      let E := fresh "E" in
      destruct (fleb a b) eqn:E;
      [apply fleb_le in E | apply fleb_gt in E]
  | feqb ?a ?b =>
      let E := fresh "E" in
      destruct (feqb a b) eqn:E;
      [apply feqb_eq in E | apply feqb_neq in E]
  end.

Ltac fcase :=
  match goal with
  | |- context [fltb ?a ?b] => fcase_on (fltb a b)
  | |- context [fleb ?a ?b] => fcase_on (fleb a b)
  | |- context [feqb ?a ?b] => fcase_on (feqb a b)
  | H : context [fltb ?a ?b] |- _ => fcase_on (fltb a b)
  | H : context [fleb ?a ?b] |- _ => fcase_on (fleb a b)
  | H : context [feqb ?a ?b] |- _ => fcase_on (feqb a b)
  end.

(** Inversion of a successful [bind]. *)
Lemma bind_Ok {A B : Type} (r : Result A) (k : A -> Result B) (b : B) :
  bind r k = Ok b -> exists a, r = Ok a /\ k a = Ok b.
Proof. destruct r; simpl; [eauto | discriminate]. Qed.

Tactic Notation "bind_inv" hyp(H) "as" simple_intropattern(p) ident(Hp) :=
  apply bind_Ok in H; destruct H as (p & Hp & H).

Ltac ok_inv H := injection H as H; subst.

Lemma fdiv_Ok (a b q : Q) : fdiv a b = Ok q -> ~ b == 0 /\ q = a / b.
Proof.
  unfold fdiv. fcase; [discriminate | ]. intros [= <-]. auto.
Qed.

Lemma at_Ok {A : Type} (v : list A) (i : Z) (a : A) :
  at_ v i = Ok a -> (0 <= i)%Z /\ v !! Z.to_nat i = Some a.
Proof.
  unfold at_. destruct (Z.ltb_spec i 0); [discriminate | ].
  destruct (v !! Z.to_nat i); [ | discriminate]. intros [= ->]. auto.
Qed.

Lemma put_Ok {A : Type} (v v' : list A) (i : Z) (a : A) :
  put_ v i a = Ok v' ->
  (0 <= i)%Z /\ (Z.to_nat i < length v)%nat /\ v' = <[Z.to_nat i := a]> v.
Proof.
  unfold put_. destruct (Z.ltb_spec i 0); [discriminate | ].
  destruct (Nat.ltb_spec (Z.to_nat i) (length v)); [ | discriminate].
  intros [= <-]. auto.
Qed.

(** ** Resizing a block *)

Lemma width_then_height_Ok (w : Q) (b b' : Block.t) :
  Block.width_then_height w b = Ok b' ->
  b' = Block.set_shape w (Block.area_ b / w) b /\ ~ w == 0.
Proof.
  unfold Block.width_then_height. intros H. bind_inv H as q Hq.
  apply fdiv_Ok in Hq as [Hw ->]. ok_inv H. auto.
Qed.

Lemma height_then_width_Ok (h : Q) (b b' : Block.t) :
  Block.height_then_width h b = Ok b' ->
  b' = Block.set_shape (Block.area_ b / h) h b /\ ~ h == 0.
Proof.
  unfold Block.height_then_width. intros H. bind_inv H as q Hq.
  apply fdiv_Ok in Hq as [Hw ->]. ok_inv H. auto.
Qed.









(** ** Perturbations keep the sequence pair a pair of permutations *)

(** Runs through a successful monadic computation in hypothesis [H]. *)
Ltac chew H :=
  simpl in H;
  lazymatch type of H with
  | Err _ = Ok _ => discriminate H
  | bind ?e _ = Ok _ =>
      let x := fresh "x" in
      let Hx := fresh "Hx" in
      apply bind_Ok in H; destruct H as (x & Hx & H); chew Hx; chew H
  | (if ?c then _ else _) = Ok _ => destruct c eqn:?; chew H
  | match ?e with _ => _ end = Ok _ => destruct e eqn:?; chew H
  | Ok _ = Ok ?y => is_var y; injection H as H; subst y
  | _ => idtac
  end.

Lemma swap_Ok {A : Type} (v v' : list A) (i j : Z) :
  swap_ v i j = Ok v' ->
  exists a b, v !! Z.to_nat i = Some a /\ v !! Z.to_nat j = Some b
              /\ (0 <= i)%Z /\ (0 <= j)%Z
              /\ v' = <[Z.to_nat j := a]> (<[Z.to_nat i := b]> v).
Proof.
  unfold swap_. intros H.
  bind_inv H as a Ha. bind_inv H as b Hb. bind_inv H as v1 Hv1.
  apply at_Ok in Ha as [? Ha]. apply at_Ok in Hb as [? Hb].
  apply put_Ok in Hv1 as (_ & _ & ->). apply put_Ok in H as (_ & _ & ->).
  exists a, b. auto.
Qed.

Lemma transpose_involutive (a b v : nat) : transpose a b (transpose a b v) = v.
Proof.
  unfold transpose.
  destruct (Nat.eqb_spec v a), (Nat.eqb_spec v b);
    repeat match goal with
           | |- context [(?x =? ?y)%nat] => destruct (Nat.eqb_spec x y)
           end; congruence.
Qed.

Global Instance transpose_inj (a b : nat) : Inj (=) (=) (transpose a b).
Proof.
  intros x y H. rewrite <- (transpose_involutive a b x), H.
  apply transpose_involutive.
Qed.




Lemma is_permutation_NoDup (n : nat) (l : list nat) :
  is_permutation n l -> NoDup l.
Proof. intros H. rewrite H. apply NoDup_seq. Qed.

Lemma is_permutation_elem (n : nat) (l : list nat) (x : nat) :
  is_permutation n l -> x ∈ l <-> (x < n)%nat.
Proof. intros H. rewrite H, elem_of_seq. lia. Qed.

Lemma is_permutation_length (n : nat) (l : list nat) :
  is_permutation n l -> length l = n.
Proof. intros H. rewrite H. apply length_seq. Qed.


Lemma redraw_distinct_Ok (size : nat) (index1 index2 i : Z) (g g' : Tape) :
  redraw_distinct size index1 index2 g = Ok (i, g') -> index1 <> i.
Proof.
  revert index2. induction g as [ | r g IH]; intros index2; simpl;
    destruct (Z.eqb_spec index1 index2); try discriminate;
    try (intros [= <- <-]; assumption).
  apply IH.
Qed.

Lemma two_indices_Ok (size : nat) (g g' : Tape) (index1 index2 : Z) :
  two_indices size g = Ok (index1, index2, g') -> index1 <> index2.
Proof.
  unfold two_indices. intros H.
  bind_inv H as [i1 g1] H1. bind_inv H as [i2 g2] H2.
  bind_inv H as [i3 g3] H3. ok_inv H.
  eapply redraw_distinct_Ok; eauto.
Qed.






Lemma place_block_length (ax : Axis) (mt : list (nat * nat))
    (order : list nat) (st : list Block.t * list Q) :
  length (foldl (place_block ax mt) st order).1 = length st.1.
Proof.
  revert st. induction order as [ | b order IH]; intros st; simpl.
  - reflexivity.
  - rewrite IH. simpl. apply length_alter.
Qed.

Lemma sweep_length (ax : Axis) (mt : list (nat * nat)) (order : list nat)
    (bs : list Block.t) :
  length (sweep ax mt order bs).1 = length bs.
Proof. unfold sweep. apply place_block_length. Qed.

Lemma PackFloorplan_length (s : SimulatedAnnealingCore.t) :
  length (blocks_ (PackFloorplan s)) = length (blocks_ s).
Proof.
  unfold PackFloorplan. cbn. rewrite !sweep_length. apply length_fmap.
Qed.


(** [Resize] writes one block and leaves both sequences alone. *)
Lemma Resize_frame `{M : MathLib} (s s' : SimulatedAnnealingCore.t) :
  Resize s = Ok s' ->
  pos_seq_ s' = pos_seq_ s /\ neg_seq_ s' = neg_seq_ s
  /\ length (blocks_ s') = length (blocks_ s).
Proof.
  intros H. unfold Resize, stretch_out, stretch_in in H. chew H; cbn;
    repeat match goal with
           | Hp : put_ _ _ _ = Ok _ |- _ => apply put_Ok in Hp as (_ & _ & ->)
           end;
    rewrite ?length_insert; auto.
Qed.




(** ** The combined cost *)




(** ** What the moves and the evaluation leave alone *)

Lemma SingleSwap_frame (flag : bool) (s s' : SimulatedAnnealingCore.t) :
  SingleSwap flag s = Ok s' ->
  config s' = config s /\ norm s' = norm s /\ blocks_ s' = blocks_ s
  /\ cur s' = cur s.
Proof.
  intros H. unfold SingleSwap in H. chew H; auto.
Qed.

Lemma DoubleSwap_frame (s s' : SimulatedAnnealingCore.t) :
  DoubleSwap s = Ok s' ->
  config s' = config s /\ norm s' = norm s /\ blocks_ s' = blocks_ s
  /\ cur s' = cur s.
Proof.
  intros H. unfold DoubleSwap in H. chew H; auto.
Qed.

Lemma Resize_config `{M : MathLib} (s s' : SimulatedAnnealingCore.t) :
  Resize s = Ok s' -> config s' = config s /\ norm s' = norm s.
Proof.
  intros H. unfold Resize, stretch_out, stretch_in in H.
  chew H; auto.
Qed.

Lemma PackFloorplan_config (s : SimulatedAnnealingCore.t) :
  config (PackFloorplan s) = config s /\ norm (PackFloorplan s) = norm s.
Proof. auto. Qed.

Lemma Perturb_config `{M : MathLib} (s s' : SimulatedAnnealingCore.t) :
  Perturb s = Ok s' -> config s' = config s /\ norm s' = norm s.
Proof.
  intros H. unfold Perturb in H.
  destruct (length (blocks_ s) =? 1)%nat; [ok_inv H; auto | ].
  bind_inv H as [op g] Hop. bind_inv H as s2 Hs2. ok_inv H.
  cbn [config norm PackFloorplan set_cur set_blocks].
  destruct (fleb op _); [apply Resize_config in Hs2; exact Hs2 | ].
  destruct (fleb op _);
    [apply SingleSwap_frame in Hs2 as (? & ? & _); auto | ].
  destruct (fleb op _);
    [apply SingleSwap_frame in Hs2 as (? & ? & _); auto | ].
  apply DoubleSwap_frame in Hs2 as (? & ? & _); auto.
Qed.

Lemma evaluate_config `{M : MathLib} `{N : NotchGrid}
    (s s' : SimulatedAnnealingCore.t) :
  evaluate s = Ok s' -> config s' = config s /\ norm s' = norm s.
Proof.
  intros H. unfold evaluate, CalculateNotchPenalty in H.
  chew H; auto.
Qed.

(** ** Signs of the penalties *)

Lemma foldl_nonneg {A : Type} (f : Q -> A -> Q) (l : list A) (acc : Q) :
  (forall a x, 0 <= a -> 0 <= f a x) -> 0 <= acc -> 0 <= foldl f acc l.
Proof.
  intros Hf. revert acc. induction l as [ | x l IH]; intros acc Hacc; simpl.
  - exact Hacc.
  - apply IH, Hf, Hacc.
Qed.

Lemma fmax_ge_l (a b : Q) : a <= fmax a b.
Proof. unfold fmax. fcase; lra. Qed.

Lemma fmax_ge_r (a b : Q) : b <= fmax a b.
Proof. unfold fmax. fcase; lra. Qed.

Lemma fmin_le_l (a b : Q) : fmin a b <= a.
Proof. unfold fmin. fcase; lra. Qed.

Lemma fmin_le_r (a b : Q) : fmin a b <= b.
Proof. unfold fmin. fcase; lra. Qed.

Lemma location_distance_nonneg (l : Location) (b : Block.t) :
  0 <= location_distance l b.
Proof.
  unfold location_distance. cbv zeta.
  match goal with
  | |- 0 <= (if fleb 0 ?x && fleb 0 ?y then fmin ?x ?y else 0) =>
      generalize x, y
  end.
  intros x y. destruct (fleb 0 x) eqn:E1; [ | cbn [andb]; lra].
  destruct (fleb 0 y) eqn:E2; [ | cbn [andb]; lra].
  apply fleb_le in E1, E2. cbn [andb]. unfold fmin.
  destruct (fltb y x); assumption.
Qed.

Lemma square_weight_nonneg (d w : Q) : 0 <= d * d * w * w.
Proof.
  assert (d * d * w * w == (d * w) * (d * w)) as -> by ring.
  nra.
Qed.

(** The outline, boundary and location penalties that [evaluate] stores
    are never negative. *)
Lemma evaluate_nonneg `{M : MathLib} `{N : NotchGrid}
    (s s' : SimulatedAnnealingCore.t) :
  evaluate s = Ok s' ->
  0 <= outline_penalty_ (cur s') /\ 0 <= boundary_penalty_ (cur s')
  /\ 0 <= location_penalty_ (cur s').
Proof.
  intros H. unfold evaluate, CalculateNotchPenalty in H.
  chew H; cbn; (split; [apply fmax_ge_l | split]).
  all: apply foldl_nonneg; [ | lra]; intros acc e Hacc;
         try destruct (is_macro e); try assumption.
  all: match goal with
       | |- 0 <= _ + ?d * ?d * ?w * ?w =>
           pose proof (square_weight_nonneg d w); lra
       | |- 0 <= _ + location_distance ?l ?b =>
           pose proof (location_distance_nonneg l b); lra
       end.
Qed.

(** ** The sampling pass *)

Lemma Qsum_app (l k : list Q) : Qsum (l ++ k) == Qsum l + Qsum k.
Proof.
  unfold Qsum. induction l as [ | x l IH]; simpl; [lra | ].
  rewrite IH. lra.
Qed.




Lemma accumulate_norm_of (t : Term) (n : Norms) (m : Metrics) :
  norm_of t (accumulate n m) = norm_of t n + value_of t m.
Proof. destruct t; reflexivity. Qed.

Lemma sampling_spec `{M : MathLib} `{N : NotchGrid} (n : nat)
    (s s1 : SimulatedAnnealingCore.t) (acc samples : list Metrics) :
  sampling n s acc = Ok (s1, samples) ->
  exists new,
    samples = acc ++ new /\ length new = n /\ config s1 = config s
    /\ (forall t, norm_of t (norm s1)
                  == norm_of t (norm s) + Qsum (value_of t <$> new))
    /\ (forall m, m ∈ new ->
          0 <= outline_penalty_ m /\ 0 <= boundary_penalty_ m
          /\ 0 <= location_penalty_ m)
    /\ last (cur s :: new) = Some (cur s1).
Proof.
  revert s acc. induction n as [ | n IH]; intros s acc H; simpl in H.
  - ok_inv H. exists []. rewrite app_nil_r.
    repeat split; auto; try (intros; simpl; unfold Qsum; simpl; lra);
      match goal with Hm : _ ∈ [] |- _ => inversion Hm end.
  - bind_inv H as p Hp. bind_inv H as e He.
    apply IH in H as (new & -> & Hlen & Hc & Hn & Hs & Hl).
    apply Perturb_config in Hp as [Hpc Hpn].
    pose proof (evaluate_nonneg _ _ He) as Hsign.
    apply evaluate_config in He as [Hec Hen].
    exists (cur e :: new). rewrite <- app_assoc.
    split; [reflexivity | ]. split; [simpl; congruence | ].
    split; [simpl in Hc; congruence | ]. split; [ | split].
    + intros t. rewrite Hn. cbn [norm set_norm].
      rewrite accumulate_norm_of, Hen, Hpn.
      change (Qsum (value_of t <$> cur e :: new))
        with (value_of t (cur e) + Qsum (value_of t <$> new)).
      lra.
    + intros m Hm. apply elem_of_cons in Hm as [-> | Hm]; auto.
    + exact Hl.
Qed.

Lemma average_Ok (n n' : Norms) (count : Q) :
  average n count = Ok n' ->
  ~ count == 0 /\ forall t, norm_of t n' = norm_of t n / count.
Proof.
  unfold average. intros H.
  bind_inv H as a Ha. bind_inv H as w Hw. bind_inv H as o Ho.
  bind_inv H as b Hb. bind_inv H as m Hm. bind_inv H as l Hl.
  bind_inv H as t Ht. ok_inv H.
  apply fdiv_Ok in Ha as [H0 ->]. apply fdiv_Ok in Hw as [_ ->].
  apply fdiv_Ok in Ho as [_ ->]. apply fdiv_Ok in Hb as [_ ->].
  apply fdiv_Ok in Hm as [_ ->]. apply fdiv_Ok in Hl as [_ ->].
  apply fdiv_Ok in Ht as [_ ->].
  split; [exact H0 | ]. intros []; reflexivity.
Qed.

Lemma costs_of_set_init_T (v : Q) (s : SimulatedAnnealingCore.t)
    (l : list Metrics) :
  costs_of (set_init_T v s) l = costs_of s l.
Proof.
  induction l as [ | m l IH]; [reflexivity | ].
  cbn [costs_of]. rewrite IH. reflexivity.
Qed.

(** What [Initialize] leaves in the object. *)
Lemma Initialize_run_spec `{M : MathLib} `{N : NotchGrid}
    (s s' : SimulatedAnnealingCore.t) (samples : list Metrics)
    (cost_list : list Q) :
  Initialize_run s = Ok (s', samples, cost_list) ->
  length samples = Z.to_nat (perturb_per_step_ (config s))
  /\ perturb_per_step_ (config s) <> 0%Z
  /\ config s' = config s
  /\ (forall t, norm_of t (norm s')
                == Qsum (value_of t <$> samples)
                   / inject_Z (perturb_per_step_ (config s)))
  /\ (forall m, m ∈ samples ->
        0 <= outline_penalty_ m /\ 0 <= boundary_penalty_ m
        /\ 0 <= location_penalty_ m)
  /\ last (cur s :: samples) = Some (cur s')
  /\ costs_of s' samples = Ok cost_list.
Proof.
  intros H. unfold Initialize_run in H.
  bind_inv H as [s1 smp] Hs. bind_inv H as nn Hn. bind_inv H as cl Hc.
  bind_inv H as md Hmd. bind_inv H as iT HiT. ok_inv H.
  apply sampling_spec in Hs as (new & -> & Hlen & Hcfg & Hnorm & Hsign & Hl).
  apply average_Ok in Hn as [H0 Hn]. simpl.
  split; [exact Hlen | ]. split; [ | split; [exact Hcfg | ]].
  { intros Heq. apply H0. rewrite Heq. reflexivity. }
  split; [ | split; [exact Hsign | split; [exact Hl | ]]].
  2: { rewrite costs_of_set_init_T. exact Hc. }
  intros t. rewrite Hn, Hnorm. cbn [norm set_norm].
  assert (norm_of t zero_norms = 0) as -> by (destruct t; reflexivity).
  apply Qdiv_comp; [lra | reflexivity].
Qed.

Lemma costs_of_ignore (s : SimulatedAnnealingCore.t) (l n : Q)
    (samples : list Metrics) :
  costs_of s ((fun m => with_notch_penalty n (with_location_penalty l m))
                <$> samples)
  = costs_of s samples.
Proof.
  induction samples as [ | m rest IH]; [reflexivity | ].
  cbn [fmap list_fmap costs_of]. cbn [fmap] in IH. rewrite IH. reflexivity.
Qed.

(** C10. [NormCost] does not read its arguments [location_penalty] and
    [notch_penalty]: the two terms come from the members
    [location_penalty_] and [notch_penalty_].  Hence the [cost_list] of
    [Initialize] is the one obtained when the location and notch penalties
    of every sample are replaced by those of the final object, which are
    those of the last sample. *)
Theorem NormCost_ignores_location_and_notch `{M : MathLib} `{N : NotchGrid} :
  (forall s a w o b m l n l' n',
      NormCost s a w o b m l n = NormCost s a w o b m l' n')
  /\ (forall s s' samples cost_list,
        Initialize_run s = Ok (s', samples, cost_list) ->
        last (cur s :: samples) = Some (cur s')
        /\ costs_of s'
             ((fun m => with_notch_penalty (notch_penalty_ (cur s'))
                          (with_location_penalty
                             (location_penalty_ (cur s')) m)) <$> samples)
           = Ok cost_list).
Proof.
  split; [reflexivity | ].
  intros s s' samples cost_list H.
  apply Initialize_run_spec in H as (_ & _ & _ & _ & _ & Hl & Hc).
  split; [exact Hl | ]. rewrite costs_of_ignore. exact Hc.
Qed.



(** ** The annealing schedule *)









(** ** Resize and the blocks that can be resized *)

Lemma index_of_range (r : Q) (size : nat) :
  unit_draw r -> (0 < size)%nat ->
  (0 <= index_of r size < Z.of_nat size)%Z.
Proof.
  intros [H0 H1] Hsize. unfold index_of.
  assert (0 < inject_Z (Z.of_nat size)) as Hpos.
  { change 0 with (inject_Z 0). rewrite <- Zlt_Qlt. lia. }
  split.
  - change 0%Z with (Qfloor 0). apply Qfloor_resp_le. nra.
  - rewrite Zlt_Qlt.
    apply Qle_lt_trans with (r * inject_Z (Z.of_nat size));
      [apply Qfloor_le | nra].
Qed.

Lemma at_in_range {A : Type} (v : list A) (i : Z) :
  (0 <= i < Z.of_nat (length v))%Z ->
  exists a, at_ v i = Ok a /\ a ∈ v.
Proof.
  intros Hi. unfold at_. destruct (Z.ltb_spec i 0); [lia | ].
  destruct (v !! Z.to_nat i) as [a | ] eqn:E.
  - exists a. split; [reflexivity | ]. eapply list_elem_of_lookup_2; eauto.
  - apply lookup_ge_None in E. lia.
Qed.

Lemma pick_resizeable_diverges (bs : list Block.t) (index1 : Z) (g : Tape) :
  (forall b, b ∈ bs -> Block.IsResizeable b = false) ->
  (0 <= index1 < Z.of_nat (length bs))%Z -> Forall unit_draw g ->
  pick_resizeable bs index1 g = Err TapeEnd.
Proof.
  intros Hbs. revert index1. induction g as [ | r g IH]; intros i Hi Hg;
    simpl; destruct (at_in_range bs i Hi) as (b & -> & Hb);
    rewrite (Hbs b Hb); [reflexivity | ].
  apply Forall_cons in Hg as [Hr Hg].
  apply IH; [ | exact Hg]. apply index_of_range; [exact Hr | lia].
Qed.

Lemma pick_resizeable_Ok (bs : list Block.t) (index1 i : Z) (g g' : Tape) :
  pick_resizeable bs index1 g = Ok (i, g') ->
  exists b, at_ bs i = Ok b /\ Block.IsResizeable b = true.
Proof.
  revert index1. induction g as [ | r g IH]; intros index1; simpl;
    destruct (at_ bs index1) as [b | ] eqn:E; try discriminate;
    destruct (Block.IsResizeable b) eqn:Er; try discriminate;
    try (intros [= <- <-]; eauto).
  apply IH.
Qed.

(** A resize that returns has drawn a block that can be resized. *)
Lemma Resize_picks_resizeable `{M : MathLib}
    (s s' : SimulatedAnnealingCore.t) :
  Resize s = Ok s' ->
  exists b, at_ (blocks_ s) (block_id_ s') = Ok b
            /\ Block.IsResizeable b = true.
Proof.
  intros H. unfold Resize in H.
  bind_inv H as [i0 g0] Hi0. bind_inv H as [index1 g1] Hpick.
  apply pick_resizeable_Ok in Hpick.
  unfold stretch_out, stretch_in in H. chew H; cbn; exact Hpick.
Qed.

(** C5.  When no block can be resized, the loop of [Resize] that draws
    an index until it hits a resizable block takes every draw the
    generator supplies and never ends: on every tape of draws from [0, 1)
    the move stops at the end of the tape, and so does a perturbation that
    selects the resize move.  The move set does not fall back to swaps. *)
Theorem Resize_without_resizeable_block_diverges `{M : MathLib}
    (s : SimulatedAnnealingCore.t) (op : Q) :
  (forall b, b ∈ blocks_ s -> Block.IsResizeable b = false) ->
  blocks_ s <> [] -> Forall unit_draw (generator_ s) ->
  length (blocks_ s) <> 1%nat -> fleb op (resize_prob_ (config s)) = true ->
  Resize s = Err TapeEnd
  /\ Perturb (set_generator (op :: generator_ s) s) = Err TapeEnd.
Proof.
  intros Hbs Hne Hg Hlen Hop.
  assert (forall s0, blocks_ s0 = blocks_ s -> generator_ s0 = generator_ s ->
                     Resize s0 = Err TapeEnd) as Hres.
  { intros s0 Hb0 Hg0. unfold Resize. rewrite Hb0, Hg0.
    destruct (generator_ s) as [ | r g]; [reflexivity | ].
    apply Forall_cons in Hg as [Hr Hg]. cbn [random_index uniform bind].
    rewrite pick_resizeable_diverges; [reflexivity | exact Hbs | | exact Hg].
    apply index_of_range; [exact Hr | ].
    destruct (blocks_ s); [congruence | simpl; lia]. }
  split; [apply Hres; reflexivity | ].
  unfold Perturb. cbn [blocks_ set_generator].
  destruct (Nat.eqb_spec (length (blocks_ s)) 1); [contradiction | ].
  cbn [generator_ set_pre set_pre_seqs set_generator uniform bind config].
  rewrite Hop. rewrite Hres; reflexivity.
Qed.

(** ** Restore *)

Lemma Resize_snapshot `{M : MathLib} (s s' : SimulatedAnnealingCore.t) :
  Resize s = Ok s' -> same_snapshot s s'.
Proof.
  intros H. unfold Resize, stretch_out, stretch_in in H.
  chew H; repeat split.
Qed.

Lemma SingleSwap_snapshot (flag : bool) (s s' : SimulatedAnnealingCore.t) :
  SingleSwap flag s = Ok s' ->
  same_snapshot s s' /\ block_id_ s' = block_id_ s
  /\ (if flag then neg_seq_ s' = neg_seq_ s else pos_seq_ s' = pos_seq_ s).
Proof.
  intros H. unfold SingleSwap in H. chew H; repeat split.
Qed.

Lemma DoubleSwap_snapshot (s s' : SimulatedAnnealingCore.t) :
  DoubleSwap s = Ok s' -> same_snapshot s s' /\ block_id_ s' = block_id_ s.
Proof.
  intros H. unfold DoubleSwap in H. chew H; repeat split.
Qed.

Lemma evaluate_snapshot `{M : MathLib} `{N : NotchGrid}
    (s s' : SimulatedAnnealingCore.t) :
  evaluate s = Ok s' ->
  same_snapshot s s' /\ block_id_ s' = block_id_ s
  /\ pos_seq_ s' = pos_seq_ s /\ neg_seq_ s' = neg_seq_ s.
Proof.
  intros H. unfold evaluate, CalculateNotchPenalty in H.
  chew H; repeat split.
Qed.

(** The state [Perturb] hands to [PackFloorplan]: the chosen move applied
    to the object with its snapshot taken. *)
Lemma Perturb_cases `{M : MathLib} (s s' : SimulatedAnnealingCore.t) :
  length (blocks_ s) <> 1%nat -> Perturb s = Ok s' ->
  exists m,
    s' = PackFloorplan m /\ pre m = cur s
    /\ pre_pos_seq_ m = pos_seq_ s /\ pre_neg_seq_ m = neg_seq_ s
    /\ ((action_id_ m = 0%Z /\ pre_blocks_ m = blocks_ s
         /\ pos_seq_ m = pos_seq_ s /\ neg_seq_ m = neg_seq_ s)
        \/ (action_id_ m = 1%Z /\ neg_seq_ m = neg_seq_ s)
        \/ (action_id_ m = 2%Z /\ pos_seq_ m = pos_seq_ s)
        \/ action_id_ m = 3%Z).
Proof.
  intros Hlen H. unfold Perturb in H.
  destruct (Nat.eqb_spec (length (blocks_ s)) 1); [contradiction | ].
  bind_inv H as [op g] Hop. bind_inv H as m Hm. ok_inv H.
  exists m. split; [reflexivity | ].
  destruct (fleb op _).
  { pose proof (Resize_snapshot _ _ Hm) as (H1 & H2 & H3 & H4 & H5).
    apply Resize_frame in Hm as (Hp & Hn & _). cbn in *.
    repeat split; auto. }
  destruct (fleb op _).
  { apply SingleSwap_snapshot in Hm as ((H1 & H2 & H3 & H4 & H5) & _ & Hs).
    cbn in *. repeat split; auto. }
  destruct (fleb op _).
  { apply SingleSwap_snapshot in Hm as ((H1 & H2 & H3 & H4 & H5) & _ & Hs).
    cbn in *. repeat split; auto. }
  apply DoubleSwap_snapshot in Hm as ((H1 & H2 & H3 & H4 & H5) & _).
  cbn in *. repeat split; auto.
Qed.

(** C9, as the code has it.  After a rejected perturbation [Restore]
    brings back both sequences and the bounding box and cost terms, and
    does not repack.  After a swap every block keeps the coordinates of
    the rejected candidate.  After a resize every block but the resized
    one keeps them; the resized block is copied back whole from the
    snapshot, with the coordinates it had before the perturbation. *)
Theorem Restore_after_rejection `{M : MathLib} `{N : NotchGrid}
    (s s1 s2 s3 : SimulatedAnnealingCore.t) (g : Tape) :
  length (blocks_ s) <> 1%nat ->
  Perturb s = Ok s1 -> evaluate s1 = Ok s2 ->
  Restore (set_generator g s2) = Ok s3 ->
  pos_seq_ s3 = pos_seq_ s /\ neg_seq_ s3 = neg_seq_ s /\ cur s3 = cur s
  /\ (action_id_ s2 <> 0%Z -> blocks_ s3 = blocks_ s2)
  /\ (action_id_ s2 = 0%Z ->
      exists blk, blocks_ s !! Z.to_nat (block_id_ s2) = Some blk
                  /\ blocks_ s3 = <[Z.to_nat (block_id_ s2) := blk]>
                                    (blocks_ s2)).
Proof.
  intros Hlen Hp He Hr.
  apply Perturb_cases in Hp as (m & -> & Hpre & Hpp & Hpn & Hcases);
    [ | exact Hlen].
  apply evaluate_snapshot in He
    as ((E1 & E2 & E3 & E4 & E5) & E6 & E7 & E8).
  cbn in E1, E2, E3, E4, E5, E6, E7, E8.
  unfold Restore in Hr.
  cbn [action_id_ pre_blocks_ blocks_ block_id_ pre_pos_seq_ pre_neg_seq_
       pre set_generator] in Hr.
  rewrite E1, E2, E3, E4, E5, E6 in Hr. rewrite E5, E6.
  destruct Hcases as [(Ha & Hb & Hps & Hns) | [(Ha & Hns) | [(Ha & Hps) | Ha]]];
    rewrite Ha in *; cbn [Z.eqb] in Hr.
  - bind_inv Hr as x Hx. bind_inv Hx as blk Hblk. bind_inv Hx as bs Hbs.
    ok_inv Hx. ok_inv Hr. cbn.
    apply at_Ok in Hblk as [_ Hblk]. apply put_Ok in Hbs as (_ & _ & ->).
    rewrite Hb in Hblk.
    repeat split; try congruence. intros _. eauto.
  - cbn in Hr. ok_inv Hr. cbn. repeat split; first [congruence | intros; lia].
  - cbn in Hr. ok_inv Hr. cbn. repeat split; first [congruence | intros; lia].
  - cbn in Hr. ok_inv Hr. cbn. repeat split; first [congruence | intros; lia].
Qed.

(** ** Packing never overlaps two blocks *)

Lemma nondecreasing_tail (x : Q) (l : list Q) :
  nondecreasing (x :: l) -> nondecreasing l.
Proof.
  intros H i j a b Hij Hi Hj. apply (H (S i) (S j) a b); auto. lia.
Qed.

Lemma nondecreasing_drop (p : nat) (l : list Q) :
  nondecreasing l -> nondecreasing (drop p l).
Proof.
  intros H i j a b Hij Hi Hj. rewrite lookup_drop in Hi, Hj.
  apply (H (p + i)%nat (p + j)%nat a b); auto. lia.
Qed.

(** On a nondecreasing vector the loop that raises entries until the
    first one that is large enough raises every entry to at least [t]. *)
Lemma raise_sorted (t : Q) (l : list Q) :
  nondecreasing l -> raise t l = (fun x => fmax x t) <$> l.
Proof.
  induction l as [ | x l IH]; intros Hs; [reflexivity | ].
  simpl. unfold fmax at 1. destruct (fltb x t) eqn:E.
  - rewrite IH by (eapply nondecreasing_tail; eauto). reflexivity.
  - f_equal. apply fltb_ge in E. clear IH.
    apply list_eq. intros i. rewrite list_lookup_fmap.
    destruct (l !! i) as [y | ] eqn:Hy; [ | reflexivity]. simpl.
    assert (x <= y) as Hxy by (apply (Hs O (S i) x y); auto; lia).
    unfold fmax. assert (fltb y t = false) as -> by (apply fltb_ge; lra).
    reflexivity.
Qed.

Lemma raised_lookup (p : nat) (t : Q) (len : list Q) (j : nat) :
  nondecreasing len -> (j < length len)%nat ->
  (take p len ++ raise t (drop p len)) !!! j
  = if (j <? p)%nat then len !!! j else fmax (len !!! j) t.
Proof.
  intros Hs Hj.
  rewrite raise_sorted by (apply nondecreasing_drop; exact Hs).
  apply list_lookup_total_correct.
  destruct (Nat.ltb_spec j p) as [Hlt | Hge].
  - rewrite lookup_app_l by (rewrite length_take; lia).
    rewrite lookup_take_lt by exact Hlt.
    apply list_lookup_lookup_total_lt. exact Hj.
  - rewrite lookup_app_r by (rewrite length_take; lia).
    rewrite length_take, list_lookup_fmap, lookup_drop.
    replace (p + (j - p `min` length len))%nat with j by lia.
    rewrite (list_lookup_lookup_total_lt len j) by exact Hj. reflexivity.
Qed.

Lemma raised_length (p : nat) (t : Q) (len : list Q) :
  nondecreasing len ->
  length (take p len ++ raise t (drop p len)) = length len.
Proof.
  intros Hs. rewrite raise_sorted by (apply nondecreasing_drop; exact Hs).
  rewrite length_app, length_fmap, length_take, length_drop. lia.
Qed.

Lemma fmax_mono (a b t : Q) : a <= b -> fmax a t <= fmax b t.
Proof. intros H. unfold fmax. repeat fcase; lra. Qed.

Lemma nondecreasing_total (l : list Q) :
  nondecreasing l <->
  forall i j, (i <= j)%nat -> (j < length l)%nat -> l !!! i <= l !!! j.
Proof.
  split.
  - intros H i j Hij Hj.
    apply (H i j); [exact Hij | | ];
      apply list_lookup_lookup_total_lt; lia.
  - intros H i j x y Hij Hi Hj.
    pose proof (lookup_lt_Some _ _ _ Hj).
    apply list_lookup_total_correct in Hi, Hj. subst. apply H; auto.
Qed.

Lemma before_snoc (done : list nat) (b a a' : nat) :
  before (done ++ [b]) a a' -> before done a a' \/ (a ∈ done /\ a' = b).
Proof.
  intros (i & j & Hij & Hi & Hj).
  pose proof (lookup_lt_Some _ _ _ Hj) as Hlen.
  rewrite length_app in Hlen. simpl in Hlen.
  destruct (decide (j < length done)%nat) as [Hlt | Hge].
  - left. exists i, j. rewrite lookup_app_l in Hi, Hj by lia. auto.
  - right. rewrite lookup_app_l in Hi by lia.
    rewrite lookup_app_r in Hj by lia.
    replace (j - length done)%nat with O in Hj by lia.
    injection Hj as <-. split; [ | reflexivity].
    eapply list_elem_of_lookup_2; eauto.
Qed.

Lemma fmax_ge_fst (a t : Q) : a <= fmax a t.
Proof. unfold fmax. fcase; lra. Qed.

Lemma fmax_ge_snd (a t : Q) : t <= fmax a t.
Proof. unfold fmax. fcase; lra. Qed.

(** Placing one more block keeps the invariant of the sweep. *)
Lemma place_block_inv (ax : Axis) (mt : list (nat * nat)) (ext : nat -> Q)
    (n : nat) (done : list nat) (st : list Block.t * list Q) (b : nat) :
  axis_ok ax ->
  sweep_inv ax (fun c => (mt !!! c).2) ext n done st ->
  b ∉ done -> (b < n)%nat -> ((mt !!! b).2 < n)%nat ->
  sweep_inv ax (fun c => (mt !!! c).2) ext n (done ++ [b])
            (place_block ax mt st b).
Proof.
  intros Hax (Hlb & Hll & Hs & He & Hc & Hp) Hnew Hb Hq.
  destruct st as [bs len]. cbn [fst snd] in *.
  remember ((mt !!! b).2) as p eqn:Ep. remember (len !!! p) as v eqn:Ev.
  assert (forall i, i <> b ->
            alter (place ax v) b bs !!! i = bs !!! i) as Hother
    by (intros; apply list_lookup_total_alter_ne; congruence).
  assert (alter (place ax v) b bs !!! b = place ax v (bs !!! b)) as Hself
    by (apply list_lookup_total_alter_eq; lia).
  destruct (Hax v (bs !!! b)) as [Hcv Hev].
  assert (forall j, (j < n)%nat ->
            (take p len ++ raise
               (coord ax (alter (place ax v) b bs !!! b)
                + extent ax (alter (place ax v) b bs !!! b))
               (drop p len)) !!! j
            = if (j <? p)%nat then len !!! j
              else fmax (len !!! j) (v + ext b)) as Hlen'.
  { intros j Hj. rewrite raised_lookup by (auto; lia).
    rewrite Hself, Hcv, Hev, He. reflexivity. }
  pose proof (proj1 (nondecreasing_total len) Hs) as Hs'.
  unfold sweep_inv, place_block. cbv zeta. cbn [fst snd].
  rewrite <- Ep, <- Ev.
  split; [rewrite length_alter; exact Hlb | ].
  split; [rewrite raised_length by exact Hs; exact Hll | ].
  split; [ | split; [ | split]].
  - apply nondecreasing_total. intros i j Hij Hj.
    rewrite raised_length in Hj by exact Hs.
    rewrite !Hlen' by lia.
    destruct (Nat.ltb_spec i p), (Nat.ltb_spec j p); try lia.
    + apply Hs'; lia.
    + eapply Qle_trans; [apply (Hs' i j); lia | apply fmax_ge_fst].
    + apply fmax_mono. apply Hs'; lia.
  - intros i. destruct (decide (i = b)) as [-> | Hi].
    + rewrite Hself, Hev. apply He.
    + rewrite Hother by exact Hi. apply He.
  - intros a j Ha Hj. rewrite Hlen' by lia.
    apply elem_of_app in Ha as [Ha | Ha].
    + assert (a <> b) by (intros ->; contradiction).
      rewrite Hother by assumption.
      pose proof (Hc a j Ha Hj) as Hold.
      destruct (j <? p)%nat; [exact Hold | ].
      eapply Qle_trans; [exact Hold | apply fmax_ge_fst].
    + apply list_elem_of_singleton in Ha as ->. rewrite <- Ep in Hj.
      destruct (Nat.ltb_spec j p); [lia | ].
      rewrite Hself, Hcv. apply fmax_ge_snd.
  - intros a a' Hbef Hqq.
    apply before_snoc in Hbef as [Hbef | [Ha ->]].
    + assert (a ∈ done /\ a' ∈ done) as [Ha Ha'].
      { destruct Hbef as (i & j & _ & Hi & Hj).
        split; eapply list_elem_of_lookup_2; eauto. }
      assert (a <> b) by (intros ->; contradiction).
      assert (a' <> b) by (intros ->; contradiction).
      rewrite !Hother by assumption. apply Hp; assumption.
    + assert (a <> b) by (intros ->; contradiction).
      rewrite Hother by assumption. rewrite Hself, Hcv.
      rewrite Ev. apply Hc; [exact Ha | ]. rewrite <- Ep in Hqq. lia.
Qed.

Lemma sweep_fold_inv (ax : Axis) (mt : list (nat * nat)) (ext : nat -> Q)
    (n : nat) (order done : list nat) (st : list Block.t * list Q) :
  axis_ok ax ->
  sweep_inv ax (fun c => (mt !!! c).2) ext n done st ->
  NoDup (done ++ order) ->
  (forall b, b ∈ order -> (b < n)%nat /\ ((mt !!! b).2 < n)%nat) ->
  sweep_inv ax (fun c => (mt !!! c).2) ext n (done ++ order)
            (foldl (place_block ax mt) st order).
Proof.
  intros Hax. revert done st.
  induction order as [ | b order IH]; intros done st Hinv Hnd Hin; simpl.
  - rewrite app_nil_r. exact Hinv.
  - replace (done ++ b :: order) with ((done ++ [b]) ++ order) in *
      by (rewrite <- app_assoc; reflexivity).
    destruct (Hin b) as [Hb Hq]; [left | ].
    apply IH; [ | exact Hnd | intros; apply Hin; right; assumption].
    apply place_block_inv; auto.
    apply NoDup_app in Hnd as (Hnd & _ & _).
    apply NoDup_app in Hnd as (_ & Hdis & _).
    intros Hbd. apply (Hdis b Hbd). left.
Qed.

Lemma nondecreasing_replicate (n : nat) (x : Q) :
  nondecreasing (replicate n x).
Proof.
  intros i j a b _ Hi Hj.
  apply lookup_replicate in Hi as [-> _].
  apply lookup_replicate in Hj as [-> _]. lra.
Qed.


(** A sweep changes nothing that [place] leaves alone. *)
Lemma sweep_frame {A : Type} (f : Block.t -> A) (ax : Axis)
    (mt : list (nat * nat)) (order : list nat) (bs : list Block.t) (i : nat) :
  (forall v b, f (place ax v b) = f b) ->
  f ((sweep ax mt order bs).1 !!! i) = f (bs !!! i).
Proof.
  intros Hf. unfold sweep. generalize (replicate (length bs) 0).
  revert bs. induction order as [ | b order IH]; intros bs len; simpl.
  - reflexivity.
  - unfold place_block at 2. cbn [fst snd].
    match goal with
    | |- context [foldl _ (?bs', ?len') order] =>
        specialize (IH bs' len'); rewrite IH
    end.
    rewrite list_lookup_total_alter. case_decide as Hd; [ | reflexivity].
    destruct Hd as [-> _]. apply Hf.
Qed.

Lemma fill_match_length (i : nat) (pos neg : list nat) (m : list (nat * nat)) :
  length (fill_match i pos neg m) = length m.
Proof.
  revert i neg m. induction pos as [ | b pos IH]; intros i neg m; simpl.
  - reflexivity.
  - destruct neg as [ | c neg]; [reflexivity | ].
    rewrite IH, !length_alter. reflexivity.
Qed.

(** After the loop that fills [match], the second component of the entry
    of a block is the position of the block in the negative sequence. *)
Lemma fill_match_second (pos neg : list nat) (i : nat) (m : list (nat * nat))
    (c : nat) :
  length pos = length neg -> NoDup neg -> (c < length m)%nat ->
  (forall k, neg !! k = Some c ->
             (fill_match i pos neg m !!! c).2 = (i + k)%nat)
  /\ (c ∉ neg -> (fill_match i pos neg m !!! c).2 = (m !!! c).2).
Proof.
  revert neg i m. induction pos as [ | b pos IH]; intros neg i m Hlen Hnd Hc;
    destruct neg as [ | c0 neg]; try discriminate; cbn [fill_match].
  - split; [intros k Hk; inversion Hk | reflexivity].
  - apply NoDup_cons in Hnd as [Hc0 Hnd]. injection Hlen as Hlen.
    set (m' := alter (match_second i) c0 (alter (match_first i) b m)).
    assert (c < length m')%nat as Hc'
      by (unfold m'; rewrite !length_alter; exact Hc).
    assert ((m' !!! c).2 = if decide (c = c0) then i else (m !!! c).2) as Hm'.
    { unfold m'. case_decide as Hd.
      - subst. rewrite list_lookup_total_alter_eq
          by (rewrite length_alter; exact Hc). reflexivity.
      - rewrite list_lookup_total_alter_ne by congruence.
        rewrite list_lookup_total_alter.
        case_decide as Hb; [destruct Hb as [-> _] | ]; reflexivity. }
    destruct (IH neg (S i) m' Hlen Hnd Hc') as [IH1 IH2].
    split.
    + intros [ | k] Hk; simpl in Hk.
      * injection Hk as ->. rewrite IH2 by exact Hc0. rewrite Hm'.
        rewrite decide_True by reflexivity. lia.
      * rewrite (IH1 k Hk). lia.
    + intros Hnot. apply not_elem_of_cons in Hnot as [Hne Hnot].
      rewrite IH2 by exact Hnot. rewrite Hm'.
      rewrite decide_False by exact Hne. reflexivity.
Qed.

Lemma fill_match_position (n : nat) (pos neg : list nat) (m : list (nat * nat))
    (c : nat) :
  length pos = n -> is_permutation n neg -> length m = n -> (c < n)%nat ->
  neg !! (fill_match 0 pos neg m !!! c).2 = Some c.
Proof.
  intros Hpos Hneg Hm Hc.
  assert (c ∈ neg) as Hin by (apply (is_permutation_elem _ _ _ Hneg); exact Hc).
  apply list_elem_of_lookup in Hin as [k Hk].
  destruct (fill_match_second pos neg 0 m c) as [H1 _].
  - rewrite Hpos. symmetry. eapply is_permutation_length; eauto.
  - eapply is_permutation_NoDup; eauto.
  - lia.
  - rewrite (H1 k Hk). exact Hk.
Qed.

Lemma axis_ok_X : axis_ok X_axis.
Proof. intros v b. split; reflexivity. Qed.

Lemma axis_ok_Y : axis_ok Y_axis.
Proof. intros v b. split; reflexivity. Qed.




Lemma PackFloorplan_blocks (s : SimulatedAnnealingCore.t) :
  let n := length (blocks_ s) in
  let bs0 := (fun b => Block.SetY 0 (Block.SetX 0 b)) <$> blocks_ s in
  let mtx := fill_match 0 (pos_seq_ s) (neg_seq_ s) (replicate n (0, 0)%nat) in
  let sx := sweep X_axis mtx (pos_seq_ s) bs0 in
  let mty := fill_match 0 (reverse (pos_seq_ s)) (neg_seq_ s) mtx in
  blocks_ (PackFloorplan s)
  = (sweep Y_axis mty (reverse (pos_seq_ s)) sx.1).1.
Proof. reflexivity. Qed.


(** ** Overlap of macros *)

Lemma overlap_area_nonneg (a b : Block.t) : 0 <= overlap_area a b.
Proof.
  unfold overlap_area. apply Qmult_le_0_compat; apply fmax_ge_snd.
Qed.

Lemma overlap_fold_ge (a : Block.t) (rest : list Block.t) (acc : Q) :
  acc <= foldl (fun acc b => acc + overlap_area a b) acc rest.
Proof.
  revert acc. induction rest as [ | b rest IH]; intros acc; simpl; [lra | ].
  pose proof (overlap_area_nonneg a b). pose proof (IH (acc + overlap_area a b)).
  lra.
Qed.

Lemma overlap_fold_zero (a : Block.t) (rest : list Block.t) (acc : Q) :
  foldl (fun acc b => acc + overlap_area a b) acc rest <= acc <->
  Forall (fun b => overlap_area a b == 0) rest.
Proof.
  revert acc. induction rest as [ | b rest IH]; intros acc; simpl.
  - split; [constructor | lra].
  - pose proof (overlap_area_nonneg a b) as H0.
    pose proof (overlap_fold_ge a rest (acc + overlap_area a b)) as Hge.
    split.
    + intros H. constructor; [lra | ].
      apply (IH (acc + overlap_area a b)). lra.
    + intros H. apply Forall_cons in H as [Hb Hrest].
      apply (IH (acc + overlap_area a b)) in Hrest. lra.
Qed.

Lemma pairwise_overlap_ge (ms : list Block.t) (acc : Q) :
  acc <= pairwise_overlap ms acc.
Proof.
  revert acc. induction ms as [ | a ms IH]; intros acc; simpl; [lra | ].
  eapply Qle_trans; [apply (overlap_fold_ge a ms acc) | apply IH].
Qed.

(** The sum over all pairs is zero exactly when every pair is apart. *)
Lemma pairwise_overlap_zero (ms : list Block.t) (acc : Q) :
  pairwise_overlap ms acc <= acc <->
  ForallOrdPairs (fun a b => overlap_area a b == 0) ms.
Proof.
  revert acc. induction ms as [ | a ms IH]; intros acc; simpl.
  - split; [constructor | lra].
  - pose proof (overlap_fold_ge a ms acc) as H1.
    pose proof (pairwise_overlap_ge ms
                  (foldl (fun acc b => acc + overlap_area a b) acc ms)) as H2.
    split.
    + intros H. constructor.
      * apply (overlap_fold_zero a ms acc). lra.
      * apply (IH (foldl (fun acc b => acc + overlap_area a b) acc ms)). lra.
    + intros H. inversion H as [ | ? ? Ha Hms]; subst.
      apply (overlap_fold_zero a ms acc) in Ha.
      apply (IH (foldl (fun acc b => acc + overlap_area a b) acc ms)) in Hms.
      lra.
Qed.

Lemma CalculateOverlap_false (bs : list Block.t) :
  CalculateOverlap bs = false <->
  ForallOrdPairs (fun a b => overlap_area a b == 0) (macros bs).
Proof.
  unfold CalculateOverlap. rewrite fltb_ge. apply pairwise_overlap_zero.
Qed.

Lemma disjoint_iff (x1 w1 x2 w2 : Q) :
  disjoint x1 w1 x2 w2 <->
  x1 + w1 <= x1 \/ x1 + w1 <= x2 \/ x2 + w2 <= x1 \/ x2 + w2 <= x2.
Proof.
  unfold disjoint, fmin, fmax. split.
  - repeat fcase; intros; lra.
  - intros [H | [H | [H | H]]]; repeat fcase; lra.
Qed.

Lemma overlap_area_zero (a b : Block.t) :
  overlap_area a b == 0 <->
  disjoint (Block.GetX a) (Block.GetWidth a) (Block.GetX b) (Block.GetWidth b)
  \/ disjoint (Block.GetY a) (Block.GetHeight a)
              (Block.GetY b) (Block.GetHeight b).
Proof.
  unfold overlap_area, disjoint. cbv zeta. split.
  - intros H. apply Qmult_integral in H as [H | H]; [left | right];
      revert H; unfold fmax at 1; fcase; lra.
  - assert (forall u, u <= 0 -> fmax u 0 == 0) as Hz
      by (intros u Hu; unfold fmax; fcase; lra).
    intros [H | H]; rewrite (Hz _ H); ring.
Qed.

(** Snapping two intervals that lie inside the outline and are at least a
    threshold long keeps them disjoint. *)
Lemma snapped_disjoint (o t x1 w1 x2 w2 : Q) :
  0 <= x1 -> x1 + w1 <= o -> 0 <= x2 -> x2 + w2 <= o ->
  t <= w1 -> t <= w2 ->
  disjoint x1 w1 x2 w2 ->
  disjoint (snapped_coord o t x1 w1) w1 (snapped_coord o t x2 w2) w2.
Proof.
  intros H1 H2 H3 H4 H5 H6. rewrite !disjoint_iff. unfold snapped_coord.
  intros Hd.
  destruct (fltb x1 t) eqn:E1;
    [apply fltb_lt in E1 | apply fltb_ge in E1];
    (destruct (fltb (x1 + w1) o) eqn:E2;
     [apply fltb_lt in E2 | apply fltb_ge in E2]);
    (destruct (fltb (o - (x1 + w1)) t) eqn:E3;
     [apply fltb_lt in E3 | apply fltb_ge in E3]);
    (destruct (fltb x2 t) eqn:E4;
     [apply fltb_lt in E4 | apply fltb_ge in E4]);
    (destruct (fltb (x2 + w2) o) eqn:E5;
     [apply fltb_lt in E5 | apply fltb_ge in E5]);
    (destruct (fltb (o - (x2 + w2)) t) eqn:E6;
     [apply fltb_lt in E6 | apply fltb_ge in E6]);
    cbn [andb]; lra.
Qed.

Lemma snap_to_boundary_geometry (ow oh tH tV : Q) (b : Block.t) :
  is_macro b = true ->
  geometry (snap_to_boundary ow oh tH tV b)
  = (true,
     (snapped_coord ow tH (Block.GetX b) (Block.GetWidth b),
      snapped_coord oh tV (Block.GetY b) (Block.GetHeight b),
      Block.GetWidth b, Block.GetHeight b)).
Proof.
  intros Hm. unfold snap_to_boundary, snapped_coord, geometry.
  rewrite Hm. cbv zeta.
  destruct (fltb (Block.GetX b) tH);
    [ | destruct (fltb (Block.GetX b + Block.GetWidth b) ow
                  && fltb (ow - (Block.GetX b + Block.GetWidth b)) tH)];
    (destruct (fltb (Block.GetY b) tV);
     [ | destruct (fltb (Block.GetY b + Block.GetHeight b) oh
                   && fltb (oh - (Block.GetY b + Block.GetHeight b)) tV)]);
    unfold is_macro, Block.GetNumMacro in *; cbn; rewrite ?Hm; reflexivity.
Qed.

Lemma snap_to_boundary_soft (ow oh tH tV : Q) (b : Block.t) :
  is_macro b = false -> snap_to_boundary ow oh tH tV b = b.
Proof. intros Hm. unfold snap_to_boundary. rewrite Hm. reflexivity. Qed.

Lemma snap_to_boundary_is_macro (ow oh tH tV : Q) (b : Block.t) :
  is_macro (snap_to_boundary ow oh tH tV b) = is_macro b.
Proof.
  destruct (is_macro b) eqn:Hm.
  - pose proof (snap_to_boundary_geometry ow oh tH tV b Hm) as Hg.
    unfold geometry in Hg. congruence.
  - rewrite snap_to_boundary_soft by exact Hm. exact Hm.
Qed.

(** Snapped macros that were apart inside the outline stay apart. *)
Lemma snap_pair_apart (ow oh tH tV : Q) (a b : Block.t) :
  is_macro a = true -> is_macro b = true ->
  inside_outline ow oh a -> inside_outline ow oh b ->
  tH <= Block.GetWidth a -> tH <= Block.GetWidth b ->
  tV <= Block.GetHeight a -> tV <= Block.GetHeight b ->
  overlap_area a b == 0 ->
  overlap_area (snap_to_boundary ow oh tH tV a)
               (snap_to_boundary ow oh tH tV b) == 0.
Proof.
  intros Ha Hb (Ia1 & Ia2 & Ia3 & Ia4) (Ib1 & Ib2 & Ib3 & Ib4) Wa Wb Ha' Hb'.
  rewrite !overlap_area_zero.
  pose proof (snap_to_boundary_geometry ow oh tH tV a Ha) as Ga.
  pose proof (snap_to_boundary_geometry ow oh tH tV b Hb) as Gb.
  unfold geometry in Ga, Gb.
  injection Ga as _ -> -> -> ->. injection Gb as _ -> -> -> ->.
  intros [H | H]; [left | right]; apply snapped_disjoint; assumption.
Qed.

Lemma thresholds_le (bs : list Block.t) (th0 : Q * Q) :
  let th := foldl (fun th b =>
                     if is_macro b
                     then (fmin th.1 (Block.GetWidth b),
                           fmin th.2 (Block.GetHeight b))
                     else th) th0 bs in
  th.1 <= th0.1 /\ th.2 <= th0.2
  /\ forall m, m ∈ bs -> is_macro m = true ->
               th.1 <= Block.GetWidth m /\ th.2 <= Block.GetHeight m.
Proof.
  revert th0. induction bs as [ | b bs IH]; intros th0; cbn [foldl].
  - cbv zeta. split; [lra | ]. split; [lra | ].
    intros m Hm. inversion Hm.
  - cbv zeta in *.
    match goal with
    | |- context [foldl ?f ?t1 bs] => destruct (IH t1) as (H1 & H2 & H3)
    end.
    destruct (is_macro b) eqn:Hb; cbn [fst snd] in *.
    + pose proof (fmin_le_l th0.1 (Block.GetWidth b)).
      pose proof (fmin_le_r th0.1 (Block.GetWidth b)).
      pose proof (fmin_le_l th0.2 (Block.GetHeight b)).
      pose proof (fmin_le_r th0.2 (Block.GetHeight b)).
      split; [lra | ]. split; [lra | ].
      intros m Hm Hmm. apply elem_of_cons in Hm as [-> | Hm]; [lra | auto].
    + split; [lra | ]. split; [lra | ].
      intros m Hm Hmm. apply elem_of_cons in Hm as [-> | Hm]; [congruence | auto].
Qed.

Lemma macros_fmap (f : Block.t -> Block.t) (bs : list Block.t) :
  (forall b, is_macro (f b) = is_macro b) ->
  macros (f <$> bs) = f <$> macros bs.
Proof.
  intros Hf. unfold macros. induction bs as [ | b bs IH]; [reflexivity | ].
  cbn [fmap list_fmap List.filter]. cbn [fmap] in IH.
  rewrite Hf. destruct (is_macro b); rewrite IH; reflexivity.
Qed.

Lemma ForallOrdPairs_fmap {A : Type} (P : A -> Prop) (R : A -> A -> Prop)
    (f : A -> A) (l : list A) :
  Forall P l -> (forall a b, P a -> P b -> R a b -> R (f a) (f b)) ->
  ForallOrdPairs R l -> ForallOrdPairs R (f <$> l).
Proof.
  intros HP Hf H. induction H as [ | a l Ha Hl IH]; [constructor | ].
  apply Forall_cons in HP as [Pa Pl].
  cbn [fmap list_fmap]. constructor; [ | apply IH; exact Pl].
  apply Forall_fmap. rewrite Forall_forall in Ha, Pl.
  apply Forall_forall. intros b Hb. apply Hf; auto.
Qed.

(** The snapping stage keeps macros that lie inside the outline apart. *)
Lemma snap_stage_apart (ow oh : Q) (bs : list Block.t) :
  CalculateOverlap bs = false ->
  (forall b, b ∈ bs -> is_macro b = true -> inside_outline ow oh b) ->
  CalculateOverlap (snap_stage ow oh bs) = false.
Proof.
  intros Hov Hin. rewrite CalculateOverlap_false in *.
  unfold snap_stage. cbv zeta.
  rewrite macros_fmap by (intros; apply snap_to_boundary_is_macro).
  destruct (thresholds_le bs (ow / 10, oh / 10)) as (_ & _ & Hth).
  fold (thresholds ow oh bs) in Hth. cbv zeta in Hth.
  apply ForallOrdPairs_fmap
    with (P := fun b => is_macro b = true /\ inside_outline ow oh b
                        /\ (thresholds ow oh bs).1 <= Block.GetWidth b
                        /\ (thresholds ow oh bs).2 <= Block.GetHeight b);
    [ | | exact Hov].
  - apply Forall_forall. intros b Hb. unfold macros in Hb.
    apply list_elem_of_In, filter_In in Hb as [Hb Hm].
    apply list_elem_of_In in Hb.
    destruct (Hth b Hb Hm). auto.
  - intros a b (Ma & Ia & Wa & Ha) (Mb & Ib & Wb & Hb) Hab.
    apply snap_pair_apart; assumption.
Qed.

(** ** The alignment passes keep macros apart *)

Lemma overlap_area_geometry (a a' b b' : Block.t) :
  geometry a = geometry a' -> geometry b = geometry b' ->
  overlap_area a b = overlap_area a' b'.
Proof.
  unfold geometry, overlap_area. intros [= _ -> -> -> ->] [= _ -> -> -> ->].
  reflexivity.
Qed.

Lemma fmap_cons_inv {A B : Type} (f : A -> B) (a b : A) (l k : list A) :
  f <$> a :: l = f <$> b :: k -> f a = f b /\ f <$> l = f <$> k.
Proof. cbn [fmap list_fmap]. intros [= H1 H2]. auto. Qed.

Lemma macros_geometry (bs1 bs2 : list Block.t) :
  geometry <$> bs1 = geometry <$> bs2 ->
  geometry <$> macros bs1 = geometry <$> macros bs2.
Proof.
  revert bs2. induction bs1 as [ | a bs1 IH]; intros [ | b bs2] H;
    try discriminate; [reflexivity | ].
  apply fmap_cons_inv in H as [Hab H].
  unfold macros. cbn [List.filter].
  assert (is_macro a = is_macro b) as -> by (unfold geometry in Hab; congruence).
  specialize (IH bs2 H). unfold macros in IH.
  destruct (is_macro b); [ | exact IH].
  cbn [fmap list_fmap]. cbn [fmap] in IH. congruence.
Qed.

Lemma overlap_fold_geometry (a a' : Block.t) (l1 l2 : list Block.t) (acc : Q) :
  geometry a = geometry a' -> geometry <$> l1 = geometry <$> l2 ->
  foldl (fun acc b => acc + overlap_area a b) acc l1
  = foldl (fun acc b => acc + overlap_area a' b) acc l2.
Proof.
  intros Ha. revert l2 acc. induction l1 as [ | b l1 IH]; intros [ | b' l2] acc H;
    try discriminate; [reflexivity | ].
  apply fmap_cons_inv in H as [Hb H]. cbn [foldl].
  rewrite (overlap_area_geometry a a' b b' Ha Hb). apply IH. exact H.
Qed.

Lemma pairwise_overlap_geometry (l1 l2 : list Block.t) (acc : Q) :
  geometry <$> l1 = geometry <$> l2 ->
  pairwise_overlap l1 acc = pairwise_overlap l2 acc.
Proof.
  revert l2 acc. induction l1 as [ | a l1 IH]; intros [ | a' l2] acc H;
    try discriminate; [reflexivity | ].
  apply fmap_cons_inv in H as [Ha H]. cbn [pairwise_overlap].
  rewrite (overlap_fold_geometry a a' l1 l2 acc Ha H). apply IH. exact H.
Qed.

(** [CalculateOverlap] depends on the geometry of the blocks only. *)
Lemma CalculateOverlap_geometry (bs1 bs2 : list Block.t) :
  geometry <$> bs1 = geometry <$> bs2 ->
  CalculateOverlap bs1 = CalculateOverlap bs2.
Proof.
  intros H. unfold CalculateOverlap.
  rewrite (pairwise_overlap_geometry (macros bs1) (macros bs2));
    [reflexivity | apply macros_geometry; exact H].
Qed.

Lemma insert_same_geometry (bs : list Block.t) (id : nat) (b' : Block.t) :
  geometry b' = geometry (bs !!! id) ->
  geometry <$> <[id := b']> bs = geometry <$> bs.
Proof.
  intros Hg. rewrite list_fmap_insert. apply list_insert_id'. intros Hlt.
  rewrite length_fmap in Hlt. rewrite list_lookup_fmap.
  rewrite (list_lookup_lookup_total_lt bs id) by exact Hlt.
  cbn. rewrite Hg. reflexivity.
Qed.

Lemma mark_seed_spec (d : Direction) (reset : bool) (ow oh : Q)
    (st : list Block.t * list nat) (id : nat) :
  let st' := mark_seed d reset ow oh st id in
  geometry <$> st'.1 = geometry <$> st.1 /\ length st'.1 = length st.1.
Proof.
  unfold mark_seed. cbv zeta.
  destruct (on_edge d ow oh _); [ | destruct (on_edge (opposite d) ow oh _)];
    cbn [fst snd]; (split; [ | apply length_insert]);
    apply insert_same_geometry; destruct reset; reflexivity.
Qed.

Lemma seeding_spec (d : Direction) (reset : bool) (ow oh : Q)
    (ids : list nat) (st : list Block.t * list nat) :
  let st' := foldl (mark_seed d reset ow oh) st ids in
  geometry <$> st'.1 = geometry <$> st.1 /\ length st'.1 = length st.1.
Proof.
  revert st. induction ids as [ | id ids IH]; intros st; cbn [foldl].
  - auto.
  - cbv zeta in *.
    destruct (IH (mark_seed d reset ow oh st id)) as [Hg Hl].
    destruct (mark_seed_spec d reset ow oh st id) as [Hg1 Hl1].
    cbv zeta in Hg1, Hl1. split; congruence.
Qed.

Lemma set_coord_geometry_back (d : Direction) (v : Q) (b : Block.t) :
  geometry (set_coord d (get_coord d b) (set_coord d v b)) = geometry b.
Proof. destruct d; reflexivity. Qed.

(** One candidate: whatever the outcome, the macros stay apart. *)
Lemma candidate_apart (d : Direction) (tH tV : Q) (s : Rect)
    (st : PassState) (id : nat) :
  CalculateOverlap st.1.1 = false ->
  CalculateOverlap (candidate d tH tV s st id).1.1 = false.
Proof.
  destruct st as [[bs queue] conflicts]. cbn [fst snd]. intros Hov.
  unfold candidate.
  destruct (Block.GetAlignFlag (bs !!! id)); [exact Hov | ].
  destruct (negb (proximity d tH tV s (cand_rect (bs !!! id))));
    [exact Hov | ].
  destruct (target d tH tV s (cand_rect (bs !!! id))) as [v | ];
    [ | exact Hov].
  destruct (CalculateOverlap (<[id := set_coord d v (bs !!! id)]> bs)) eqn:Hm;
    cbn [fst snd]; rewrite list_insert_insert_eq.
  - rewrite <- Hov. apply CalculateOverlap_geometry, insert_same_geometry.
    apply set_coord_geometry_back.
  - rewrite <- Hm. apply CalculateOverlap_geometry.
    rewrite !list_fmap_insert. reflexivity.
Qed.

Lemma candidates_apart (d : Direction) (tH tV : Q) (s : Rect)
    (ids : list nat) (st : PassState) :
  CalculateOverlap st.1.1 = false ->
  CalculateOverlap (foldl (candidate d tH tV s) st ids).1.1 = false.
Proof.
  revert st. induction ids as [ | id ids IH]; intros st Hov; cbn [foldl].
  - exact Hov.
  - apply IH, candidate_apart, Hov.
Qed.

Lemma propagate_apart (fuel : nat) (d : Direction) (tH tV : Q)
    (ids : list nat) (st : PassState) :
  CalculateOverlap st.1.1 = false ->
  CalculateOverlap (propagate fuel d tH tV ids st).1.1 = false.
Proof.
  revert st. induction fuel as [ | fuel IH]; intros st Hov; cbn [propagate].
  - exact Hov.
  - destruct st as [[bs [ | src queue]] conflicts]; [exact Hov | ].
    apply IH, candidates_apart. exact Hov.
Qed.

Lemma pass_apart (d : Direction) (reset : bool) (ow oh tH tV : Q)
    (ids : list nat) (st : PassState) :
  CalculateOverlap st.1.1 = false ->
  CalculateOverlap (pass d reset ow oh tH tV ids st).1.1 = false.
Proof.
  destruct st as [[bs queue] conflicts]. cbn [fst snd]. intros Hov.
  unfold pass. cbv zeta. apply propagate_apart. cbn [fst snd].
  destruct (seeding_spec d reset ow oh ids (bs, queue)) as [Hg _].
  cbv zeta in Hg. rewrite <- Hov. apply CalculateOverlap_geometry. exact Hg.
Qed.

(** ** The alignment passes end with an empty queue *)

Lemma unflagged_le (ids : list nat) (bs : list Block.t) :
  (unflagged ids bs <= length ids)%nat.
Proof. unfold unflagged. apply filter_length_le. Qed.

Lemma unflagged_same (ids : list nat) (bs bs' : list Block.t) :
  (forall i, Block.GetAlignFlag (bs' !!! i) = Block.GetAlignFlag (bs !!! i)) ->
  unflagged ids bs' = unflagged ids bs.
Proof.
  intros H. unfold unflagged. f_equal. apply filter_ext. intros i.
  rewrite H. reflexivity.
Qed.

Lemma unflagged_flagging (ids : list nat) (bs bs' : list Block.t) (id : nat) :
  id ∈ ids ->
  Block.GetAlignFlag (bs !!! id) = false ->
  Block.GetAlignFlag (bs' !!! id) = true ->
  (forall i, i <> id -> bs' !!! i = bs !!! i) ->
  (S (unflagged ids bs') <= unflagged ids bs)%nat.
Proof.
  intros Hin Hf Ht Ho. unfold unflagged.
  assert (forall l, (length (List.filter
                      (fun i => negb (Block.GetAlignFlag (bs' !!! i))) l)
                     <= length (List.filter
                      (fun i => negb (Block.GetAlignFlag (bs !!! i))) l))%nat)
    as Hle.
  { induction l as [ | i l IH]; [reflexivity | ]. cbn [List.filter].
    destruct (decide (i = id)) as [-> | Hi].
    - rewrite Hf, Ht. cbn. lia.
    - rewrite (Ho i Hi).
      destruct (negb (Block.GetAlignFlag (bs !!! i))); cbn; lia. }
  induction ids as [ | i ids IH]; [inversion Hin | ]. cbn [List.filter].
  destruct (decide (i = id)) as [-> | Hi].
  - rewrite Hf, Ht. cbn. pose proof (Hle ids). lia.
  - apply elem_of_cons in Hin as [-> | Hin]; [congruence | ].
    rewrite (Ho i Hi).
    destruct (negb (Block.GetAlignFlag (bs !!! i))); cbn;
      specialize (IH Hin); lia.
Qed.

Lemma set_coord_flag (d : Direction) (v : Q) (b : Block.t) :
  Block.GetAlignFlag (set_coord d v b) = Block.GetAlignFlag b.
Proof. destruct d; reflexivity. Qed.

(** A candidate that enters the queue was not flagged and is flagged
    then: the queue and the unflagged macros together never grow. *)
Lemma candidate_measure (d : Direction) (tH tV : Q) (s : Rect)
    (ids : list nat) (st : PassState) (id : nat) :
  id ∈ ids -> (id < length st.1.1)%nat ->
  let st' := candidate d tH tV s st id in
  length st'.1.1 = length st.1.1
  /\ (length st'.1.2 + unflagged ids st'.1.1
      <= length st.1.2 + unflagged ids st.1.1)%nat.
Proof.
  destruct st as [[bs queue] conflicts]. cbn [fst snd]. intros Hin Hlt.
  unfold candidate. cbv zeta.
  destruct (Block.GetAlignFlag (bs !!! id)) eqn:Hflag; [cbn; lia | ].
  destruct (negb (proximity d tH tV s (cand_rect (bs !!! id))));
    [cbn; lia | ].
  destruct (target d tH tV s (cand_rect (bs !!! id))) as [v | ];
    [ | cbn; lia].
  destruct (CalculateOverlap (<[id := set_coord d v (bs !!! id)]> bs));
    cbn [fst snd]; rewrite list_insert_insert_eq, length_insert;
    (split; [reflexivity | ]).
  - rewrite (unflagged_same ids bs); [lia | ]. intros i.
    destruct (decide (i = id)) as [-> | Hi].
    + rewrite list_lookup_total_insert_eq by exact Hlt.
      rewrite !set_coord_flag. reflexivity.
    + rewrite list_lookup_total_insert_ne by congruence. reflexivity.
  - rewrite length_app. cbn [length].
    pose proof (unflagged_flagging ids bs
                  (<[id := Block.SetAlignFlag true
                             (set_coord d v (bs !!! id))]> bs) id Hin Hflag)
      as Hdec.
    rewrite list_lookup_total_insert_eq in Hdec by exact Hlt.
    specialize (Hdec eq_refl).
    assert (forall i, i <> id ->
              <[id := Block.SetAlignFlag true (set_coord d v (bs !!! id))]> bs
                !!! i = bs !!! i) as Ho
      by (intros; apply list_lookup_total_insert_ne; congruence).
    specialize (Hdec Ho). lia.
Qed.

Lemma candidates_measure (d : Direction) (tH tV : Q) (s : Rect)
    (ids l : list nat) (st : PassState) :
  (forall id, id ∈ l -> id ∈ ids /\ (id < length st.1.1)%nat) ->
  let st' := foldl (candidate d tH tV s) st l in
  length st'.1.1 = length st.1.1
  /\ (length st'.1.2 + unflagged ids st'.1.1
      <= length st.1.2 + unflagged ids st.1.1)%nat.
Proof.
  revert st. induction l as [ | id l IH]; intros st Hl; cbn [foldl].
  - cbv zeta. lia.
  - cbv zeta in *. destruct (Hl id) as [Hin Hlt]; [left | ].
    destruct (candidate_measure d tH tV s ids st id Hin Hlt) as [H1 H2].
    cbv zeta in H1, H2.
    destruct (IH (candidate d tH tV s st id)) as [H3 H4].
    { intros i Hi. rewrite H1. apply Hl. right. exact Hi. }
    split; [congruence | lia].
Qed.

Lemma propagate_ends (fuel : nat) (d : Direction) (tH tV : Q)
    (ids : list nat) (st : PassState) :
  (forall id, id ∈ ids -> (id < length st.1.1)%nat) ->
  (length st.1.2 + unflagged ids st.1.1 <= fuel)%nat ->
  let st' := propagate fuel d tH tV ids st in
  st'.1.2 = [] /\ length st'.1.1 = length st.1.1.
Proof.
  revert st. induction fuel as [ | fuel IH]; intros st Hids Hfuel;
    destruct st as [[bs queue] conflicts]; cbn [fst snd propagate] in *.
  - cbv zeta. destruct queue; [auto | cbn in Hfuel; lia].
  - destruct queue as [ | src queue]; [cbv zeta; auto | ].
    cbv zeta.
    destruct (candidates_measure d tH tV (src_rect (bs !!! src)) ids ids
                (bs, queue, conflicts)) as [H1 H2].
    { intros id Hid. split; [exact Hid | apply Hids; exact Hid]. }
    cbv zeta in H1, H2. cbn [fst snd length] in H1, H2, Hfuel.
    destruct (IH (foldl (candidate d tH tV (src_rect (bs !!! src)))
                        (bs, queue, conflicts) ids)) as [H3 H4].
    + intros id Hid. rewrite H1. apply Hids. exact Hid.
    + lia.
    + cbv zeta in H3, H4. split; [exact H3 | congruence].
Qed.

Lemma pass_ends (d : Direction) (reset : bool) (ow oh tH tV : Q)
    (ids : list nat) (st : PassState) :
  (forall id, id ∈ ids -> (id < length st.1.1)%nat) ->
  let st' := pass d reset ow oh tH tV ids st in
  st'.1.2 = [] /\ length st'.1.1 = length st.1.1.
Proof.
  destruct st as [[bs queue] conflicts]. cbn [fst snd]. intros Hids.
  unfold pass. cbv zeta.
  destruct (seeding_spec d reset ow oh ids (bs, queue)) as [_ Hl].
  cbv zeta in Hl. cbn [fst snd] in Hl.
  destruct (propagate_ends
              (length (foldl (mark_seed d reset ow oh) (bs, queue) ids).2
               + length ids) d tH tV ids
              ((foldl (mark_seed d reset ow oh) (bs, queue) ids).1,
               (foldl (mark_seed d reset ow oh) (bs, queue) ids).2,
               conflicts)) as [H1 H2].
  - cbn [fst snd]. intros id Hid. rewrite Hl. apply Hids. exact Hid.
  - cbn [fst snd].
    pose proof (unflagged_le ids
                  (foldl (mark_seed d reset ow oh) (bs, queue) ids).1). lia.
  - cbv zeta in H1, H2. cbn [fst snd] in H2. split; [exact H1 | congruence].
Qed.

Lemma macro_ids_range (k : nat) (bs : list Block.t) (id : nat) :
  id ∈ macro_ids k bs -> (k <= id < k + length bs)%nat.
Proof.
  revert k. induction bs as [ | b bs IH]; intros k Hid; cbn in Hid.
  - inversion Hid.
  - destruct (is_macro b).
    + apply elem_of_cons in Hid as [-> | Hid]; [cbn; lia | ].
      apply IH in Hid. cbn. lia.
    + apply IH in Hid. cbn. lia.
Qed.

(** A move that [CalculateOverlap] rejects is taken back: the geometry of
    every block and the queue are as before. *)
Lemma candidate_conflict (d : Direction) (tH tV : Q) (s : Rect)
    (st : PassState) (id : nat) :
  (candidate d tH tV s st id).2 <> st.2 ->
  geometry <$> (candidate d tH tV s st id).1.1 = geometry <$> st.1.1
  /\ (candidate d tH tV s st id).1.2 = st.1.2.
Proof.
  destruct st as [[bs queue] conflicts]. cbn [fst snd].
  unfold candidate.
  destruct (Block.GetAlignFlag (bs !!! id)); [cbn; congruence | ].
  destruct (negb (proximity d tH tV s (cand_rect (bs !!! id))));
    [cbn; congruence | ].
  destruct (target d tH tV s (cand_rect (bs !!! id))) as [v | ];
    [ | cbn; congruence].
  destruct (CalculateOverlap (<[id := set_coord d v (bs !!! id)]> bs));
    cbn [fst snd]; [ | congruence].
  intros _. split; [ | reflexivity].
  rewrite list_insert_insert_eq. apply insert_same_geometry.
  apply set_coord_geometry_back.
Qed.

(** C6, as the code has it.  When the macros of the input do not overlap
    and lie inside the outline, the macros of the aligned layout do not
    overlap either, and every pass ends with an empty queue.  The snapping
    stage moves macros without a test (inside the outline it cannot make
    them overlap); a move of a propagation pass that makes
    [CalculateOverlap] report an overlap is taken back. *)
Theorem AlignMacro_keeps_macros_apart (s : SimulatedAnnealingCore.t) :
  CalculateOverlap (blocks_ s) = false ->
  (forall b, b ∈ blocks_ s -> is_macro b = true ->
             inside_outline (outline_width_ (config s))
                            (outline_height_ (config s)) b) ->
  CalculateOverlap (blocks_ (AlignMacro s)) = false
  /\ (align_blocks (outline_width_ (config s)) (outline_height_ (config s))
                   (blocks_ s)).1.2 = []
  /\ forall d tH tV src st id,
       (candidate d tH tV src st id).2 <> st.2 ->
       geometry <$> (candidate d tH tV src st id).1.1 = geometry <$> st.1.1.
Proof.
  intros Hov Hin.
  split; [ | split; [ | intros; apply candidate_conflict; assumption]].
  - unfold AlignMacro. cbn [blocks_ set_blocks]. unfold align_blocks.
    cbv zeta. repeat apply pass_apart. cbn [fst snd].
    apply snap_stage_apart; assumption.
  - unfold align_blocks. cbv zeta.
    set (ow := outline_width_ (config s)).
    set (oh := outline_height_ (config s)).
    set (th := thresholds ow oh (blocks_ s)).
    set (snapped := snap_stage ow oh (blocks_ s)).
    set (ids := macro_ids 0 snapped).
    assert (forall id, id ∈ ids -> (id < length snapped)%nat) as Hids
      by (intros id Hid; apply macro_ids_range in Hid; lia).
    destruct (pass_ends ToLeft false ow oh th.1 th.2 ids (snapped, [], O))
      as [_ H1]; [exact Hids | ]. cbv zeta in H1. cbn [fst snd] in H1.
    destruct (pass_ends ToRight true ow oh th.1 th.2 ids
                (pass ToLeft false ow oh th.1 th.2 ids (snapped, [], O)))
      as [_ H2]; [rewrite H1; exact Hids | ]. cbv zeta in H2.
    destruct (pass_ends ToBottom true ow oh th.1 th.2 ids
                (pass ToRight true ow oh th.1 th.2 ids
                   (pass ToLeft false ow oh th.1 th.2 ids (snapped, [], O))))
      as [_ H3]; [rewrite H2, H1; exact Hids | ]. cbv zeta in H3.
    apply pass_ends. rewrite H3, H2, H1. exact Hids.
Qed.

(** ** The snapping stage is idempotent *)

Lemma snapped_coord_idempotent (o t x w : Q) :
  snapped_coord o t (snapped_coord o t x w) w = snapped_coord o t x w.
Proof.
  unfold snapped_coord.
  destruct (fltb x t) eqn:E1.
  - destruct (fltb 0 t) eqn:E2; [reflexivity | ].
    destruct (fltb (0 + w) o) eqn:E3; [ | reflexivity].
    destruct (fltb (o - (0 + w)) t) eqn:E4; [ | reflexivity].
    apply fltb_ge in E2. apply fltb_lt in E3, E4. lra.
  - destruct (fltb (x + w) o && fltb (o - (x + w)) t) eqn:E2.
    + apply andb_true_iff in E2 as [E2 E3].
      apply fltb_ge in E1. apply fltb_lt in E2, E3.
      assert (fltb (o - w) t = false) as -> by (apply fltb_ge; lra).
      assert (fltb (o - w + w) o = false) as -> by (apply fltb_ge; lra).
      reflexivity.
    + rewrite E1, E2. reflexivity.
Qed.

Lemma snap_to_boundary_Build (ow oh tH tV : Q) name area num_macro is_soft
    aspect_ratio width_limit height_limit width height x y flag :
  snap_to_boundary ow oh tH tV
    (Block.Build name area num_macro is_soft aspect_ratio width_limit
                 height_limit width height x y flag)
  = if (0 <? num_macro)%Z
    then Block.Build name area num_macro is_soft aspect_ratio width_limit
                     height_limit width height
                     (snapped_coord ow tH x width)
                     (snapped_coord oh tV y height) flag
    else Block.Build name area num_macro is_soft aspect_ratio width_limit
                     height_limit width height x y flag.
Proof.
  unfold snap_to_boundary, snapped_coord, is_macro. cbn.
  destruct (0 <? num_macro)%Z; [ | reflexivity].
  destruct (fltb x tH); [ | destruct (fltb (x + width) ow
                                     && fltb (ow - (x + width)) tH)];
    (destruct (fltb y tV); [ | destruct (fltb (y + height) oh
                                        && fltb (oh - (y + height)) tV)]);
    reflexivity.
Qed.

Lemma snap_to_boundary_idempotent (ow oh tH tV : Q) (b : Block.t) :
  snap_to_boundary ow oh tH tV (snap_to_boundary ow oh tH tV b)
  = snap_to_boundary ow oh tH tV b.
Proof.
  destruct b. rewrite snap_to_boundary_Build.
  destruct (0 <? num_macro_)%Z eqn:Hm; rewrite snap_to_boundary_Build, Hm;
    [ | reflexivity].
  rewrite !snapped_coord_idempotent. reflexivity.
Qed.

Lemma thresholds_fmap (f : Block.t -> Block.t) (ow oh : Q) (bs : list Block.t) :
  (forall b, is_macro (f b) = is_macro b
             /\ Block.GetWidth (f b) = Block.GetWidth b
             /\ Block.GetHeight (f b) = Block.GetHeight b) ->
  thresholds ow oh (f <$> bs) = thresholds ow oh bs.
Proof.
  intros Hf. unfold thresholds. generalize (ow / 10, oh / 10).
  induction bs as [ | b bs IH]; intros th0; [reflexivity | ].
  cbn [fmap list_fmap foldl]. cbn [fmap] in IH.
  destruct (Hf b) as (-> & -> & ->). apply IH.
Qed.

Lemma snap_to_boundary_shape (ow oh tH tV : Q) (b : Block.t) :
  is_macro (snap_to_boundary ow oh tH tV b) = is_macro b
  /\ Block.GetWidth (snap_to_boundary ow oh tH tV b) = Block.GetWidth b
  /\ Block.GetHeight (snap_to_boundary ow oh tH tV b) = Block.GetHeight b.
Proof.
  destruct b. rewrite snap_to_boundary_Build. unfold is_macro. cbn.
  destruct (0 <? num_macro_)%Z eqn:Hm; cbn; rewrite ?Hm; auto.
Qed.

(** C7, as the code has it.  The snapping stage of the pass is
    idempotent: snapping a snapped layout moves nothing.  (The whole pass
    is not: a propagation pass can move a macro that the propagation
    passes of the first application left in place.) *)
Theorem snap_stage_idempotent (ow oh : Q) (bs : list Block.t) :
  snap_stage ow oh (snap_stage ow oh bs) = snap_stage ow oh bs.
Proof.
  unfold snap_stage. cbv zeta.
  rewrite thresholds_fmap by (intros; apply snap_to_boundary_shape).
  rewrite <- list_fmap_compose. apply list_fmap_ext. intros i b _.
  apply snap_to_boundary_idempotent.
Qed.

(** * Worked examples *)

Ltac by_computation := vm_compute; reflexivity.


Ltac seqs_of_three :=
  split; unfold is_permutation; cbn; [apply perm_swap | reflexivity].

Ltac each_block := apply Forall_forall; repeat constructor.





(** Two macros with one option each: [Resize] uses up the tape. *)
Lemma Resize_without_resizeable_block_diverges_witness :
  @Resize rational_math (fixed_core [1 # 2; 1 # 2; 1 # 2]) = Err TapeEnd
  /\ @Perturb rational_math
       (set_generator [1 # 10; 1 # 2; 1 # 2; 1 # 2]
                      (fixed_core [1 # 2; 1 # 2; 1 # 2])) = Err TapeEnd.
Proof.
  apply (@Resize_without_resizeable_block_diverges rational_math
           (fixed_core [1 # 2; 1 # 2; 1 # 2]) (1 # 10)).
  - each_block.
  - discriminate.
  - repeat constructor; discriminate.
  - discriminate.
  - reflexivity.
Defined.

(** The three staggered macros stay apart. *)
Lemma AlignMacro_keeps_macros_apart_witness :
  CalculateOverlap (blocks_ staggered_core) = false
  /\ CalculateOverlap (blocks_ (AlignMacro staggered_core)) = false
  /\ (align_blocks 100 100 (blocks_ staggered_core)).1.2 = [].
Proof.
  split; [reflexivity | ].
  destruct (AlignMacro_keeps_macros_apart staggered_core eq_refl)
    as (Hapart & Hqueue & _).
  { intros b Hb _. revert b Hb. each_block; discriminate. }
  split; [exact Hapart | exact Hqueue].
Defined.

(** In [row_core] no two macros overlap; [AlignMacro] snaps the second
    macro to the right edge of the outline, onto the third. *)
Lemma AlignMacro_makes_macros_overlap :
  CalculateOverlap (blocks_ row_core) = false
  /\ CalculateOverlap (blocks_ (AlignMacro row_core)) = true
  /\ Block.GetX <$> blocks_ (AlignMacro row_core) = [0; 9 # 2; 8].
Proof. split; [ | split]; by_computation. Qed.

(** Neither application meets a conflict, and the second moves the third
    macro from [x = 25] to [x = 20]. *)
Lemma AlignMacro_twice_moves_a_macro :
  CalculateOverlap (blocks_ staggered_core) = false
  /\ (align_blocks 100 100 (blocks_ staggered_core)).2 = O
  /\ (align_blocks 100 100 (blocks_ (AlignMacro staggered_core))).2 = O
  /\ Block.GetX <$> blocks_ (AlignMacro staggered_core) = [0; 25; 25]
  /\ Block.GetX <$> blocks_ (AlignMacro (AlignMacro staggered_core))
     = [0; 25; 20].
Proof. repeat split; by_computation. Qed.



(** The cost list of two samples of the three macros. *)
Lemma NormCost_ignores_location_and_notch_witness :
  exists s' samples cost_list,
    @Initialize_run rational_math no_notch
      (three_core 3 2 [1 # 2; 0; 1 # 2; 1 # 2; 0; 1 # 2])
    = Ok (s', samples, cost_list)
    /\ NormCost s' 1 1 1 1 1 0 0 = NormCost s' 1 1 1 1 1 5 7
    /\ last samples = Some (cur s')
    /\ costs_of s'
         ((fun m => with_notch_penalty (notch_penalty_ (cur s'))
                      (with_location_penalty (location_penalty_ (cur s')) m))
            <$> samples)
       = Ok cost_list.
Proof.
  destruct (@NormCost_ignores_location_and_notch rational_math no_notch)
    as [Hsame Hlist].
  eexists _, _, _. split; [by_computation | ].
  split; [apply Hsame | ].
  match goal with
  | |- last ?samples = Some (cur ?s') /\ _ =>
      destruct (Hlist (three_core 3 2 [1 # 2; 0; 1 # 2; 1 # 2; 0; 1 # 2])
                      s' samples _ ltac:(by_computation)) as [Hlast Hcosts]
  end.
  split; [exact Hlast | exact Hcosts].
Defined.

(** A positive swap is rejected, then a resize of the second block: the
    rejected candidate has the second block at [(2, 0)], and [Restore]
    puts it at [(0, 1)], where the candidate of the swap had it. *)
Lemma Restore_moves_the_resized_block :
  exists s1 s2 s3 s4 s5 s6,
    @Perturb rational_math two_core = Ok s1
    /\ @evaluate rational_math no_notch s1 = Ok s2
    /\ Restore s2 = Ok s3
    /\ @Perturb rational_math s3 = Ok s4
    /\ @evaluate rational_math no_notch s4 = Ok s5
    /\ Restore s5 = Ok s6
    /\ action_id_ s5 = 0%Z /\ block_id_ s5 = 1%Z
    /\ (fun b => (Block.GetX b, Block.GetY b)) <$> blocks_ s5
       = [(0, 0); (2, 0)]
    /\ (fun b => (Block.GetX b, Block.GetY b)) <$> blocks_ s6
       = [(0, 0); (0, 1)].
Proof.
  eexists _, _, _, _, _, _.
  repeat (split; [by_computation | ]). by_computation.
Qed.

(** A resize of the second block of [two_core], taken back: the block
    saved before the move is put back whole. *)
Lemma Restore_after_rejection_witness :
  exists s1 s2 s3 blk,
    length (blocks_ two_core) <> 1%nat
    /\ @Perturb rational_math
         (set_generator [1 # 10; 1 # 2; 1 # 2] two_core) = Ok s1
    /\ @evaluate rational_math no_notch s1 = Ok s2
    /\ Restore (set_generator [] s2) = Ok s3
    /\ pos_seq_ s3 = [0; 1]%nat /\ neg_seq_ s3 = [0; 1]%nat
    /\ cur s3 = cur two_core
    /\ action_id_ s2 = 0%Z
    /\ blocks_ two_core !! 1%nat = Some blk
    /\ blocks_ s3 = <[1%nat := blk]> (blocks_ s2).
Proof.
  eexists _, _, _, _. split; [discriminate | ].
  split; [by_computation | ]. split; [by_computation | ].
  split; [by_computation | ].
  match goal with
  | |- pos_seq_ ?s3 = _ /\ _ /\ _ /\ action_id_ ?s2 = _ /\ _ =>
      destruct (@Restore_after_rejection rational_math no_notch
                  (set_generator [1 # 10; 1 # 2; 1 # 2] two_core) _ s2 s3 []
                  ltac:(discriminate) ltac:(by_computation)
                  ltac:(by_computation) ltac:(by_computation))
        as (Hpos & Hneg & Hcur & _ & Hresize)
  end.
  split; [exact Hpos | ]. split; [exact Hneg | ]. split; [exact Hcur | ].
  split; [reflexivity | ].
  destruct (Hresize eq_refl) as (blk & Hblk & Hblocks).
  vm_compute in Hblk. injection Hblk as <-.
  split; [reflexivity | exact Hblocks].
Defined.

(** * Further properties of the engine *)

(** ** What [CalculateOverlap] reports *)

Lemma Forall_filter_iff {A : Type} (P : A -> Prop) (p : A -> bool)
    (l : list A) :
  Forall P (List.filter p l) <->
  (forall j b, l !! j = Some b -> p b = true -> P b).
Proof.
  induction l as [ | x l IH]; cbn [List.filter].
  - split; [intros _ j b Hj; inversion Hj | constructor].
  - assert ((forall j b, (x :: l) !! j = Some b -> p b = true -> P b)
            <-> ((p x = true -> P x)
                 /\ forall j b, l !! j = Some b -> p b = true -> P b)) as ->.
    { split.
      - intros H. split; [apply (H O); reflexivity | ].
        intros j b. apply (H (S j)).
      - intros [Hx Hl] [ | j] b Hj; cbn in Hj; [ | eauto].
        injection Hj as ->. exact Hx. }
    rewrite <- IH. destruct (p x) eqn:Hp.
    + rewrite Forall_cons. tauto.
    + split; [intros H; split; [discriminate | exact H] | tauto].
Qed.

Lemma ForallOrdPairs_filter {A : Type} (R : A -> A -> Prop) (p : A -> bool)
    (l : list A) :
  ForallOrdPairs R (List.filter p l) <->
  (forall i j a b, (i < j)%nat -> l !! i = Some a -> l !! j = Some b ->
                   p a = true -> p b = true -> R a b).
Proof.
  induction l as [ | x l IH]; cbn [List.filter].
  - split; [intros _ i j a b _ Hi; inversion Hi | constructor].
  - assert ((forall i j a b, (i < j)%nat -> (x :: l) !! i = Some a ->
               (x :: l) !! j = Some b -> p a = true -> p b = true -> R a b)
            <-> ((p x = true ->
                  forall j b, l !! j = Some b -> p b = true -> R x b)
                 /\ forall i j a b, (i < j)%nat -> l !! i = Some a ->
                      l !! j = Some b -> p a = true -> p b = true -> R a b))
      as ->.
    { split.
      - intros H. split.
        + intros Hx j b Hj. apply (H O (S j)); [lia | reflexivity | exact Hj
                                                | exact Hx].
        + intros i j a b Hij. apply (H (S i) (S j)). lia.
      - intros [Hx Hl] [ | i] [ | j] a b Hij Hi Hj; cbn in Hi, Hj; try lia.
        + injection Hi as ->. intros Ha. eauto.
        + apply (Hl i j); [lia | exact Hi | exact Hj]. }
    rewrite <- IH. destruct (p x) eqn:Hp.
    + split.
      * intros H. inversion H as [ | ? ? Hall Hrest]; subst.
        split; [ | exact Hrest].
        intros _. apply (proj1 (Forall_filter_iff (R x) p l)). exact Hall.
      * intros [Hx Hrest]. constructor; [ | exact Hrest].
        apply (proj2 (Forall_filter_iff (R x) p l)). exact (Hx eq_refl).
    + split; [intros H; split; [discriminate | exact H] | tauto].
Qed.

(** X1. [CalculateOverlap] returns [false] exactly when every two hard
    macros of the list overlap in zero area; soft blocks are not looked
    at. *)
Theorem CalculateOverlap_reports_macro_pairs (bs : list Block.t) :
  CalculateOverlap bs = false <->
  (forall i j a b, (i < j)%nat -> bs !! i = Some a -> bs !! j = Some b ->
     is_macro a = true -> is_macro b = true -> overlap_area a b == 0).
Proof.
  rewrite CalculateOverlap_false. unfold macros.
  apply ForallOrdPairs_filter.
Qed.

(** ** The bounding box of a packed layout *)

Lemma raise_nonneg (t : Q) (l : list Q) :
  Forall (Qle 0) l -> Forall (Qle 0) (raise t l).
Proof.
  induction 1 as [ | x l Hx Hl IH]; [constructor | ].
  simpl. destruct (fltb x t) eqn:E; [ | constructor; assumption].
  apply fltb_lt in E. constructor; [lra | exact IH].
Qed.

Lemma place_block_nonneg (ax : Axis) (mt : list (nat * nat))
    (st : list Block.t * list Q) (b : nat) :
  axis_ok ax ->
  (forall i, 0 <= coord ax (st.1 !!! i)) -> Forall (Qle 0) st.2 ->
  (forall i, 0 <= coord ax ((place_block ax mt st b).1 !!! i))
  /\ Forall (Qle 0) (place_block ax mt st b).2.
Proof.
  intros Hax Hc Hl. destruct st as [bs len]. cbn [fst snd] in *.
  unfold place_block. cbn [fst snd].
  assert (0 <= len !!! (mt !!! b).2) as Hv.
  { destruct (len !! (mt !!! b).2) as [v | ] eqn:E.
    - rewrite (list_lookup_total_correct _ _ _ E).
      exact (proj1 (Forall_lookup _ _) Hl _ _ E).
    - rewrite list_lookup_total_alt, E. cbn. lra. }
  split.
  - intros i. rewrite list_lookup_total_alter.
    case_decide as Hd; [ | apply Hc].
    match goal with
    | |- 0 <= coord ax (place ax ?v ?x) => destruct (Hax v x) as [-> _]
    end.
    exact Hv.
  - apply Forall_app. split.
    + apply Forall_take. exact Hl.
    + apply raise_nonneg. apply Forall_drop. exact Hl.
Qed.

Lemma sweep_nonneg (ax : Axis) (mt : list (nat * nat)) (order : list nat)
    (bs : list Block.t) (i : nat) :
  axis_ok ax -> (forall i, 0 <= coord ax (bs !!! i)) ->
  0 <= coord ax ((sweep ax mt order bs).1 !!! i).
Proof.
  intros Hax Hc. unfold sweep.
  assert (Forall (Qle 0) (replicate (length bs) 0)) as Hl
    by (apply Forall_replicate; lra).
  revert Hl. generalize (replicate (length bs) 0). revert bs Hc.
  induction order as [ | b order IH]; intros bs Hc len Hl; simpl.
  - apply Hc.
  - destruct (place_block_nonneg ax mt (bs, len) b Hax Hc Hl) as [Hc' Hl'].
    destruct (place_block ax mt (bs, len) b) as [bs' len'] eqn:E.
    apply IH; assumption.
Qed.

(** After a sweep over a permutation every block ends at or before the
    last entry of [length]. *)
Lemma sweep_box (ax : Axis) (n : nat) (m : list (nat * nat))
    (order neg : list nat) (bs : list Block.t) (a : nat) :
  axis_ok ax -> is_permutation n order -> is_permutation n neg ->
  length m = n -> length bs = n -> (a < n)%nat ->
  let out := sweep ax (fill_match 0 order neg m) order bs in
  coord ax (out.1 !!! a) + extent ax (out.1 !!! a) <= out.2 !!! (n - 1)%nat.
Proof.
  intros Hax Ho Hn Hm Hbs Ha out. set (mt := fill_match 0 order neg m) in *.
  assert (forall c, (c < n)%nat -> ((mt !!! c).2 < n)%nat) as Hq.
  { intros c Hc.
    pose proof (fill_match_position n order neg m c
                  (is_permutation_length _ _ Ho) Hn Hm Hc) as Hqc.
    apply lookup_lt_Some in Hqc.
    rewrite (is_permutation_length _ _ Hn) in Hqc. exact Hqc. }
  assert (sweep_inv ax (fun c => (mt !!! c).2)
            (fun i => extent ax (bs !!! i)) n ([] ++ order)
            (sweep ax mt order bs)) as (_ & _ & _ & He & Hc & _).
  { apply sweep_fold_inv; auto.
    - unfold sweep_inv. cbn [fst snd]. rewrite Hbs.
      repeat split; auto using length_replicate, nondecreasing_replicate.
      + intros c j Hc. inversion Hc.
      + intros c c' (i & j & _ & Hi & _). inversion Hi.
    - eapply is_permutation_NoDup; eauto.
    - intros c Hc. apply (is_permutation_elem _ _ _ Ho) in Hc. auto. }
  fold out in He, Hc. rewrite He. apply Hc.
  - cbn. apply (is_permutation_elem _ _ _ Ho). exact Ha.
  - specialize (Hq a Ha). lia.
Qed.

(** X2. In a packed layout every block lies inside the bounding box the
    packing records: its lower left corner is not left of or below the
    origin, its upper right corner is within [width_] and [height_], and
    [area_] is their product. *)
Theorem PackFloorplan_bounding_box (s : SimulatedAnnealingCore.t)
    (i : nat) (b : Block.t) :
  seqs_ok s -> blocks_ (PackFloorplan s) !! i = Some b ->
  0 <= Block.GetX b
  /\ Block.GetX b + Block.GetWidth b <= width_ (cur (PackFloorplan s))
  /\ 0 <= Block.GetY b
  /\ Block.GetY b + Block.GetHeight b <= height_ (cur (PackFloorplan s))
  /\ area_ (cur (PackFloorplan s))
     = width_ (cur (PackFloorplan s)) * height_ (cur (PackFloorplan s)).
Proof.
  intros [Hp Hn] Hb.
  pose proof (lookup_lt_Some _ _ _ Hb) as Hi.
  rewrite PackFloorplan_length in Hi.
  apply list_lookup_total_correct in Hb. subst b.
  rewrite PackFloorplan_blocks. cbv zeta.
  set (n := length (blocks_ s)) in *.
  set (bs0 := (fun b => Block.SetY 0 (Block.SetX 0 b)) <$> blocks_ s).
  set (mtx := fill_match 0 (pos_seq_ s) (neg_seq_ s) (replicate n (0, 0)%nat)).
  set (sx := sweep X_axis mtx (pos_seq_ s) bs0).
  set (mty := fill_match 0 (reverse (pos_seq_ s)) (neg_seq_ s) mtx).
  set (sy := sweep Y_axis mty (reverse (pos_seq_ s)) sx.1).
  assert (length bs0 = n) as Hl0 by (unfold bs0; rewrite length_fmap; auto).
  assert (length sx.1 = n) as Hlx by (unfold sx; rewrite sweep_length; auto).
  assert (is_permutation n (reverse (pos_seq_ s))) as Hr.
  { unfold is_permutation in *. rewrite reverse_Permutation. exact Hp. }
  assert (forall k, 0 <= Block.GetX (bs0 !!! k)
                    /\ 0 <= Block.GetY (bs0 !!! k)) as H0.
  { intros k. destruct (bs0 !! k) as [c | ] eqn:E.
    - rewrite (list_lookup_total_correct _ _ _ E). unfold bs0 in E.
      apply list_lookup_fmap_Some in E as (c0 & -> & _). cbn. lra.
    - rewrite list_lookup_total_alt, E. cbn. lra. }
  assert (PackFloorplan s
          = set_cur (set_box (sx.2 !!! (n - 1)%nat) (sy.2 !!! (n - 1)%nat)
                       (sx.2 !!! (n - 1)%nat * sy.2 !!! (n - 1)%nat) (cur s))
              (set_blocks sy.1 s)) as -> by reflexivity.
  cbn [cur set_cur width_ height_ area_ set_box].
  split; [ | split; [ | split; [ | split; [ | reflexivity]]]].
  - unfold sy.
    rewrite (sweep_frame Block.GetX Y_axis) by reflexivity.
    apply (sweep_nonneg X_axis); [exact axis_ok_X | apply H0].
  - unfold sy.
    rewrite (sweep_frame Block.GetX Y_axis) by reflexivity.
    rewrite (sweep_frame Block.GetWidth Y_axis) by reflexivity.
    apply (sweep_box X_axis n); auto using axis_ok_X, length_replicate.
  - apply (sweep_nonneg Y_axis); [exact axis_ok_Y | ].
    intros k. unfold sx.
    rewrite (sweep_frame Block.GetY X_axis) by reflexivity. apply H0.
  - apply (sweep_box Y_axis n); auto using axis_ok_Y.
    unfold mtx. rewrite fill_match_length. apply length_replicate.
Qed.

Lemma raise_entries (t : Q) (l : list Q) (v : Q) :
  v ∈ raise t l -> v = t \/ v ∈ l.
Proof.
  induction l as [ | x l IH]; simpl; [intros H; inversion H | ].
  destruct (fltb x t); [ | auto].
  intros H. apply elem_of_cons in H as [-> | H]; [auto | ].
  destruct (IH H) as [-> | Hl]; [auto | ]. right. right. exact Hl.
Qed.

Lemma place_block_reached (ax : Axis) (mt : list (nat * nat))
    (done : list nat) (st : list Block.t * list Q) (b : nat) :
  b ∉ done -> reached ax done st ->
  reached ax (done ++ [b]) (place_block ax mt st b).
Proof.
  intros Hnew Hr. destruct st as [bs len]. unfold reached in *.
  unfold place_block. cbn [fst snd] in *. intros v Hv.
  assert (forall a, a ∈ done ->
            alter (place ax (len !!! (mt !!! b).2)) b bs !!! a = bs !!! a)
    as Hsame.
  { intros a Ha. apply list_lookup_total_alter_ne. congruence. }
  assert (v ∈ len -> v = 0 \/ exists a, a ∈ done ++ [b] /\
            v = coord ax (alter (place ax (len !!! (mt !!! b).2)) b bs !!! a)
                + extent ax
                    (alter (place ax (len !!! (mt !!! b).2)) b bs !!! a))
    as Hold.
  { intros Hin. destruct (Hr v Hin) as [-> | (a & Ha & ->)]; [auto | ].
    right. exists a. rewrite (Hsame a Ha).
    split; [apply elem_of_app; auto | reflexivity]. }
  apply elem_of_app in Hv as [Hv | Hv].
  - apply Hold. exact (subseteq_take _ _ _ Hv).
  - apply raise_entries in Hv as [-> | Hv].
    + right. exists b. split; [ | reflexivity].
      apply elem_of_app. right. apply list_elem_of_here.
    + apply Hold. exact (subseteq_drop _ _ _ Hv).
Qed.

Lemma sweep_fold_reached (ax : Axis) (mt : list (nat * nat))
    (order done : list nat) (st : list Block.t * list Q) :
  NoDup (done ++ order) -> reached ax done st ->
  reached ax (done ++ order) (foldl (place_block ax mt) st order).
Proof.
  revert done st.
  induction order as [ | b order IH]; intros done st Hnd Hr; simpl.
  - rewrite app_nil_r. exact Hr.
  - replace (done ++ b :: order) with ((done ++ [b]) ++ order) in *
      by (rewrite <- app_assoc; reflexivity).
    apply IH; [exact Hnd | ].
    apply place_block_reached; [ | exact Hr].
    apply NoDup_app in Hnd as (Hnd & _ & _).
    apply NoDup_app in Hnd as (_ & Hdis & _).
    intros Hbd. apply (Hdis b Hbd). left.
Qed.

Lemma sweep_reached (ax : Axis) (mt : list (nat * nat)) (order : list nat)
    (bs : list Block.t) :
  NoDup order -> reached ax order (sweep ax mt order bs).
Proof.
  intros Hnd. apply (sweep_fold_reached ax mt order []); [exact Hnd | ].
  intros v Hv. cbn in Hv. apply elem_of_replicate in Hv as [-> _]. auto.
Qed.

(** X3. The bounding box is tight: [width_] is zero or the right edge of
    a block of the packed layout, and [height_] is zero or the upper edge
    of one. *)
Theorem PackFloorplan_box_is_tight (s : SimulatedAnnealingCore.t) :
  seqs_ok s ->
  (width_ (cur (PackFloorplan s)) = 0
   \/ exists i b, blocks_ (PackFloorplan s) !! i = Some b
        /\ width_ (cur (PackFloorplan s))
           = Block.GetX b + Block.GetWidth b)
  /\ (height_ (cur (PackFloorplan s)) = 0
      \/ exists i b, blocks_ (PackFloorplan s) !! i = Some b
           /\ height_ (cur (PackFloorplan s))
              = Block.GetY b + Block.GetHeight b).
Proof.
  intros [Hp Hn].
  set (n := length (blocks_ s)).
  set (bs0 := (fun b => Block.SetY 0 (Block.SetX 0 b)) <$> blocks_ s).
  set (mtx := fill_match 0 (pos_seq_ s) (neg_seq_ s) (replicate n (0, 0)%nat)).
  set (sx := sweep X_axis mtx (pos_seq_ s) bs0).
  set (mty := fill_match 0 (reverse (pos_seq_ s)) (neg_seq_ s) mtx).
  set (sy := sweep Y_axis mty (reverse (pos_seq_ s)) sx.1).
  assert (PackFloorplan s
          = set_cur (set_box (sx.2 !!! (n - 1)%nat) (sy.2 !!! (n - 1)%nat)
                       (sx.2 !!! (n - 1)%nat * sy.2 !!! (n - 1)%nat) (cur s))
              (set_blocks sy.1 s)) as -> by reflexivity.
  cbn [cur set_cur width_ height_ set_box blocks_ set_blocks].
  assert (length bs0 = n) as Hl0 by (unfold bs0; rewrite length_fmap; auto).
  assert (length sx.1 = n) as Hlx by (unfold sx; rewrite sweep_length; auto).
  assert (length sy.1 = n) as Hly by (unfold sy; rewrite sweep_length; auto).
  assert (is_permutation n (reverse (pos_seq_ s))) as Hr.
  { unfold is_permutation in *. rewrite reverse_Permutation. exact Hp. }
  assert (forall (l : list Q) (P : Q -> Prop),
            (forall v, v ∈ l -> v = 0 \/ P v) ->
            l !!! (n - 1)%nat = 0 \/ P (l !!! (n - 1)%nat)) as Hlast.
  { intros l P H. destruct (l !! (n - 1)%nat) as [v | ] eqn:E.
    - rewrite (list_lookup_total_correct _ _ _ E).
      apply H. eapply list_elem_of_lookup_2; eauto.
    - left. rewrite list_lookup_total_alt, E. reflexivity. }
  split.
  - destruct (Hlast sx.2 _ (sweep_reached X_axis mtx (pos_seq_ s) bs0
                              (is_permutation_NoDup _ _ Hp)))
      as [H0 | (a & Ha & Hv)]; [left; exact H0 | right].
    apply (is_permutation_elem _ _ _ Hp) in Ha.
    exists a, (sy.1 !!! a). split.
    + apply list_lookup_lookup_total_lt. lia.
    + rewrite Hv. unfold sy.
      rewrite (sweep_frame Block.GetX Y_axis) by reflexivity.
      rewrite (sweep_frame Block.GetWidth Y_axis) by reflexivity.
      reflexivity.
  - destruct (Hlast sy.2 _ (sweep_reached Y_axis mty (reverse (pos_seq_ s))
                              sx.1 (is_permutation_NoDup _ _ Hr)))
      as [H0 | (a & Ha & Hv)]; [left; exact H0 | right].
    apply (is_permutation_elem _ _ _ Hr) in Ha.
    exists a, (sy.1 !!! a). split.
    + apply list_lookup_lookup_total_lt. lia.
    + exact Hv.
Qed.

(** ** Packing twice *)

Lemma sweep_at_origin (ax : Axis) (mt : list (nat * nat)) (order : list nat)
    (bs : list Block.t) :
  (forall v b, at_origin (place ax v b) = at_origin b) ->
  at_origin <$> (sweep ax mt order bs).1 = at_origin <$> bs.
Proof.
  intros Hf. apply list_eq. intros i. rewrite !list_lookup_fmap.
  destruct (decide (i < length bs)%nat) as [Hi | Hi].
  - rewrite !list_lookup_lookup_total_lt by (rewrite ?sweep_length; exact Hi).
    cbn. f_equal. apply (sweep_frame at_origin). exact Hf.
  - rewrite !lookup_ge_None_2 by (rewrite ?sweep_length; lia). reflexivity.
Qed.

Lemma PackFloorplan_at_origin (s : SimulatedAnnealingCore.t) :
  at_origin <$> blocks_ (PackFloorplan s) = at_origin <$> blocks_ s.
Proof.
  rewrite PackFloorplan_blocks. cbv zeta.
  rewrite !sweep_at_origin by reflexivity.
  rewrite <- list_fmap_compose. apply list_fmap_ext. intros i b _.
  reflexivity.
Qed.

(** X4. [PackFloorplan] changes nothing of a block but its position, and
    packing a packed layout again gives the same layout: the positions
    and the bounding box depend only on the two sequences and on the
    widths and heights. *)
Theorem PackFloorplan_idempotent (s : SimulatedAnnealingCore.t) :
  at_origin <$> blocks_ (PackFloorplan s) = at_origin <$> blocks_ s
  /\ PackFloorplan (PackFloorplan s) = PackFloorplan s.
Proof.
  split; [apply PackFloorplan_at_origin | ].
  pose proof (PackFloorplan_at_origin s) as Hb.
  pose proof (PackFloorplan_length s) as Hl.
  unfold PackFloorplan at 1. cbv zeta.
  change (fun b => Block.SetY 0 (Block.SetX 0 b)) with at_origin.
  rewrite Hb, Hl. reflexivity.
Qed.

(** ** Moves *)

Lemma SingleSwap_Ok (flag : bool) (s s' : SimulatedAnnealingCore.t) :
  SingleSwap flag s = Ok s' ->
  exists (index1 index2 : Z) (l : list nat),
    index1 <> index2
    /\ swap_ (if flag then pos_seq_ s else neg_seq_ s) index1 index2 = Ok l
    /\ (if flag then pos_seq_ s' else neg_seq_ s') = l
    /\ (if flag then neg_seq_ s' else pos_seq_ s')
       = (if flag then neg_seq_ s else pos_seq_ s).
Proof.
  intros H. unfold SingleSwap in H.
  bind_inv H as r Hr. destruct r as [[index1 index2] g].
  apply two_indices_Ok in Hr.
  destruct flag; bind_inv H as l Hl; ok_inv H;
    exists index1, index2, l; auto.
Qed.

(** X5. A single swap exchanges the entries at two different positions
    of one sequence and leaves the rest of that sequence, the other
    sequence and the blocks as they are; on a duplicate-free sequence it
    never returns the sequence it was given. *)
Theorem SingleSwap_exchanges_two_entries (flag : bool)
    (s s' : SimulatedAnnealingCore.t) :
  SingleSwap flag s = Ok s' ->
  let old := if flag then pos_seq_ s else neg_seq_ s in
  let new := if flag then pos_seq_ s' else neg_seq_ s' in
  blocks_ s' = blocks_ s
  /\ (if flag then neg_seq_ s' else pos_seq_ s')
     = (if flag then neg_seq_ s else pos_seq_ s)
  /\ exists i j a b,
       i <> j /\ old !! i = Some a /\ old !! j = Some b
       /\ new !! i = Some b /\ new !! j = Some a
       /\ (forall k, k <> i -> k <> j -> new !! k = old !! k)
       /\ (NoDup old -> new <> old).
Proof.
  intros H old new.
  destruct (SingleSwap_frame _ _ _ H) as (_ & _ & Hb & _).
  apply SingleSwap_Ok in H as (index1 & index2 & l & Hne & Hs & Hnew & Hoth).
  fold old in Hs. fold new in Hnew.
  split; [exact Hb | ]. split; [exact Hoth | ].
  apply swap_Ok in Hs as (a & b & Ha & Hb' & H1 & H2 & ->).
  assert (Z.to_nat index1 <> Z.to_nat index2) as Hij by lia.
  pose proof (lookup_lt_Some _ _ _ Ha) as Hi.
  pose proof (lookup_lt_Some _ _ _ Hb') as Hj.
  exists (Z.to_nat index1), (Z.to_nat index2), a, b.
  assert (new !! Z.to_nat index1 = Some b) as Hni.
  { rewrite Hnew, list_lookup_insert_ne by congruence.
    apply list_lookup_insert_eq. exact Hi. }
  split; [exact Hij | ]. split; [exact Ha | ]. split; [exact Hb' | ].
  split; [exact Hni | ]. split.
  { rewrite Hnew. apply list_lookup_insert_eq.
    rewrite length_insert. exact Hj. }
  split.
  - intros k Hk1 Hk2. rewrite Hnew.
    rewrite !list_lookup_insert_ne by congruence. reflexivity.
  - intros Hnd Heq. rewrite Heq, Ha in Hni. injection Hni as ->.
    apply Hij. eapply NoDup_lookup; eauto.
Qed.

Lemma index_of_empty (r : Q) : index_of r 0 = 0%Z.
Proof.
  unfold index_of, Qfloor, Qmult, inject_Z. cbn [Qnum Qden Z.of_nat].
  rewrite Z.mul_0_r. apply Z.div_0_l. lia.
Qed.

Lemma redraw_distinct_stuck (g : Tape) :
  redraw_distinct 0 0 0 g = Err TapeEnd.
Proof.
  induction g as [ | r g IH]; [reflexivity | ].
  cbn [redraw_distinct Z.eqb]. rewrite index_of_empty. exact IH.
Qed.

Lemma two_indices_stuck (g : Tape) : two_indices 0 g = Err TapeEnd.
Proof.
  unfold two_indices, random_index.
  destruct g as [ | r1 [ | r2 g]]; try reflexivity.
  cbn [uniform bind]. rewrite !index_of_empty. cbn [bind].
  rewrite redraw_distinct_stuck. reflexivity.
Qed.

Lemma Resize_empty `{M : MathLib} (s : SimulatedAnnealingCore.t) :
  blocks_ s = [] -> Resize s = Err OutOfRange \/ Resize s = Err TapeEnd.
Proof.
  intros Hb. unfold Resize. rewrite Hb. unfold random_index.
  destruct (generator_ s) as [ | r g]; [right; reflexivity | ].
  cbn [uniform bind length]. rewrite index_of_empty.
  left. destruct g; reflexivity.
Qed.

Lemma SingleSwap_empty (flag : bool) (s : SimulatedAnnealingCore.t) :
  blocks_ s = [] -> SingleSwap flag s = Err TapeEnd.
Proof.
  intros Hb. unfold SingleSwap. rewrite Hb. cbn [length].
  rewrite two_indices_stuck. reflexivity.
Qed.

Lemma DoubleSwap_empty (s : SimulatedAnnealingCore.t) :
  blocks_ s = [] -> DoubleSwap s = Err TapeEnd.
Proof.
  intros Hb. unfold DoubleSwap. rewrite Hb. cbn [length].
  rewrite two_indices_stuck. reflexivity.
Qed.

(** X6. A core without blocks cannot be perturbed: the resize move reads
    [blocks_[0]] of the empty vector, and a swap move draws the index 0
    twice and redraws it forever.  ([Perturb] only returns early for
    exactly one block.) *)
Theorem Perturb_without_blocks `{M : MathLib}
    (s : SimulatedAnnealingCore.t) :
  blocks_ s = [] ->
  Perturb s = Err OutOfRange \/ Perturb s = Err TapeEnd.
Proof.
  intros Hb. unfold Perturb. rewrite Hb. cbn [length Nat.eqb].
  match goal with
  | |- context [uniform ?g0] => destruct g0 as [ | op g]
  end; [right; reflexivity | ].
  cbn [uniform bind].
  destruct (fleb op (resize_prob_ (config s))).
  - match goal with
    | |- context [Resize ?s0] =>
        destruct (Resize_empty s0 Hb) as [-> | ->]; auto
    end.
  - right.
    destruct (fleb op (pos_swap_prob_ (config s)));
      [rewrite SingleSwap_empty by exact Hb; reflexivity | ].
    destruct (fleb op (neg_swap_prob_ (config s)));
      [rewrite SingleSwap_empty by exact Hb; reflexivity | ].
    rewrite DoubleSwap_empty by exact Hb. reflexivity.
Qed.

Lemma reshaped_refl (b : Block.t) : reshaped b b.
Proof. destruct b. reflexivity. Qed.

Lemma set_shape_reshaped (w h : Q) (b : Block.t) :
  reshaped b (Block.set_shape w h b).
Proof. destruct b. reflexivity. Qed.

Lemma width_then_height_reshaped (w : Q) (b b' : Block.t) :
  Block.width_then_height w b = Ok b' -> reshaped b b'.
Proof.
  intros H. apply width_then_height_Ok in H as [-> _].
  apply set_shape_reshaped.
Qed.

Lemma height_then_width_reshaped (h : Q) (b b' : Block.t) :
  Block.height_then_width h b = Ok b' -> reshaped b b'.
Proof.
  intros H. apply height_then_width_Ok in H as [-> _].
  apply set_shape_reshaped.
Qed.

Lemma ChangeWidth_reshaped (width : Q) (b b' : Block.t) :
  Block.ChangeWidth width b = Ok b' -> reshaped b b'.
Proof.
  intros H. unfold Block.ChangeWidth in H.
  destruct (negb (Block.is_soft_ b)); [ok_inv H; apply reshaped_refl | ].
  bind_inv H as lim0 H0.
  destruct (fleb _ width); [eauto using width_then_height_reshaped | ].
  bind_inv H as limn Hn.
  destruct (fleb width _); [eauto using width_then_height_reshaped | ].
  bind_inv H as i Hi. bind_inv H as cur Hcur.
  destruct (fleb width _); [eauto using width_then_height_reshaped | ].
  bind_inv H as j Hj. bind_inv H as prev Hprev.
  destruct (fltb _ _); eauto using width_then_height_reshaped.
Qed.

Lemma ChangeHeight_reshaped (height : Q) (b b' : Block.t) :
  Block.ChangeHeight height b = Ok b' -> reshaped b b'.
Proof.
  intros H. unfold Block.ChangeHeight in H.
  destruct (negb (Block.is_soft_ b)); [ok_inv H; apply reshaped_refl | ].
  bind_inv H as lim0 H0.
  destruct (fleb height _); [eauto using height_then_width_reshaped | ].
  bind_inv H as limn Hn.
  destruct (fleb _ height); [eauto using height_then_width_reshaped | ].
  bind_inv H as i Hi. bind_inv H as cur Hcur.
  destruct (fleb _ height); [eauto using height_then_width_reshaped | ].
  bind_inv H as j Hj. bind_inv H as prev Hprev.
  destruct (fltb _ _); eauto using height_then_width_reshaped.
Qed.

Lemma ChooseAspectRatioRandom_reshaped `{M : MathLib} (b b' : Block.t)
    (g g' : Tape) :
  Block.ChooseAspectRatioRandom b g = Ok (b', g') -> reshaped b b'.
Proof.
  intros Hr. unfold Block.ChooseAspectRatioRandom in Hr.
  bind_inv Hr as [index1 g1] Hi. bind_inv Hr as range Hrange.
  bind_inv Hr as [ar g2] Har. bind_inv Hr as blk Hblk. ok_inv Hr.
  eauto using height_then_width_reshaped.
Qed.

Lemma ResizeHardBlock_reshaped (b b' : Block.t) (g g' : Tape) :
  Block.ResizeHardBlock b g = Ok (b', g') -> reshaped b b'.
Proof.
  intros Hr. unfold Block.ResizeHardBlock in Hr.
  destruct (Block.num_macro_ b =? 0)%Z; [ok_inv Hr; apply reshaped_refl | ].
  bind_inv Hr as [index1 g1] Hi. bind_inv Hr as opt Hopt. ok_inv Hr.
  apply set_shape_reshaped.
Qed.

(** X7. [Resize] gives one block another width and height and changes
    nothing else of the layout: the block is a resizable one, its index is
    recorded in [block_id_], its position and every other block stay as
    they are, and so do both sequences. *)
Theorem Resize_reshapes_one_block `{M : MathLib}
    (s s' : SimulatedAnnealingCore.t) :
  Resize s = Ok s' ->
  exists b b',
    at_ (blocks_ s) (block_id_ s') = Ok b
    /\ Block.IsResizeable b = true
    /\ reshaped b b'
    /\ blocks_ s' = <[Z.to_nat (block_id_ s') := b']> (blocks_ s)
    /\ pos_seq_ s' = pos_seq_ s /\ neg_seq_ s' = neg_seq_ s.
Proof.
  intros H.
  destruct (Resize_frame _ _ H) as (Hp & Hn & _).
  unfold Resize in H.
  bind_inv H as [i0 g0] Hi0. bind_inv H as [index1 g1] Hpick.
  apply pick_resizeable_Ok in Hpick as (b & Hb & Hres).
  rewrite Hb in H. cbn [bind] in H.
  assert (forall s0 b' bs',
            block_id_ s0 = index1 -> blocks_ s0 = bs' -> reshaped b b' ->
            put_ (blocks_ s) index1 b' = Ok bs' ->
            exists b1 b2,
              at_ (blocks_ s) (block_id_ s0) = Ok b1
              /\ Block.IsResizeable b1 = true /\ reshaped b1 b2
              /\ blocks_ s0 = <[Z.to_nat (block_id_ s0) := b2]> (blocks_ s))
    as Hleaf.
  { intros s0 b' bs' -> -> Hr Hput. exists b, b'.
    apply put_Ok in Hput as (_ & _ & ->). auto. }
  assert (forall s0,
            block_id_ s0 = index1 -> blocks_ s0 = blocks_ s ->
            exists b1 b2,
              at_ (blocks_ s) (block_id_ s0) = Ok b1
              /\ Block.IsResizeable b1 = true /\ reshaped b1 b2
              /\ blocks_ s0 = <[Z.to_nat (block_id_ s0) := b2]> (blocks_ s))
    as Hsame.
  { intros s0 -> ->. exists b, b.
    split; [exact Hb | ]. split; [exact Hres | ].
    split; [apply reshaped_refl | ].
    apply at_Ok in Hb as [_ Hb]. symmetry. apply list_insert_id. exact Hb. }
  assert (exists b1 b2,
            at_ (blocks_ s) (block_id_ s') = Ok b1
            /\ Block.IsResizeable b1 = true /\ reshaped b1 b2
            /\ blocks_ s' = <[Z.to_nat (block_id_ s') := b2]> (blocks_ s))
    as (b1 & b2 & H1 & H2 & H3 & H4);
    [ | exists b1, b2; auto 10].
  destruct (0 <? Block.GetNumMacro b)%Z.
  - bind_inv H as [blk' g2] Hblk. bind_inv H as bs' Hput. ok_inv H.
    eapply Hleaf; eauto using ResizeHardBlock_reshaped; reflexivity.
  - bind_inv H as [option g2] Hopt.
    unfold stretch_out, stretch_in in H.
    repeat match type of H with
           | (if ?c then _ else _) = _ => destruct c
           | match (if ?c then _ else _) with
             | Some _ => _
             | None => _
             end = _ => destruct c
           end;
      try (bind_inv H as r Hr; try destruct r as [blk' g3];
           bind_inv H as bs' Hput; ok_inv H;
           eapply Hleaf;
           eauto using ChooseAspectRatioRandom_reshaped, ChangeWidth_reshaped,
             ChangeHeight_reshaped; reflexivity);
      try (ok_inv H; apply Hsame; reflexivity).
Qed.

(** ** Widths and heights within the limits *)

Lemma advance_Ok (stop : Q * Q -> bool) (v : list (Q * Q)) (i0 i : nat) :
  Block.advance stop v i0 = Ok i ->
  exists p, (i0 <= i)%nat /\ v !! (i - i0)%nat = Some p /\ stop p = true
            /\ forall k q, (k < i - i0)%nat -> v !! k = Some q ->
                           stop q = false.
Proof.
  revert i0. induction v as [ | p v IH]; intros i0 H; [discriminate | ].
  cbn [Block.advance] in H. destruct (stop p) eqn:Hp.
  - ok_inv H. exists p. rewrite Nat.sub_diag.
    split; [lia | ]. split; [reflexivity | ]. split; [exact Hp | ].
    intros k q Hk. lia.
  - apply IH in H as (q & Hle & Hq & Hs & Hfirst).
    exists q. split; [lia | ].
    replace (i - i0)%nat with (S (i - S i0)) by lia.
    split; [exact Hq | ]. split; [exact Hs | ].
    intros [ | k] r Hk Hr; cbn in Hr.
    + injection Hr as <-. exact Hp.
    + apply (Hfirst k); [lia | exact Hr].
Qed.

Lemma advance_finds (stop : Q * Q -> bool) (v : list (Q * Q)) (i0 : nat)
    (p : Q * Q) :
  p ∈ v -> stop p = true -> exists i, Block.advance stop v i0 = Ok i.
Proof.
  revert i0. induction v as [ | q v IH]; intros i0 Hin Hp;
    [inversion Hin | ].
  cbn [Block.advance]. destruct (stop q) eqn:Hq; [eauto | ].
  apply elem_of_cons in Hin as [-> | Hin]; [congruence | ].
  apply IH; assumption.
Qed.

Lemma at_first {A : Type} (x : A) (v : list A) : at_ (x :: v) 0 = Ok x.
Proof. reflexivity. Qed.

Lemma at_last {A : Type} (v : list A) (x : A) :
  last v = Some x -> at_ v (Block.last_index v) = Ok x.
Proof.
  intros H. unfold at_, Block.last_index.
  assert (v <> []) as Hne by (intros ->; discriminate).
  assert (0 < length v)%nat as Hl by (destruct v; [congruence | cbn; lia]).
  destruct (Z.ltb_spec (Z.of_nat (length v) - 1) 0); [lia | ].
  replace (Z.to_nat (Z.of_nat (length v) - 1)) with (pred (length v)) by lia.
  rewrite <- last_lookup, H. reflexivity.
Qed.

Lemma at_nat {A : Type} (v : list A) (i : nat) (x : A) :
  v !! i = Some x -> at_ v (Z.of_nat i) = Ok x.
Proof.
  intros H. unfold at_. destruct (Z.ltb_spec (Z.of_nat i) 0); [lia | ].
  rewrite Nat2Z.id, H. reflexivity.
Qed.

(** What [ChangeWidth] does on a soft block with limits: the width it
    sets, by the case of the requested width. *)
Lemma ChangeWidth_cases (width : Q) (b : Block.t) (lim0 limn : Q * Q) :
  Block.is_soft_ b = true ->
  head (Block.width_limit_ b) = Some lim0 ->
  last (Block.width_limit_ b) = Some limn ->
  exists w,
    Block.ChangeWidth width b = Block.width_then_height w b
    /\ ((lim0.1 <= width /\ w = lim0.1)
        \/ (width < lim0.1 /\ width <= limn.2 /\ w = limn.2)
        \/ (exists i cur, Block.width_limit_ b !! i = Some cur
              /\ cur.2 <= width /\ width <= cur.1 /\ w = width)
        \/ (exists i prev cur,
              Block.width_limit_ b !! i = Some prev
              /\ Block.width_limit_ b !! S i = Some cur
              /\ cur.1 < width /\ width < prev.2
              /\ (forall k q, (k <= i)%nat ->
                    Block.width_limit_ b !! k = Some q -> width < q.2)
              /\ w = (if fltb (prev.2 - width) (width - cur.1)
                      then prev.2 else cur.1))).
Proof.
  intros Hsoft H0 Hn. unfold Block.ChangeWidth. rewrite Hsoft. cbn [negb].
  destruct (Block.width_limit_ b) as [ | x v] eqn:Hv; [discriminate | ].
  injection H0 as ->. rewrite at_first. cbn [bind].
  destruct (fleb lim0.1 width) eqn:E1.
  { apply fleb_le in E1. eauto 10. }
  apply fleb_gt in E1. rewrite (at_last _ _ Hn). cbn [bind].
  destruct (fleb width limn.2) eqn:E2.
  { apply fleb_le in E2. eauto 10. }
  apply fleb_gt in E2.
  destruct (advance_finds (fun p => negb (fltb width p.2)) (lim0 :: v) 0 limn)
    as [i Hi].
  { apply last_Some_elem_of. exact Hn. }
  { apply negb_true_iff, fltb_ge. lra. }
  rewrite Hi. cbn [bind].
  apply advance_Ok in Hi as (cur & _ & Hcur & Hstop & Hfirst).
  rewrite Nat.sub_0_r in Hcur, Hfirst.
  apply negb_true_iff, fltb_ge in Hstop.
  rewrite (at_nat _ _ _ Hcur). cbn [bind].
  destruct (fleb width cur.1) eqn:E3.
  { apply fleb_le in E3. exists width. split; [reflexivity | ].
    right. right. left. exists i, cur. auto. }
  apply fleb_gt in E3.
  destruct i as [ | i].
  { cbn in Hcur. injection Hcur as <-. lra. }
  cbn [Block.retreat bind].
  destruct ((lim0 :: v) !! i) as [prev | ] eqn:Hprev.
  2:{ apply lookup_ge_None in Hprev. apply lookup_lt_Some in Hcur. lia. }
  rewrite (at_nat _ _ _ Hprev). cbn [bind].
  assert (forall k q, (k <= i)%nat -> (lim0 :: v) !! k = Some q -> width < q.2)
    as Hbefore.
  { intros k q Hk Hq. specialize (Hfirst k q ltac:(lia) Hq).
    apply negb_false_iff, fltb_lt in Hfirst. exact Hfirst. }
  exists (if fltb (prev.2 - width) (width - cur.1) then prev.2 else cur.1).
  split; [destruct (fltb _ _); reflexivity | ].
  right. right. right. exists i, prev, cur.
  split; [exact Hprev | ]. split; [exact Hcur | ]. split; [exact E3 | ].
  split; [apply (Hbefore i prev); [lia | exact Hprev] | ].
  split; [exact Hbefore | reflexivity].
Qed.

Lemma ChangeHeight_cases (height : Q) (b : Block.t) (lim0 limn : Q * Q) :
  Block.is_soft_ b = true ->
  head (Block.height_limit_ b) = Some lim0 ->
  last (Block.height_limit_ b) = Some limn ->
  exists h,
    Block.ChangeHeight height b = Block.height_then_width h b
    /\ ((height <= lim0.1 /\ h = lim0.1)
        \/ (lim0.1 < height /\ limn.2 <= height /\ h = limn.2)
        \/ (exists i cur, Block.height_limit_ b !! i = Some cur
              /\ cur.1 <= height /\ height <= cur.2 /\ h = height)
        \/ (exists i prev cur,
              Block.height_limit_ b !! i = Some prev
              /\ Block.height_limit_ b !! S i = Some cur
              /\ prev.2 < height /\ height < cur.1
              /\ (forall k q, (k <= i)%nat ->
                    Block.height_limit_ b !! k = Some q -> q.2 < height)
              /\ h = (if fltb (cur.1 - height) (height - prev.2)
                      then cur.1 else prev.2))).
Proof.
  intros Hsoft H0 Hn. unfold Block.ChangeHeight. rewrite Hsoft. cbn [negb].
  destruct (Block.height_limit_ b) as [ | x v] eqn:Hv; [discriminate | ].
  injection H0 as ->. rewrite at_first. cbn [bind].
  destruct (fleb height lim0.1) eqn:E1.
  { apply fleb_le in E1. eauto 10. }
  apply fleb_gt in E1. rewrite (at_last _ _ Hn). cbn [bind].
  destruct (fleb limn.2 height) eqn:E2.
  { apply fleb_le in E2. eauto 10. }
  apply fleb_gt in E2.
  destruct (advance_finds (fun p => negb (fltb p.2 height)) (lim0 :: v) 0 limn)
    as [i Hi].
  { apply last_Some_elem_of. exact Hn. }
  { apply negb_true_iff, fltb_ge. lra. }
  rewrite Hi. cbn [bind].
  apply advance_Ok in Hi as (cur & _ & Hcur & Hstop & Hfirst).
  rewrite Nat.sub_0_r in Hcur, Hfirst.
  apply negb_true_iff, fltb_ge in Hstop.
  rewrite (at_nat _ _ _ Hcur). cbn [bind].
  destruct (fleb cur.1 height) eqn:E3.
  { apply fleb_le in E3. exists height. split; [reflexivity | ].
    right. right. left. exists i, cur. auto. }
  apply fleb_gt in E3.
  destruct i as [ | i].
  { cbn in Hcur. injection Hcur as <-. lra. }
  cbn [Block.retreat bind].
  destruct ((lim0 :: v) !! i) as [prev | ] eqn:Hprev.
  2:{ apply lookup_ge_None in Hprev. apply lookup_lt_Some in Hcur. lia. }
  rewrite (at_nat _ _ _ Hprev). cbn [bind].
  assert (forall k q, (k <= i)%nat -> (lim0 :: v) !! k = Some q -> q.2 < height)
    as Hbefore.
  { intros k q Hk Hq. specialize (Hfirst k q ltac:(lia) Hq).
    apply negb_false_iff, fltb_lt in Hfirst. exact Hfirst. }
  exists (if fltb (cur.1 - height) (height - prev.2) then cur.1 else prev.2).
  split; [destruct (fltb _ _); reflexivity | ].
  right. right. right. exists i, prev, cur.
  split; [exact Hprev | ]. split; [exact Hcur | ].
  split; [apply (Hbefore i prev); [lia | exact Hprev] | ].
  split; [exact E3 | ]. split; [exact Hbefore | reflexivity].
Qed.

Lemma head_last_nonempty {A : Type} (l : list A) :
  l <> [] -> exists x y, head l = Some x /\ last l = Some y.
Proof.
  intros Hne. destruct l as [ | x l]; [congruence | ].
  destruct (last (x :: l)) as [y | ] eqn:E; [eauto | ].
  apply last_None in E. discriminate.
Qed.

(** X8. On a soft block whose limits are intervals, [ChangeWidth] sets a
    width that lies in one of the intervals of [width_limit_] and the
    height [area_ / width_]; in the same way [ChangeHeight] sets a height
    in one of the intervals of [height_limit_] and the width
    [area_ / height_]. *)
Theorem ChangeWidth_ChangeHeight_within_limits (v : Q) (b b' : Block.t) :
  Block.is_soft_ b = true ->
  ((forall p, p ∈ Block.width_limit_ b -> p.2 <= p.1) ->
   Block.ChangeWidth v b = Ok b' ->
   (exists p, p ∈ Block.width_limit_ b
              /\ p.2 <= Block.width_ b' /\ Block.width_ b' <= p.1)
   /\ Block.height_ b' = Block.area_ b / Block.width_ b')
  /\ ((forall p, p ∈ Block.height_limit_ b -> p.1 <= p.2) ->
      Block.ChangeHeight v b = Ok b' ->
      (exists p, p ∈ Block.height_limit_ b
                 /\ p.1 <= Block.height_ b' /\ Block.height_ b' <= p.2)
      /\ Block.width_ b' = Block.area_ b / Block.height_ b').
Proof.
  intros Hsoft. split; intros Hwf H.
  - destruct (head_last_nonempty (Block.width_limit_ b))
      as (lim0 & limn & H0 & Hn).
    { intros Hl. unfold Block.ChangeWidth in H. rewrite Hsoft, Hl in H.
      discriminate. }
    destruct (ChangeWidth_cases v b lim0 limn Hsoft H0 Hn) as (w & Hw & Hc).
    rewrite Hw in H. apply width_then_height_Ok in H as [-> _].
    cbn [Block.width_ Block.height_ Block.set_shape].
    split; [ | reflexivity].
    pose proof (head_Some_elem_of _ _ H0) as Hin0.
    pose proof (last_Some_elem_of _ _ Hn) as Hinn.
    destruct Hc as [[H1 ->] | [(H1 & H2 & ->)
                   | [(i & cur & Hi & H1 & H2 & ->)
                   | (i & prev & cur & Hp & Hcur & H1 & H2 & _ & ->)]]].
    + exists lim0. specialize (Hwf _ Hin0). split; [exact Hin0 | lra].
    + exists limn. specialize (Hwf _ Hinn). split; [exact Hinn | lra].
    + exists cur. split; [eapply list_elem_of_lookup_2; eauto | lra].
    + apply list_elem_of_lookup_2 in Hp, Hcur.
      destruct (fltb _ _);
        [exists prev; specialize (Hwf _ Hp) | exists cur; specialize (Hwf _ Hcur)];
        (split; [assumption | lra]).
  - destruct (head_last_nonempty (Block.height_limit_ b))
      as (lim0 & limn & H0 & Hn).
    { intros Hl. unfold Block.ChangeHeight in H. rewrite Hsoft, Hl in H.
      discriminate. }
    destruct (ChangeHeight_cases v b lim0 limn Hsoft H0 Hn) as (h & Hh & Hc).
    rewrite Hh in H. apply height_then_width_Ok in H as [-> _].
    cbn [Block.width_ Block.height_ Block.set_shape].
    split; [ | reflexivity].
    pose proof (head_Some_elem_of _ _ H0) as Hin0.
    pose proof (last_Some_elem_of _ _ Hn) as Hinn.
    destruct Hc as [[H1 ->] | [(H1 & H2 & ->)
                   | [(i & cur & Hi & H1 & H2 & ->)
                   | (i & prev & cur & Hp & Hcur & H1 & H2 & _ & ->)]]].
    + exists lim0. specialize (Hwf _ Hin0). split; [exact Hin0 | lra].
    + exists limn. specialize (Hwf _ Hinn). split; [exact Hinn | lra].
    + exists cur. split; [eapply list_elem_of_lookup_2; eauto | lra].
    + apply list_elem_of_lookup_2 in Hp, Hcur.
      destruct (fltb _ _);
        [exists cur; specialize (Hwf _ Hcur) | exists prev; specialize (Hwf _ Hp)];
        (split; [assumption | lra]).
Qed.

Lemma width_then_height_total (w : Q) (b : Block.t) :
  (exists b', Block.width_then_height w b = Ok b')
  \/ Block.width_then_height w b = Err DivByZero.
Proof.
  unfold Block.width_then_height, fdiv.
  destruct (feqb w 0); cbn [bind]; eauto.
Qed.

Lemma height_then_width_total (h : Q) (b : Block.t) :
  (exists b', Block.height_then_width h b = Ok b')
  \/ Block.height_then_width h b = Err DivByZero.
Proof.
  unfold Block.height_then_width, fdiv.
  destruct (feqb h 0); cbn [bind]; eauto.
Qed.

(** X9. [ChangeWidth] and [ChangeHeight] stay inside the vector of limits
    whenever it is not empty: the iterator loop stops at the last interval
    at the latest, and it is only stepped back from a position after the
    first.  The one fault left is the division [area_ / width_] (or
    [area_ / height_]) by a limit or a request that is zero.  With an
    empty vector a soft block reads its entry 0. *)
Theorem ChangeWidth_ChangeHeight_in_bounds (v : Q) (b : Block.t) :
  (Block.width_limit_ b <> [] ->
   (exists b', Block.ChangeWidth v b = Ok b')
   \/ Block.ChangeWidth v b = Err DivByZero)
  /\ (Block.height_limit_ b <> [] ->
      (exists b', Block.ChangeHeight v b = Ok b')
      \/ Block.ChangeHeight v b = Err DivByZero)
  /\ (Block.is_soft_ b = true -> Block.width_limit_ b = [] ->
      Block.ChangeWidth v b = Err OutOfRange)
  /\ (Block.is_soft_ b = true -> Block.height_limit_ b = [] ->
      Block.ChangeHeight v b = Err OutOfRange).
Proof.
  split; [ | split; [ | split]].
  - intros Hne. destruct (Block.is_soft_ b) eqn:Hsoft.
    + destruct (head_last_nonempty _ Hne) as (lim0 & limn & H0 & Hn).
      destruct (ChangeWidth_cases v b lim0 limn Hsoft H0 Hn) as (w & -> & _).
      apply width_then_height_total.
    + left. exists b. unfold Block.ChangeWidth. rewrite Hsoft. reflexivity.
  - intros Hne. destruct (Block.is_soft_ b) eqn:Hsoft.
    + destruct (head_last_nonempty _ Hne) as (lim0 & limn & H0 & Hn).
      destruct (ChangeHeight_cases v b lim0 limn Hsoft H0 Hn) as (h & -> & _).
      apply height_then_width_total.
    + left. exists b. unfold Block.ChangeHeight. rewrite Hsoft. reflexivity.
  - intros Hsoft Hl. unfold Block.ChangeWidth. rewrite Hsoft, Hl. reflexivity.
  - intros Hsoft Hl. unfold Block.ChangeHeight. rewrite Hsoft, Hl. reflexivity.
Qed.

(** X10. On a soft block whose width limits are disjoint intervals
    stored from the widest to the narrowest, [ChangeWidth] keeps a
    requested width that lies in one of the intervals; [ChangeHeight]
    does the same for height limits stored from the lowest to the
    highest. *)
Theorem ChangeWidth_ChangeHeight_keep_allowed (v : Q) (b b' : Block.t)
    (p : Q * Q) :
  Block.is_soft_ b = true ->
  (descending (Block.width_limit_ b) -> p ∈ Block.width_limit_ b ->
   p.2 <= v -> v <= p.1 ->
   Block.ChangeWidth v b = Ok b' -> Block.width_ b' == v)
  /\ (ascending (Block.height_limit_ b) -> p ∈ Block.height_limit_ b ->
      p.1 <= v -> v <= p.2 ->
      Block.ChangeHeight v b = Ok b' -> Block.height_ b' == v).
Proof.
  intros Hsoft. split; intros [Hwf Hord] Hp Hlo Hhi H.
  - destruct (head_last_nonempty (Block.width_limit_ b))
      as (lim0 & limn & H0 & Hn).
    { intros Hl. rewrite Hl in Hp. inversion Hp. }
    destruct (ChangeWidth_cases v b lim0 limn Hsoft H0 Hn) as (w & Hw & Hc).
    rewrite Hw in H. apply width_then_height_Ok in H as [-> _].
    cbn [Block.width_ Block.set_shape].
    apply list_elem_of_lookup in Hp as [k Hk].
    pose proof (lookup_lt_Some _ _ _ Hk) as Hklt.
    assert (Block.width_limit_ b !! O = Some lim0) as H0'
      by (rewrite <- head_lookup; exact H0).
    assert (Block.width_limit_ b
              !! pred (length (Block.width_limit_ b)) = Some limn) as Hn'
      by (rewrite <- last_lookup; exact Hn).
    pose proof (Hwf _ (head_Some_elem_of _ _ H0)) as Hwf0.
    pose proof (Hwf _ (last_Some_elem_of _ _ Hn)) as Hwfn.
    destruct Hc as [[H1 ->] | [(H1 & H2 & ->)
                   | [(i & cur & Hi & H1 & H2 & ->)
                   | (i & prev & cur & Hpr & Hcur & H1 & H2 & Hbef & ->)]]].
    + destruct k as [ | k].
      * rewrite H0' in Hk. injection Hk as <-. lra.
      * pose proof (Hord O (S k) _ _ ltac:(lia) H0' Hk). lra.
    + destruct (decide (k = pred (length (Block.width_limit_ b)))) as [-> | Hd].
      * rewrite Hn' in Hk. injection Hk as <-. lra.
      * pose proof (Hord k (pred (length (Block.width_limit_ b))) _ _
                      ltac:(lia) Hk Hn'). lra.
    + reflexivity.
    + exfalso. destruct (decide (k <= i)%nat) as [Hki | Hki].
      * pose proof (Hbef k p Hki Hk). lra.
      * destruct (decide (k = S i)) as [-> | Hd].
        -- rewrite Hcur in Hk. injection Hk as <-. lra.
        -- pose proof (Hord (S i) k _ _ ltac:(lia) Hcur Hk).
           pose proof (Hwf _ (list_elem_of_lookup_2 _ _ _ Hcur)). lra.
  - destruct (head_last_nonempty (Block.height_limit_ b))
      as (lim0 & limn & H0 & Hn).
    { intros Hl. rewrite Hl in Hp. inversion Hp. }
    destruct (ChangeHeight_cases v b lim0 limn Hsoft H0 Hn) as (h & Hh & Hc).
    rewrite Hh in H. apply height_then_width_Ok in H as [-> _].
    cbn [Block.height_ Block.set_shape].
    apply list_elem_of_lookup in Hp as [k Hk].
    pose proof (lookup_lt_Some _ _ _ Hk) as Hklt.
    assert (Block.height_limit_ b !! O = Some lim0) as H0'
      by (rewrite <- head_lookup; exact H0).
    assert (Block.height_limit_ b
              !! pred (length (Block.height_limit_ b)) = Some limn) as Hn'
      by (rewrite <- last_lookup; exact Hn).
    pose proof (Hwf _ (head_Some_elem_of _ _ H0)) as Hwf0.
    pose proof (Hwf _ (last_Some_elem_of _ _ Hn)) as Hwfn.
    destruct Hc as [[H1 ->] | [(H1 & H2 & ->)
                   | [(i & cur & Hi & H1 & H2 & ->)
                   | (i & prev & cur & Hpr & Hcur & H1 & H2 & Hbef & ->)]]].
    + destruct k as [ | k].
      * rewrite H0' in Hk. injection Hk as <-. lra.
      * pose proof (Hord O (S k) _ _ ltac:(lia) H0' Hk). lra.
    + destruct (decide (k = pred (length (Block.height_limit_ b)))) as [-> | Hd].
      * rewrite Hn' in Hk. injection Hk as <-. lra.
      * pose proof (Hord k (pred (length (Block.height_limit_ b))) _ _
                      ltac:(lia) Hk Hn'). lra.
    + reflexivity.
    + exfalso. destruct (decide (k <= i)%nat) as [Hki | Hki].
      * pose proof (Hbef k p Hki Hk). lra.
      * destruct (decide (k = S i)) as [-> | Hd].
        -- rewrite Hcur in Hk. injection Hk as <-. lra.
        -- pose proof (Hord (S i) k _ _ ltac:(lia) Hcur Hk).
           pose proof (Hwf _ (list_elem_of_lookup_2 _ _ _ Hcur)). lra.
Qed.

(** ** Worked examples for the further properties *)

(** The first two of the staggered macros overlap in zero area. *)
Lemma CalculateOverlap_reports_macro_pairs_witness :
  CalculateOverlap (blocks_ staggered_core) = false
  /\ overlap_area (macro [(20, 40)] 20 40 0 50)
                  (macro [(20, 20)] 20 20 25 0) == 0.
Proof.
  split; [reflexivity | ].
  apply (proj1 (CalculateOverlap_reports_macro_pairs (blocks_ staggered_core))
               eq_refl 0%nat 1%nat); [lia | reflexivity..].
Defined.

(** The second of the three macros, packed. *)
Lemma PackFloorplan_bounding_box_witness :
  exists b,
    seqs_ok (three_core 3 1 [])
    /\ blocks_ (PackFloorplan (three_core 3 1 [])) !! 1%nat = Some b
    /\ 0 <= Block.GetX b /\ Block.GetX b + Block.GetWidth b <= 4
    /\ 0 <= Block.GetY b /\ Block.GetY b + Block.GetHeight b <= 4.
Proof.
  eexists. split; [seqs_of_three | ]. split; [by_computation | ].
  destruct (PackFloorplan_bounding_box (three_core 3 1 []) 1 _
              ltac:(seqs_of_three) eq_refl) as (Hx & Hw & Hy & Hh & _).
  split; [exact Hx | ]. split; [exact Hw | ]. split; [exact Hy | exact Hh].
Defined.

(** The three macros, packed: the box is 4 wide and 4 high. *)
Lemma PackFloorplan_box_is_tight_witness :
  seqs_ok (three_core 3 1 [])
  /\ (width_ (cur (PackFloorplan (three_core 3 1 []))) = 0
      \/ exists i b,
           blocks_ (PackFloorplan (three_core 3 1 [])) !! i = Some b
           /\ width_ (cur (PackFloorplan (three_core 3 1 [])))
              = Block.GetX b + Block.GetWidth b).
Proof.
  split; [seqs_of_three | ].
  apply (PackFloorplan_box_is_tight (three_core 3 1 [])). seqs_of_three.
Defined.

(** A positive swap of the entries 0 and 1 of the three macros. *)
Lemma SingleSwap_exchanges_two_entries_witness :
  exists s',
    SingleSwap true (three_core 3 1 [0; 1 # 2]) = Ok s'
    /\ blocks_ s' = three_macros
    /\ neg_seq_ s' = [0; 1; 2]%nat
    /\ exists i j a b,
         i <> j /\ [1; 0; 2]%nat !! i = Some a /\ [1; 0; 2]%nat !! j = Some b
         /\ pos_seq_ s' !! i = Some b /\ pos_seq_ s' !! j = Some a.
Proof.
  eexists. split; [by_computation | ].
  match goal with
  | |- blocks_ ?s' = _ /\ _ =>
      destruct (SingleSwap_exchanges_two_entries true
                  (three_core 3 1 [0; 1 # 2]) s' ltac:(by_computation))
        as (Hb & Hn & i & j & a & b & Hij & Ha & Hb' & Hi & Hj & _)
  end.
  split; [exact Hb | ]. split; [exact Hn | ].
  exists i, j, a, b. auto.
Defined.

(** Without blocks and with the draw 1/2 the double swap is selected and
    uses up the tape. *)
Lemma Perturb_without_blocks_witness :
  blocks_ (empty_core [1 # 2; 1 # 2; 1 # 2]) = []
  /\ (@Perturb rational_math (empty_core [1 # 2; 1 # 2; 1 # 2])
      = Err OutOfRange
      \/ @Perturb rational_math (empty_core [1 # 2; 1 # 2; 1 # 2])
         = Err TapeEnd).
Proof.
  split; [reflexivity | ].
  apply (@Perturb_without_blocks rational_math). reflexivity.
Defined.

(** A resize of the second block of [two_core] to its second option. *)
Lemma Resize_reshapes_one_block_witness :
  exists s' b b',
    @Resize rational_math (set_generator [1 # 2; 1 # 2] two_core) = Ok s'
    /\ block_id_ s' = 1%Z
    /\ blocks_ two_core !! 1%nat = Some b
    /\ Block.IsResizeable b = true
    /\ reshaped b b'
    /\ blocks_ s' = <[1%nat := b']> (blocks_ two_core).
Proof.
  eexists.
  match goal with
  | |- exists b b', Resize _ = Ok ?s' /\ _ =>
      destruct (@Resize_reshapes_one_block rational_math
                  (set_generator [1 # 2; 1 # 2] two_core) s'
                  ltac:(by_computation))
        as (b & b' & Hb & Hres & Hshape & Hbs & _)
  end.
  exists b, b'. split; [by_computation | ]. split; [reflexivity | ].
  split; [ | split; [exact Hres | split; [exact Hshape | exact Hbs]]].
  vm_compute in Hb. injection Hb as <-. reflexivity.
Defined.

(** The soft block asked for the width 5 and for the height 9. *)
Lemma ChangeWidth_ChangeHeight_within_limits_witness :
  exists bw bh,
    Block.ChangeWidth 5 soft_block = Ok bw
    /\ Block.ChangeHeight 9 soft_block = Ok bh
    /\ (exists p, p ∈ [(8, 2)] /\ p.2 <= Block.width_ bw
                  /\ Block.width_ bw <= p.1)
    /\ (exists p, p ∈ [(2, 8)] /\ p.1 <= Block.height_ bh
                  /\ Block.height_ bh <= p.2).
Proof.
  eexists _, _. split; [by_computation | ]. split; [by_computation | ].
  split.
  - apply (proj1 (ChangeWidth_ChangeHeight_within_limits 5 soft_block _
                    eq_refl)); [ | reflexivity].
    each_block. discriminate.
  - apply (proj2 (ChangeWidth_ChangeHeight_within_limits 9 soft_block _
                    eq_refl)); [ | reflexivity].
    each_block. discriminate.
Defined.

Lemma ChangeWidth_ChangeHeight_in_bounds_witness :
  ((exists b', Block.ChangeWidth 5 soft_block = Ok b')
   \/ Block.ChangeWidth 5 soft_block = Err DivByZero)
  /\ ((exists b', Block.ChangeHeight 5 soft_block = Ok b')
      \/ Block.ChangeHeight 5 soft_block = Err DivByZero)
  /\ Block.ChangeWidth 5 (macro [] 0 0 0 0) = Ok (macro [] 0 0 0 0).
Proof.
  destruct (ChangeWidth_ChangeHeight_in_bounds 5 soft_block)
    as (Hw & Hh & _ & _).
  split; [apply Hw; discriminate | ].
  split; [apply Hh; discriminate | reflexivity].
Defined.

(** The soft block keeps the width 5 and the height 3. *)
Lemma ChangeWidth_ChangeHeight_keep_allowed_witness :
  exists bw bh,
    Block.ChangeWidth 5 soft_block = Ok bw
    /\ Block.ChangeHeight 3 soft_block = Ok bh
    /\ Block.width_ bw == 5 /\ Block.height_ bh == 3.
Proof.
  eexists _, _. split; [by_computation | ]. split; [by_computation | ].
  split.
  - apply (proj1 (ChangeWidth_ChangeHeight_keep_allowed 5 soft_block _ (8, 2)
                    eq_refl)); try reflexivity; try discriminate.
    + split; [each_block; discriminate | ].
      intros [ | i] [ | j] p q Hij Hi Hj; try lia; destruct j; discriminate.
    + apply list_elem_of_here.
  - apply (proj2 (ChangeWidth_ChangeHeight_keep_allowed 3 soft_block _ (2, 8)
                    eq_refl)); try reflexivity; try discriminate.
    + split; [each_block; discriminate | ].
      intros [ | i] [ | j] p q Hij Hi Hj; try lia; destruct j; discriminate.
    + apply list_elem_of_here.
Defined.
